(** * Storage manager core: LRU replacer, extendible hash table,
    buffer pool manager, B+ tree index and lock manager.

  Shallow embedding of the C++ sources and proofs of the properties
  stated for them.  The first part of the file holds the model, one
  module per source file; the second part holds the proofs.

  Conventions of the model:
  - C++ [int], [size_t] and [page_id_t] values are integers of [Z]; the
    runs considered stay far from the 32-bit limits, so wrap-around never
    occurs in them.  C++ integer division is [Z.quot].
  - A pointer to an object owned by a container (a bucket, a frame, a
    tree page) is the key of that object in an explicit store, so two
    pointers to one object alias in the model as they do in the code.
  - Loops are structural recursions on the number of iterations left.
  - Code that can dereference a null or dangling pointer, or loop for
    ever, returns [None] there. *)

From Stdlib Require Import ZArith Lia Bool.
From stdpp Require Import base option list gmap.

Open Scope Z_scope.

(** ** buffer/lru_replacer.h, lru_replacer.cpp *)

Module LRU.
Section Replacer.
Context {T : Type} `{Countable T}.

(** [used] is the std::list, most recently inserted value first.  [mp]
    maps a value to the iterator of its node in [used]; the iterator
    stored for a value is always the one of the front-most node that
    holds it (Insert stores [used.begin()] right after [push_front]), so
    the model keeps the key set of [mp] and designates the node by its
    value. *)
Record LRUReplacer := mkLRU { mp : gset T; used : list T }.

Definition empty_replacer : LRUReplacer := mkLRU ∅ [].

(** [used.erase(mp[value])]: unlink the front-most node holding [value]. *)
Fixpoint erase_node (value : T) (l : list T) : list T :=
  match l with
  | [] => []
  | x :: l' => if decide (x = value) then l' else x :: erase_node value l'
  end.

(** [used.pop_back()] *)
Definition pop_back (l : list T) : list T := removelast l.

Definition Insert (value : T) (r : LRUReplacer) : LRUReplacer :=
  let used1 := if decide (value ∈ mp r) then erase_node value (used r)
               else used r in
  mkLRU ({[value]} ∪ mp r) (value :: used1).

(** The result is the value written to the out-parameter when the call
    returns true, and [None] when it returns false.  [used.back()] of an
    empty list while [mp] is not empty would be undefined behaviour; the
    model returns [None] and leaves the replacer as it is. *)
Definition Victim (r : LRUReplacer) : option T * LRUReplacer :=
  if decide (mp r = ∅) then (None, r)
  else match last (used r) with
       | None => (None, r)
       | Some value => (Some value, mkLRU (mp r ∖ {[value]}) (pop_back (used r)))
       end.

Definition Erase (value : T) (r : LRUReplacer) : bool * LRUReplacer :=
  if decide (value ∈ mp r)
  then (true, mkLRU (mp r ∖ {[value]}) (erase_node value (used r)))
  else (false, r).

Definition Size (r : LRUReplacer) : nat := size (mp r).

(** The states the replacer can be in: built from the constructor by
    calls of its three mutators. *)
Inductive reachable : LRUReplacer → Prop :=
| reach_init : reachable empty_replacer
| reach_Insert v r : reachable r → reachable (Insert v r)
| reach_Victim r : reachable r → reachable (Victim r).2
| reach_Erase v r : reachable r → reachable (Erase v r).2.

(** [n] successive calls of Victim; the values handed out, oldest call
    first, or [None] if one of the calls returned false. *)
Fixpoint drain (n : nat) (r : LRUReplacer) : option (list T * LRUReplacer) :=
  match n with
  | O => Some ([], r)
  | S n' => match Victim r with
            | (Some v, r') =>
                match drain n' r' with
                | Some (vs, r'') => Some (v :: vs, r'')
                | None => None
                end
            | (None, _) => None
            end
  end.

(** The representation invariant: one node per key of [mp]. *)
Definition wf (r : LRUReplacer) : Prop :=
  NoDup (used r) ∧ ∀ x, x ∈ mp r ↔ x ∈ used r.
End Replacer.
Arguments LRUReplacer T {_ _} : assert.
End LRU.

(** ** hash/extendible_hash.h, extendible_hash.cpp *)

Module EHT.
Section Table.
(** Keys are of an integer type ([page_id_t], [int]); [hash] stands for
    [std::hash<K>{}], whose values are of type [size_t]. *)
Context {V : Type}.
Variable hash : Z → Z.

Definition HASVAL : Z := 1.
Definition NONE : Z := 0.

(** The default constructor leaves [key] and [value] without a value;
    they are never read while [flag] is NONE, and the model keeps such a
    slot's value as [None] and its key as 0. *)
Record BucketEntry := mkEntry { flag : Z; key : Z; value : option V }.

Record Bucket := mkBucket {
  entries : list BucketEntry;
  localDepth : Z;
  bucketMaxSize : Z;      (* Bucket::maxBucketSize *)
  size : Z
}.

(** [table] is the directory, a vector of shared pointers; a pointer is
    the index of the bucket in [heap], which holds every bucket ever made
    by [make_shared], so directory slots that share a bucket alias. *)
Record ExtendibleHash := mkEHT {
  maxBucketSize : Z;
  globalDepth : Z;
  numBuckets : Z;
  table : list nat;
  heap : list Bucket
}.

(** [Bucket(_localDepth, _maxBucketSize, _size)] *)
Definition new_Bucket (ld mx sz : Z) : Bucket :=
  mkBucket (replicate (Z.to_nat mx) (mkEntry 0 0 None)) ld mx sz.

(** The constructor [ExtendibleHash(size)]. *)
Definition init (sz : Z) : ExtendibleHash :=
  mkEHT sz 0 1 [0%nat] [new_Bucket 0 sz 0].

Definition HashKey (t : ExtendibleHash) (k : Z) : Z :=
  Z.land (hash k) (Z.shiftl 1 (globalDepth t) - 1).

Definition GetGlobalDepth (t : ExtendibleHash) : Z := globalDepth t.
Definition GetNumBuckets (t : ExtendibleHash) : Z := numBuckets t.

(** [table[index]] followed through the pointer. *)
Definition bucket_at (t : ExtendibleHash) (index : Z) : option Bucket :=
  r ← table t !! Z.to_nat index; heap t !! r.

Definition GetLocalDepth (t : ExtendibleHash) (bucket_id : Z) : Z :=
  if Z.of_nat (length (table t)) <=? bucket_id then -1
  else match bucket_at t bucket_id with
       | Some b => localDepth b
       | None => -1
       end.

Definition matches (k : Z) (e : BucketEntry) : bool :=
  (flag e =? HASVAL) && (key e =? k).

(** The loop of Find. *)
Fixpoint find_entry (k : Z) (es : list BucketEntry) : option V :=
  match es with
  | [] => None
  | e :: es' => if matches k e then value e else find_entry k es'
  end.

(** [Some v] when Find returns true and writes [v]; [None] when it
    returns false.  A directory slot out of range, which the code would
    read out of bounds, counts as not found. *)
Definition Find (t : ExtendibleHash) (k : Z) : option V :=
  match bucket_at t (HashKey t k) with
  | Some b => find_entry k (entries b)
  | None => None
  end.

(** The loop of Remove: the entries after the call, when one matched. *)
Fixpoint remove_entry (k : Z) (es : list BucketEntry) : option (list BucketEntry) :=
  match es with
  | [] => None
  | e :: es' =>
      if matches k e then Some (mkEntry NONE (key e) (value e) :: es')
      else (e ::.) <$> remove_entry k es'
  end.

Definition set_bucket (t : ExtendibleHash) (r : nat) (b : Bucket) : ExtendibleHash :=
  mkEHT (maxBucketSize t) (globalDepth t) (numBuckets t) (table t) (<[r := b]> (heap t)).

Definition Remove (t : ExtendibleHash) (k : Z) : bool * ExtendibleHash :=
  match table t !! Z.to_nat (HashKey t k) with
  | Some r =>
      match heap t !! r with
      | Some b =>
          match remove_entry k (entries b) with
          | Some es =>
              (true, set_bucket t r (mkBucket es (localDepth b) (bucketMaxSize b) (size b - 1)))
          | None => (false, t)
          end
      | None => (false, t)
      end
  | None => (false, t)
  end.

(** First loop of Insert: overwrite the value of a matching entry. *)
Fixpoint update_entry (k : Z) (v : V) (es : list BucketEntry) : option (list BucketEntry) :=
  match es with
  | [] => None
  | e :: es' =>
      if matches k e then Some (mkEntry (flag e) (key e) (Some v) :: es')
      else (e ::.) <$> update_entry k v es'
  end.

(** Last loop of Insert: fill the first empty slot. *)
Fixpoint fill_entry (k : Z) (v : V) (es : list BucketEntry) : option (list BucketEntry) :=
  match es with
  | [] => None
  | e :: es' =>
      if flag e =? NONE then Some (mkEntry HASVAL k (Some v) :: es')
      else (e ::.) <$> fill_entry k v es'
  end.

(** One round of the redistribution loop, for the entry at position [j]
    of the old bucket [r0]; [r1] is the new bucket. *)
Definition redistribute_step (indexSt0 ld : Z) (r0 r1 : nat)
    (t : ExtendibleHash) (j : nat) : option ExtendibleHash :=
  b0 ← heap t !! r0;
  e ← entries b0 !! j;
  if flag e =? NONE then Some t
  else
    let curIndex := HashKey t (key e) in
    if Z.land curIndex (Z.shiftl 1 (ld - 1)) =? Z.land indexSt0 (Z.shiftl 1 (ld - 1))
    then Some t
    else
      b1 ← heap t !! r1;
      let b1' := mkBucket (<[Z.to_nat (size b1) := mkEntry HASVAL (key e) (value e)]> (entries b1))
                          (localDepth b1) (bucketMaxSize b1) (size b1 + 1) in
      let t1 := set_bucket t r1 b1' in
      b0' ← heap t1 !! r0;
      Some (set_bucket t1 r0
              (mkBucket (<[j := mkEntry NONE (key e) (value e)]> (entries b0'))
                        (localDepth b0') (bucketMaxSize b0') (size b0' - 1))).

Fixpoint redistribute (indexSt0 ld : Z) (r0 r1 : nat)
    (js : list nat) (t : ExtendibleHash) : option ExtendibleHash :=
  match js with
  | [] => Some t
  | j :: js' =>
      t' ← redistribute_step indexSt0 ld r0 r1 t j;
      redistribute indexSt0 ld r0 r1 js' t'
  end.

(** The body of the while loop of Insert for the current [index]: the
    directory is doubled when the full bucket is at the global depth, a
    new bucket is stored at [indexSt1], the depth of the bucket at
    [indexSt0] is incremented and its entries are redistributed. *)
Definition split (t : ExtendibleHash) (index : Z) (insertBucket : Bucket)
    : option ExtendibleHash :=
  let t1 :=
    if localDepth insertBucket =? globalDepth t
    then mkEHT (maxBucketSize t) (globalDepth t + 1) (numBuckets t)
               (table t ++ table t) (heap t)
    else t in
  let indexSt0 := index in
  let indexSt1 := Z.lxor index (Z.shiftl 1 (localDepth insertBucket)) in
  let r1 := length (heap t1) in
  let t2 := mkEHT (maxBucketSize t1) (globalDepth t1) (numBuckets t1)
                  (<[Z.to_nat indexSt1 := r1]> (table t1))
                  (heap t1 ++ [new_Bucket 0 (maxBucketSize t1) 0]) in
  r0 ← table t2 !! Z.to_nat indexSt0;
  b0 ← heap t2 !! r0;
  let ld := localDepth b0 + 1 in
  let t3 := set_bucket t2 r0 (mkBucket (entries b0) ld (bucketMaxSize b0) (size b0)) in
  r1' ← table t3 !! Z.to_nat indexSt1;
  b1 ← heap t3 !! r1';
  let t4 := set_bucket t3 r1' (mkBucket (entries b1) ld (bucketMaxSize b1) (size b1)) in
  t5 ← redistribute indexSt0 ld r0 r1' (seq 0 (length (entries b0))) t4;
  Some (mkEHT (maxBucketSize t5) (globalDepth t5) (numBuckets t5 + 1) (table t5) (heap t5)).

(** The while loop of Insert; it runs for ever when the full bucket's
    keys and the new key never come apart, hence the bound on rounds. *)
Fixpoint split_loop (rounds : nat) (k : Z) (t : ExtendibleHash) (index : Z)
    : option (ExtendibleHash * Z) :=
  b ← bucket_at t index;
  if size b =? bucketMaxSize b then
    match rounds with
    | O => None
    | S n => t' ← split t index b; split_loop n k t' (HashKey t' k)
    end
  else Some (t, index).

Definition Insert (rounds : nat) (t : ExtendibleHash) (k : Z) (v : V)
    : option ExtendibleHash :=
  let index := HashKey t k in
  r ← table t !! Z.to_nat index;
  insertBucket ← heap t !! r;
  match update_entry k v (entries insertBucket) with
  | Some es =>
      Some (set_bucket t r (mkBucket es (localDepth insertBucket)
                              (bucketMaxSize insertBucket) (size insertBucket)))
  | None =>
      '(t', index') ← split_loop rounds k t index;
      r' ← table t' !! Z.to_nat index';
      b ← heap t' !! r';
      match fill_entry k v (entries b) with
      | Some es =>
          Some (set_bucket t' r' (mkBucket es (localDepth b) (bucketMaxSize b) (size b + 1)))
      | None => Some t'
      end
  end.

(** The keys of the occupied slots of a bucket. *)
Definition occupied_keys (b : Bucket) : list Z :=
  key <$> filter (λ e, flag e = HASVAL) (entries b).

(** A run of the table: a sequence of Insert and Remove calls. *)
Inductive op := OpInsert (k : Z) (v : V) | OpRemove (k : Z).

Fixpoint run (rounds : nat) (ops : list op) (t : ExtendibleHash) : option ExtendibleHash :=
  match ops with
  | [] => Some t
  | OpInsert k v :: ops' => t' ← Insert rounds t k v; run rounds ops' t'
  | OpRemove k :: ops' => run rounds ops' (Remove t k).2
  end.

(** The directory invariant: the bucket of every directory slot [i] is
    no deeper than the directory, and the hash of each of its keys agrees
    with [i] on the low [localDepth] bits. *)
Definition directory_invariant (t : ExtendibleHash) : Prop :=
  ∀ (i : nat) (b : Bucket),
    bucket_at t (Z.of_nat i) = Some b →
    localDepth b ≤ globalDepth t
    ∧ ∀ k, k ∈ occupied_keys b →
           Z.land (hash k) (Z.shiftl 1 (localDepth b) - 1)
           = Z.land (Z.of_nat i) (Z.shiftl 1 (localDepth b) - 1).
End Table.
End EHT.

(** ** buffer/buffer_pool_manager.cpp *)

Module BPM.
Section Pool.
(** [Data] is the content of a page (PAGE_SIZE bytes) and [zero] the
    content after [ResetMemory]; [hash] is [std::hash<page_id_t>{}] and
    [rounds] bounds the split loop of the page table's Insert. *)
Context {Data : Type}.
Variable zero : Data.
Variable hash : Z → Z.
Variable rounds : nat.

Definition INVALID_PAGE_ID : Z := -1.

(** A frame of the pool.  A [Page *] is the index of the frame in
    [pages_]; the null pointer is [None]. *)
Record Page := mkPage {
  data_ : Data;
  page_id_ : Z;
  pin_count_ : Z;
  is_dirty_ : bool
}.

(** Modelled from the spec: the disk collaborator (DiskManager) is not
    part of the sources; it reads and writes pages by page id, hands out
    fresh page ids in increasing order, and is told which ids are freed.
    [deallocated] is the list of ids passed to DeallocatePage, latest
    first. *)
Record DiskManager := mkDisk {
  contents : gmap Z Data;
  next_page_id : Z;
  deallocated : list Z
}.

Definition ReadPage (d : DiskManager) (page_id : Z) : Data :=
  default zero (contents d !! page_id).
Definition WritePage (d : DiskManager) (page_id : Z) (bytes : Data) : DiskManager :=
  mkDisk (<[page_id := bytes]> (contents d)) (next_page_id d) (deallocated d).
Definition AllocatePage (d : DiskManager) : Z * DiskManager :=
  (next_page_id d, mkDisk (contents d) (next_page_id d + 1) (deallocated d)).
Definition DeallocatePage (d : DiskManager) (page_id : Z) : DiskManager :=
  mkDisk (contents d) (next_page_id d) (page_id :: deallocated d).

Record BufferPoolManager := mkBPM {
  pool_size_ : nat;
  pages_ : list Page;
  page_table_ : @EHT.ExtendibleHash nat;
  replacer_ : LRU.LRUReplacer nat;
  free_list_ : list nat;
  disk_manager_ : DiskManager
}.

(** The constructor; [bucket_size] is the constant BUCKET_SIZE. *)
Definition init (pool_size : nat) (bucket_size : Z) (d : DiskManager) : BufferPoolManager :=
  mkBPM pool_size
        (replicate pool_size (mkPage zero INVALID_PAGE_ID 0 false))
        (EHT.init bucket_size)
        LRU.empty_replacer
        (seq 0 pool_size)
        d.

Definition set_pages (m : BufferPoolManager) (ps : list Page) : BufferPoolManager :=
  mkBPM (pool_size_ m) ps (page_table_ m) (replacer_ m) (free_list_ m) (disk_manager_ m).
Definition set_page_table (m : BufferPoolManager) (t : @EHT.ExtendibleHash nat) : BufferPoolManager :=
  mkBPM (pool_size_ m) (pages_ m) t (replacer_ m) (free_list_ m) (disk_manager_ m).
Definition set_replacer (m : BufferPoolManager) (r : LRU.LRUReplacer nat) : BufferPoolManager :=
  mkBPM (pool_size_ m) (pages_ m) (page_table_ m) r (free_list_ m) (disk_manager_ m).
Definition set_free_list (m : BufferPoolManager) (l : list nat) : BufferPoolManager :=
  mkBPM (pool_size_ m) (pages_ m) (page_table_ m) (replacer_ m) l (disk_manager_ m).
Definition set_disk (m : BufferPoolManager) (d : DiskManager) : BufferPoolManager :=
  mkBPM (pool_size_ m) (pages_ m) (page_table_ m) (replacer_ m) (free_list_ m) d.

(** [page_table_->Find(page_id, page)] with [page] null beforehand. *)
Definition lookup_frame (m : BufferPoolManager) (page_id : Z) : option nat :=
  EHT.Find hash (page_table_ m) page_id.

Definition GetFreePage (m : BufferPoolManager) : option nat * BufferPoolManager :=
  match free_list_ m with
  | [] =>
      if (LRU.Size (replacer_ m) =? 0)%nat then (None, m)
      else let '(v, r) := LRU.Victim (replacer_ m) in (v, set_replacer m r)
  | f :: fl => (Some f, set_free_list m fl)
  end.

Definition FlushPage (m : BufferPoolManager) (page_id : Z) : bool * BufferPoolManager :=
  match lookup_frame m page_id with
  | None => (false, m)
  | Some f =>
      match pages_ m !! f with
      | None => (false, m)
      | Some page =>
          if page_id_ page =? INVALID_PAGE_ID then (false, m)
          else
            let d := WritePage (disk_manager_ m) page_id (data_ page) in
            (true, set_pages (set_disk m d)
                     (<[f := mkPage (data_ page) (page_id_ page) (pin_count_ page) false]> (pages_ m)))
      end
  end.

(** The part FetchPage and NewPage share: the frame [f] taken from the
    free list or the replacer is written back if dirty and remapped. *)
Definition remap (m : BufferPoolManager) (f : nat) (page_id : Z) : option BufferPoolManager :=
  page ← pages_ m !! f;
  let m1 := if is_dirty_ page then (FlushPage m (page_id_ page)).2 else m in
  let t1 := (EHT.Remove hash (page_table_ m1) (page_id_ page)).2 in
  t2 ← EHT.Insert hash rounds t1 page_id f;
  Some (set_page_table m1 t2).

(** The outer [option] is [None] where the model gives up (see the
    conventions); the inner one is the returned pointer. *)
Definition FetchPage (m : BufferPoolManager) (page_id : Z)
    : option (option nat * BufferPoolManager) :=
  match lookup_frame m page_id with
  | Some f =>
      page ← pages_ m !! f;
      let page' := mkPage (data_ page) (page_id_ page) (pin_count_ page + 1) (is_dirty_ page) in
      let m1 := set_pages m (<[f := page']> (pages_ m)) in
      Some (Some f, set_replacer m1 (LRU.Erase f (replacer_ m1)).2)
  | None =>
      match GetFreePage m with
      | (None, m1) => Some (None, m1)
      | (Some f, m1) =>
          m2 ← remap m1 f page_id;
          let bytes := ReadPage (disk_manager_ m2) page_id in
          Some (Some f, set_pages m2 (<[f := mkPage bytes page_id 1 false]> (pages_ m2)))
      end
  end.

Definition UnpinPage (m : BufferPoolManager) (page_id : Z) (is_dirty : bool)
    : bool * BufferPoolManager :=
  match lookup_frame m page_id with
  | None => (false, m)
  | Some f =>
      match pages_ m !! f with
      | None => (false, m)
      | Some page =>
          let page1 := mkPage (data_ page) (page_id_ page) (pin_count_ page)
                              (is_dirty_ page || is_dirty) in
          let m1 := set_pages m (<[f := page1]> (pages_ m)) in
          if pin_count_ page1 <=? 0 then (false, m1)
          else
            let page2 := mkPage (data_ page1) (page_id_ page1) (pin_count_ page1 - 1)
                                (is_dirty_ page1) in
            let m2 := set_pages m1 (<[f := page2]> (pages_ m1)) in
            if pin_count_ page2 =? 0
            then (true, set_replacer m2 (LRU.Insert f (replacer_ m2)))
            else (true, m2)
      end
  end.

(** One round of the loop of FlushAllPages, for frame [i]. *)
Definition flush_frame (m : BufferPoolManager) (i : nat) : BufferPoolManager :=
  match pages_ m !! i with
  | Some page =>
      if (pin_count_ page =? 0) && is_dirty_ page then
        let d := WritePage (disk_manager_ m) (page_id_ page) (data_ page) in
        set_pages (set_disk m d)
          (<[i := mkPage (data_ page) (page_id_ page) (pin_count_ page) false]> (pages_ m))
      else m
  | None => m
  end.

(** The loop over the frames 0, ..., [pool_size_ - 1].  The counter of
    the loop is a [uint16_t]: this is the loop for pools of at most
    65535 frames; with more frames the counter wraps around before it
    reaches [pool_size_]. *)
Definition FlushAllPages (m : BufferPoolManager) : BufferPoolManager :=
  foldl flush_frame m (seq 0 (pool_size_ m)).

(** The page table only holds pointers to frames of the pool; for a
    pointer outside of it, which the code would follow, the model returns
    false and changes nothing. *)
Definition DeletePage (m : BufferPoolManager) (page_id : Z) : bool * BufferPoolManager :=
  match lookup_frame m page_id with
  | Some f =>
      match pages_ m !! f with
      | Some page =>
          if 0 <? pin_count_ page then (false, m)
          else
            let m1 := set_page_table m (EHT.Remove hash (page_table_ m) page_id).2 in
            let m2 := set_replacer m1 (LRU.Erase f (replacer_ m1)).2 in
            let m3 := set_pages m2
                        (<[f := mkPage zero INVALID_PAGE_ID (pin_count_ page) false]> (pages_ m2)) in
            let m4 := set_free_list m3 (free_list_ m3 ++ [f]) in
            (true, set_disk m4 (DeallocatePage (disk_manager_ m4) page_id))
      | None => (false, m)
      end
  | None => (true, set_disk m (DeallocatePage (disk_manager_ m) page_id))
  end.

Definition NewPage (m : BufferPoolManager) : option (option (nat * Z) * BufferPoolManager) :=
  match GetFreePage m with
  | (None, m1) => Some (None, m1)
  | (Some f, m1) =>
      let '(page_id, d) := AllocatePage (disk_manager_ m1) in
      m2 ← remap (set_disk m1 d) f page_id;
      Some (Some (f, page_id),
            set_pages m2 (<[f := mkPage zero page_id 1 false]> (pages_ m2)))
  end.
End Pool.
End BPM.

(** ** page/b_plus_tree_leaf_page.cpp, b_plus_tree_internal_page.cpp *)

Module BTreePage.
(** The constant of common/config.h, which is not part of the sources: an
    id below every id the disk manager hands out. *)
Definition INVALID_PAGE_ID : Z := -1.

Inductive IndexPageType := INVALID_INDEX_PAGE | LEAF_PAGE | INTERNAL_PAGE.
Inductive OpType := READ | INSERT | DELETE.

(** Keys are compared by the comparator as integers; a leaf value (a
    RID) and an internal value (a page id) are integers as well, the
    code reading one page layout through both page classes. *)
Definition MappingType : Type := Z * Z.

(** The header fields of BPlusTreePage, the leaf's [next_page_id_] and
    the slot array.  [array] lists the slots from index 0 up to the last
    one ever written; NewPage zeroes a page, so a slot beyond the list
    reads as zero.  Slots at [size_] and beyond keep what was last
    written there. *)
Record BPlusTreePage := mkPage {
  page_type_ : IndexPageType;
  size_ : Z;
  max_size_ : Z;
  parent_page_id_ : Z;
  page_id_ : Z;
  next_page_id_ : Z;
  array : list MappingType
}.

(** The page after [ResetMemory]. *)
Definition zero_page : BPlusTreePage := mkPage INVALID_INDEX_PAGE 0 0 0 0 0 [].

(** Modelled from the spec: page/b_plus_tree_page.cpp is not part of the
    sources; its accessors read and write the header fields, a page is
    the root when its parent id is INVALID_PAGE_ID (AdjustRoot "clears"
    the parent pointer of the new root to that value). *)
Definition IsLeafPage (p : BPlusTreePage) : bool :=
  match page_type_ p with LEAF_PAGE => true | _ => false end.
Definition IsRootPage (p : BPlusTreePage) : bool := parent_page_id_ p =? INVALID_PAGE_ID.
Definition GetSize (p : BPlusTreePage) : Z := size_ p.
Definition GetMaxSize (p : BPlusTreePage) : Z := max_size_ p.
Definition GetParentPageId (p : BPlusTreePage) : Z := parent_page_id_ p.
Definition GetPageId (p : BPlusTreePage) : Z := page_id_ p.
Definition GetNextPageId (p : BPlusTreePage) : Z := next_page_id_ p.

Definition SetPageType (t : IndexPageType) (p : BPlusTreePage) : BPlusTreePage :=
  mkPage t (size_ p) (max_size_ p) (parent_page_id_ p) (page_id_ p) (next_page_id_ p) (array p).
Definition SetSize (n : Z) (p : BPlusTreePage) : BPlusTreePage :=
  mkPage (page_type_ p) n (max_size_ p) (parent_page_id_ p) (page_id_ p) (next_page_id_ p) (array p).
Definition IncreaseSize (n : Z) (p : BPlusTreePage) : BPlusTreePage :=
  SetSize (size_ p + n) p.
Definition SetMaxSize (n : Z) (p : BPlusTreePage) : BPlusTreePage :=
  mkPage (page_type_ p) (size_ p) n (parent_page_id_ p) (page_id_ p) (next_page_id_ p) (array p).
Definition SetParentPageId (id : Z) (p : BPlusTreePage) : BPlusTreePage :=
  mkPage (page_type_ p) (size_ p) (max_size_ p) id (page_id_ p) (next_page_id_ p) (array p).
Definition SetPageId (id : Z) (p : BPlusTreePage) : BPlusTreePage :=
  mkPage (page_type_ p) (size_ p) (max_size_ p) (parent_page_id_ p) id (next_page_id_ p) (array p).
Definition SetNextPageId (id : Z) (p : BPlusTreePage) : BPlusTreePage :=
  mkPage (page_type_ p) (size_ p) (max_size_ p) (parent_page_id_ p) (page_id_ p) id (array p).
Definition set_array (a : list MappingType) (p : BPlusTreePage) : BPlusTreePage :=
  mkPage (page_type_ p) (size_ p) (max_size_ p) (parent_page_id_ p) (page_id_ p) (next_page_id_ p) a.

(** *** Slot access *)

(** [a[i]].  The code never uses an index below 0 on a well-formed
    tree; the model reads zero there and writes nothing. *)
Definition slot (a : list MappingType) (i : Z) : MappingType :=
  if i <? 0 then (0, 0) else nth (Z.to_nat i) a (0, 0).

(** [a[i] = x] *)
Definition set_slot (a : list MappingType) (i : Z) (x : MappingType) : list MappingType :=
  if i <? 0 then a
  else
    let n := Z.to_nat i in
    if (n <? length a)%nat then <[n := x]> a
    else a ++ replicate (n - length a) (0, 0) ++ [x].

Definition KeyAt (p : BPlusTreePage) (index : Z) : Z := (slot (array p) index).1.
Definition ValueAt (p : BPlusTreePage) (index : Z) : Z := (slot (array p) index).2.
Definition GetItem (p : BPlusTreePage) (index : Z) : MappingType := slot (array p) index.
Definition SetKeyAt (index : Z) (k : Z) (p : BPlusTreePage) : BPlusTreePage :=
  set_array (set_slot (array p) index (k, (slot (array p) index).2)) p.
Definition SetValueAt (index : Z) (v : Z) (p : BPlusTreePage) : BPlusTreePage :=
  set_array (set_slot (array p) index ((slot (array p) index).1, v)) p.

(** The valid slots [0, size). *)
Definition items (p : BPlusTreePage) : list MappingType :=
  (λ i, slot (array p) (Z.of_nat i)) <$> seq 0 (Z.to_nat (size_ p)).
Definition keys (p : BPlusTreePage) : list Z := fst <$> items p.

(** [for (i = hi; i > lo; --i) a[i] = a[i - 1]], with [n] rounds left. *)
Fixpoint shift_up (n : nat) (i : Z) (a : list MappingType) : list MappingType :=
  match n with
  | O => a
  | S n' => shift_up n' (i - 1) (set_slot a i (slot a (i - 1)))
  end.

(** [for (i = lo; i < hi; ++i) a[i - 1] = a[i]], with [n] rounds left. *)
Fixpoint shift_down (n : nat) (i : Z) (a : list MappingType) : list MappingType :=
  match n with
  | O => a
  | S n' => shift_down n' (i + 1) (set_slot a (i - 1) (slot a i))
  end.

(** [memmove(a + dst, a + src, n * sizeof(MappingType))]: the [n] source
    slots are read before any slot is written. *)
Definition memmove (a : list MappingType) (dst src : Z) (n : Z) : list MappingType :=
  foldl (λ acc (i : nat), set_slot acc (dst + Z.of_nat i) (slot a (src + Z.of_nat i)))
        a (seq 0 (Z.to_nat n)).

(** [for (i = 0; i < size; ++i) a[off + i] = items[i]], with [n] rounds
    left; [items] is a pointer into another page's array. *)
Fixpoint copy_items (n : nat) (i : Z) (off : Z) (src : Z → MappingType)
    (a : list MappingType) : list MappingType :=
  match n with
  | O => a
  | S n' => copy_items n' (i + 1) off src (set_slot a (off + i) (src i))
  end.

(** *** Leaf page *)

(** [Init] of a leaf; [leaf_max] is
    [(PAGE_SIZE - sizeof(BPlusTreeLeafPage)) / sizeof(MappingType) - 1]. *)
Definition Leaf_Init (leaf_max : Z) (page_id parent_id : Z) (p : BPlusTreePage) : BPlusTreePage :=
  SetMaxSize leaf_max
    (SetNextPageId INVALID_PAGE_ID
      (SetParentPageId parent_id
        (SetPageId page_id (SetSize 0 (SetPageType LEAF_PAGE p))))).

(** The binary search of KeyIndex; the interval [le, ri] shrinks in
    every round, so [ri - le + 1] rounds are enough. *)
Fixpoint KeyIndex_loop (n : nat) (p : BPlusTreePage) (key le ri : Z) : Z :=
  match n with
  | O => ri + 1
  | S n' =>
      if le <=? ri then
        let mid := Z.quot (ri - le) 2 + le in
        if KeyAt p mid <? key then KeyIndex_loop n' p key (mid + 1) ri
        else KeyIndex_loop n' p key le (mid - 1)
      else ri + 1
  end.

Definition KeyIndex (p : BPlusTreePage) (key : Z) : Z :=
  KeyIndex_loop (Z.to_nat (GetSize p)) p key 0 (GetSize p - 1).

Definition Leaf_Insert (key value : Z) (p : BPlusTreePage) : BPlusTreePage :=
  let idx := KeyIndex p key in
  let p1 := IncreaseSize 1 p in
  let a1 := shift_up (Z.to_nat (GetSize p1 - 1 - idx)) (GetSize p1 - 1) (array p1) in
  set_array (set_slot a1 idx (key, value)) p1.

(** [Some value] when Lookup returns true. *)
Definition Leaf_Lookup (p : BPlusTreePage) (key : Z) : option Z :=
  let idx := KeyIndex p key in
  if (idx <? GetSize p) && (KeyAt p idx =? key) then Some (ValueAt p idx) else None.

Definition RemoveAndDeleteRecord (key : Z) (p : BPlusTreePage) : BPlusTreePage :=
  let idx_gt_key := KeyIndex p key in
  if (GetSize p <=? idx_gt_key) || negb (key =? KeyAt p idx_gt_key) then p
  else
    IncreaseSize (-1)
      (set_array (memmove (array p) idx_gt_key (idx_gt_key + 1) (GetSize p - idx_gt_key - 1)) p).

Definition Leaf_CopyHalfFrom (src : Z → MappingType) (size : Z) (p : BPlusTreePage) : BPlusTreePage :=
  let cur_sz := GetSize p in
  SetSize size (set_array (copy_items (Z.to_nat size) 0 cur_sz src (array p)) p).

Definition Leaf_CopyAllFrom (src : Z → MappingType) (size : Z) (p : BPlusTreePage) : BPlusTreePage :=
  let cur_sz := GetSize p in
  IncreaseSize size (set_array (copy_items (Z.to_nat size) 0 cur_sz src (array p)) p).

Definition Leaf_CopyLastFrom (item : MappingType) (p : BPlusTreePage) : BPlusTreePage :=
  IncreaseSize 1 (set_array (set_slot (array p) (GetSize p) item) p).

(** *** Internal page *)

Definition Internal_Init (internal_max : Z) (page_id parent_id : Z) (p : BPlusTreePage)
    : BPlusTreePage :=
  SetMaxSize internal_max
    (SetParentPageId parent_id
      (SetPageId page_id (SetSize 0 (SetPageType INTERNAL_PAGE p)))).

(** The loop of ValueIndex, at index [i] with [n] rounds left. *)
Fixpoint ValueIndex_loop (n : nat) (i : Z) (p : BPlusTreePage) (value : Z) : Z :=
  match n with
  | O => -1
  | S n' => if ValueAt p i =? value then i else ValueIndex_loop n' (i + 1) p value
  end.

Definition ValueIndex (p : BPlusTreePage) (value : Z) : Z :=
  ValueIndex_loop (Z.to_nat (GetSize p)) 0 p value.

Fixpoint Internal_Lookup_loop (n : nat) (p : BPlusTreePage) (key le ri : Z) : Z :=
  match n with
  | O => le
  | S n' =>
      if le <=? ri then
        let mid := Z.quot (ri - le) 2 + le in
        if KeyAt p mid <=? key then Internal_Lookup_loop n' p key (mid + 1) ri
        else Internal_Lookup_loop n' p key le (mid - 1)
      else le
  end.

Definition Internal_Lookup (p : BPlusTreePage) (key : Z) : Z :=
  let le := Internal_Lookup_loop (Z.to_nat (GetSize p)) p key 1 (GetSize p - 1) in
  ValueAt p (le - 1).

Definition PopulateNewRoot (old_value new_key new_value : Z) (p : BPlusTreePage) : BPlusTreePage :=
  SetSize 2 (SetValueAt 1 new_value (SetKeyAt 1 new_key (SetValueAt 0 old_value p))).

Definition InsertNodeAfter (old_value new_key new_value : Z) (p : BPlusTreePage) : BPlusTreePage :=
  let idx := ValueIndex p old_value + 1 in
  let p1 := IncreaseSize 1 p in
  let a1 := shift_up (Z.to_nat (GetSize p1 - 1 - idx)) (GetSize p1 - 1) (array p1) in
  set_array (set_slot a1 idx (new_key, new_value)) p1.

Definition Internal_Remove (index : Z) (p : BPlusTreePage) : BPlusTreePage :=
  IncreaseSize (-1)
    (set_array (shift_down (Z.to_nat (GetSize p - (index + 1))) (index + 1) (array p)) p).

Definition Internal_CopyLastFrom (pair : MappingType) (p : BPlusTreePage) : BPlusTreePage :=
  IncreaseSize 1 (set_array (set_slot (array p) (GetSize p) pair) p).
End BTreePage.

(** ** index/b_plus_tree.h, b_plus_tree.cpp, index_iterator.cpp *)

Module BTree.
Import BTreePage.

Definition HEADER_PAGE_ID : Z := 0.

(** Modelled from the spec: concurrency/transaction.h is not part of the
    sources; the tree uses the transaction's page set (the pages it has
    latched, in order) and its deleted-page set. *)
Record Transaction := mkTxn {
  page_set : list Z;
  deleted_page_set : gset Z
}.

(** The tree object together with the collaborators it reaches through
    its pointers.  [pages] is what FetchPage of a page id shows: the
    run is single-threaded and the pool is taken large enough for every
    fetch, so a page pointer is its page id.  Pin counts and latches
    are not part of the state.  That covers the operations that release
    every latch they take: those run with a transaction, whose page set
    lists the latched pages, and the lookups without one; where an
    operation returns with a page still latched the model gives up (see
    RemovePagesInTransaction).  [next_page_id] is the disk manager's
    allocation counter, [header_record] the root id recorded for this
    index in the header page, and [deleted_pages] the ids handed to
    BufferPoolManager::DeletePage, oldest first. *)
Record Tree := mkTree {
  root_page_id_ : Z;
  pages : gmap Z BPlusTreePage;
  next_page_id : Z;
  header_record : option Z;
  deleted_pages : list Z;
  txn : Transaction
}.

(** The template argument [N] of Split, CoalesceOrRedistribute,
    FindSibling, Coalesce and Redistribute. *)
Inductive NodeClass := LeafPage | InternalPage.

(** *** State and failure *)

Definition M (A : Type) : Type := Tree → option (A * Tree).
Definition ret {A} (a : A) : M A := λ s, Some (a, s).
Definition bind {A B} (m : M A) (k : A → M B) : M B :=
  λ s, match m s with Some (a, s') => k a s' | None => None end.
Definition fail {A} : M A := λ _, None.

Notation "x <- m ;; k" := (bind m (λ x, k))
  (at level 100, m at next level, right associativity).
Notation "m ;;; k" := (bind m (λ _, k))
  (at level 100, right associativity).

(** [buffer_pool_manager_->FetchPage(id)->GetData()] read as a tree
    page; an id that was never allocated has no page to show. *)
Definition FetchPage (id : Z) : M BPlusTreePage :=
  λ s, match pages s !! id with Some p => Some (p, s) | None => None end.

(** A write through the page pointer [id]. *)
Definition modify (id : Z) (f : BPlusTreePage → BPlusTreePage) : M unit :=
  λ s, match pages s !! id with
       | Some p => Some (tt, mkTree (root_page_id_ s) (<[id := f p]> (pages s))
                                    (next_page_id s) (header_record s)
                                    (deleted_pages s) (txn s))
       | None => None
       end.

(** [buffer_pool_manager_->NewPage(page_id)]: a fresh id and a zeroed
    page. *)
Definition NewPage : M Z :=
  λ s, let id := next_page_id s in
       Some (id, mkTree (root_page_id_ s) (<[id := zero_page]> (pages s))
                        (id + 1) (header_record s) (deleted_pages s) (txn s)).

Definition get_root : M Z := λ s, Some (root_page_id_ s, s).
Definition set_root (id : Z) : M unit :=
  λ s, Some (tt, mkTree id (pages s) (next_page_id s) (header_record s)
                        (deleted_pages s) (txn s)).
Definition set_txn (t : Transaction) : M unit :=
  λ s, Some (tt, mkTree (root_page_id_ s) (pages s) (next_page_id s) (header_record s)
                        (deleted_pages s) t).
Definition get_txn : M Transaction := λ s, Some (txn s, s).

Definition AddIntoPageSet (id : Z) : M unit :=
  t <- get_txn;; set_txn (mkTxn (page_set t ++ [id]) (deleted_page_set t)).
Definition AddIntoDeletedPageSet (id : Z) : M unit :=
  t <- get_txn;; set_txn (mkTxn (page_set t) ({[id]} ∪ deleted_page_set t)).

(** [buffer_pool_manager_->DeletePage(id)] *)
Definition DeletePage (id : Z) : M unit :=
  λ s, Some (tt, mkTree (root_page_id_ s) (pages s) (next_page_id s) (header_record s)
                        (deleted_pages s ++ [id]) (txn s)).

(** Modelled from the spec: page/header_page is not part of the sources;
    InsertRecord adds the record of the index if it has none, UpdateRecord
    changes the record it has. *)
Definition UpdateRootPageId (insert_record : bool) : M unit :=
  λ s, let h := match header_record s, insert_record with
                | None, true => Some (root_page_id_ s)
                | Some _, false => Some (root_page_id_ s)
                | h, _ => h
                end in
       Some (tt, mkTree (root_page_id_ s) (pages s) (next_page_id s) h
                        (deleted_pages s) (txn s)).

Definition IsEmpty (s : Tree) : bool := root_page_id_ s =? INVALID_PAGE_ID.

Section Tree.
(** The values Init computes from PAGE_SIZE and the slot width. *)
Variable leaf_max_size : Z.
Variable internal_max_size : Z.
(** BPlusTreePage::GetMinSize and BPlusTreePage::IsSafe are not part of
    the sources; the model and its theorems take them as they are. *)
Variable GetMinSize : BPlusTreePage → Z.
Variable IsSafe : OpType → BPlusTreePage → bool.

(** One round of the loop of RemovePagesInTransaction. *)
Definition release_page (id : Z) : M unit :=
  t <- get_txn;;
  if decide (id ∈ deleted_page_set t) then
    DeletePage id;;;
    set_txn (mkTxn (page_set t) (deleted_page_set t ∖ {[id]}))
  else ret tt.

Fixpoint release_pages (ids : list Z) : M unit :=
  match ids with
  | [] => ret tt
  | id :: ids' => release_page id;;; release_pages ids'
  end.

(** [transaction] tells whether the pointer passed is not null.  With a
    transaction every page of its page set is unlatched and unpinned,
    and [cur_id] is not used.  With a null pointer the page [cur_id]
    alone is unlatched and unpinned, which changes nothing of this
    state and is what the caller needs when [cur_id] is the page it has
    latched: GetValue passes its leaf, ConcurrentFetchPage the page
    before.  InsertIntoLeaf and Remove leave [cur_id] at its default,
    INVALID_PAGE_ID: the code then unlatches and unpins page -1, and
    the leaf of the caller stays write-latched and pinned, so that the
    next operation that reaches it does not return.  This state has no
    latches to show it, and the model gives up. *)
Definition RemovePagesInTransaction (transaction : bool) (cur_id : Z) : M unit :=
  if transaction then
    t <- get_txn;;
    release_pages (page_set t);;;
    t' <- get_txn;;
    set_txn (mkTxn [] (deleted_page_set t'))
  else if cur_id =? INVALID_PAGE_ID then fail
  else ret tt.

Definition is_READ (op : OpType) : bool :=
  match op with READ => true | _ => false end.

Definition ConcurrentFetchPage (page_id : Z) (op : OpType) (previous_id : Z)
    (transaction : bool) : M BPlusTreePage :=
  tree_page <- FetchPage page_id;;
  (if (0 <? previous_id) && (is_READ op || IsSafe op tree_page)
   then RemovePagesInTransaction transaction previous_id else ret tt);;;
  (if transaction then AddIntoPageSet page_id else ret tt);;;
  ret tree_page.

(** The while loop of FindLeafPage; [depth] bounds the number of levels
    descended.  The result is the pointer to the leaf. *)
Fixpoint FindLeafPage_loop (depth : nat) (key : Z) (leftMost : bool) (op : OpType)
    (transaction : bool) (tree_page : BPlusTreePage) (ptr_id : Z) : M Z :=
  if IsLeafPage tree_page then ret ptr_id
  else match depth with
       | O => fail
       | S d =>
           let next_id := if leftMost then ValueAt tree_page 0
                          else Internal_Lookup tree_page key in
           child <- ConcurrentFetchPage next_id op ptr_id transaction;;
           FindLeafPage_loop d key leftMost op transaction child next_id
       end.

(** [None] is the null pointer returned for an empty tree. *)
Definition FindLeafPage (depth : nat) (key : Z) (leftMost : bool) (op : OpType)
    (transaction : bool) : M (option Z) :=
  root <- get_root;;
  if root =? INVALID_PAGE_ID then ret None
  else
    tree_page <- ConcurrentFetchPage root op INVALID_PAGE_ID transaction;;
    leaf <- FindLeafPage_loop depth key leftMost op transaction tree_page root;;
    ret (Some leaf).

(** [Some v] when GetValue returns true with [v] in [result]. *)
Definition GetValue (depth : nat) (key : Z) (transaction : bool) : M (option Z) :=
  res_page <- FindLeafPage depth key false READ transaction;;
  match res_page with
  | None => ret None
  | Some leaf =>
      p <- FetchPage leaf;;
      RemovePagesInTransaction transaction (GetPageId p);;;
      ret (Leaf_Lookup p key)
  end.

Definition StartNewTree (key value : Z) : M unit :=
  new_page_id <- NewPage;;
  modify new_page_id (Leaf_Init leaf_max_size new_page_id INVALID_PAGE_ID);;;
  set_root new_page_id;;;
  UpdateRootPageId true;;;
  modify new_page_id (Leaf_Insert key value).

(** Leaf MoveHalfTo, from the page at [this] to [recipient]. *)
Definition Leaf_MoveHalfTo (this recipient : Z) : M unit :=
  p <- FetchPage this;;
  let total := GetMaxSize p + 1 in
  let copy_idx := Z.quot total 2 in
  modify recipient
    (Leaf_CopyHalfFrom (λ i, slot (array p) (copy_idx + i)) (total - copy_idx));;;
  modify recipient (SetNextPageId (GetNextPageId p));;;
  r <- FetchPage recipient;;
  modify this (SetNextPageId (GetPageId r));;;
  modify this (SetSize copy_idx).

(** The loop shared by the internal CopyHalfFrom and CopyAllFrom, with
    [n] rounds left: [items] points at slot [first] of the page [from];
    slot [off + i] of [this] receives [items[i]], and the child it names
    is given [this] page as its parent. *)
Fixpoint Internal_copy_loop (n : nat) (i : Z) (off : Z) (from first : Z)
    (this : Z) : M unit :=
  match n with
  | O => ret tt
  | S n' =>
      src <- FetchPage from;;
      let item := slot (array src) (first + i) in
      modify this (λ p, set_array (set_slot (array p) (off + i) item) p);;;
      p <- FetchPage this;;
      modify item.2 (SetParentPageId (GetPageId p));;;
      Internal_copy_loop n' (i + 1) off from first this
  end.

Definition Internal_MoveHalfTo (this recipient : Z) : M unit :=
  p <- FetchPage this;;
  let total := GetMaxSize p + 1 in
  let copy_idx := Z.quot total 2 in
  Internal_copy_loop (Z.to_nat (total - copy_idx)) 0 0 this copy_idx recipient;;;
  modify recipient (SetSize (total - copy_idx));;;
  modify this (SetSize copy_idx).

(** The two pages a leaf split makes of the overfull page [p]: what is
    left of [p], and the page of the new id [new_id]. *)
Definition split_index (p : BPlusTreePage) : Z := Z.quot (GetMaxSize p + 1) 2.

Definition left_of_split (p : BPlusTreePage) (new_id : Z) : BPlusTreePage :=
  SetSize (split_index p) (SetNextPageId new_id p).

Definition right_of_split (p : BPlusTreePage) (new_id : Z) : BPlusTreePage :=
  SetNextPageId (GetNextPageId p)
    (Leaf_CopyHalfFrom (λ i, slot (array p) (split_index p + i))
       (GetMaxSize p + 1 - split_index p)
       (Leaf_Init leaf_max_size new_id (GetParentPageId p) zero_page)).

(** Split<N>: the result is the pointer to the new page. *)
Definition Split (N : NodeClass) (node : Z) (transaction : bool) : M Z :=
  new_page_id <- NewPage;;
  (if transaction then AddIntoPageSet new_page_id else fail);;;
  p <- FetchPage node;;
  match N with
  | LeafPage =>
      modify new_page_id (Leaf_Init leaf_max_size new_page_id (GetParentPageId p));;;
      Leaf_MoveHalfTo node new_page_id
  | InternalPage =>
      modify new_page_id (Internal_Init internal_max_size new_page_id (GetParentPageId p));;;
      Internal_MoveHalfTo node new_page_id
  end;;;
  ret new_page_id.

(** InsertIntoParent; [height] bounds the number of levels the split
    climbs. *)
Fixpoint InsertIntoParent (height : nat) (old_node : Z) (key : Z) (new_node : Z)
    (transaction : bool) : M unit :=
  old <- FetchPage old_node;;
  if IsRootPage old then
    id <- NewPage;;
    set_root id;;;
    modify id (Internal_Init internal_max_size id INVALID_PAGE_ID);;;
    new <- FetchPage new_node;;
    modify id (PopulateNewRoot (GetPageId old) key (GetPageId new));;;
    modify old_node (SetParentPageId id);;;
    modify new_node (SetParentPageId id);;;
    UpdateRootPageId false
  else
    let parent_id := GetParentPageId old in
    FetchPage parent_id;;;
    modify new_node (SetParentPageId parent_id);;;
    new <- FetchPage new_node;;
    modify parent_id (InsertNodeAfter (GetPageId old) key (GetPageId new));;;
    parent <- FetchPage parent_id;;
    if GetMaxSize parent <? GetSize parent then
      match height with
      | O => fail
      | S h =>
          split_page <- Split InternalPage parent_id transaction;;
          sp <- FetchPage split_page;;
          InsertIntoParent h parent_id (KeyAt sp 0) split_page transaction
      end
    else ret tt.

(** The result is the returned flag. *)
Definition InsertIntoLeaf (depth : nat) (key value : Z) (transaction : bool) : M bool :=
  found <- FindLeafPage depth key false INSERT transaction;;
  match found with
  | None => fail
  | Some insert_page =>
      p <- FetchPage insert_page;;
      match Leaf_Lookup p key with
      | Some _ => RemovePagesInTransaction transaction INVALID_PAGE_ID;;; ret false
      | None =>
          modify insert_page (Leaf_Insert key value);;;
          p' <- FetchPage insert_page;;
          (if GetMaxSize p' <? GetSize p' then
             split_page <- Split LeafPage insert_page transaction;;
             sp <- FetchPage split_page;;
             InsertIntoParent depth insert_page (KeyAt sp 0) split_page transaction
           else ret tt);;;
          RemovePagesInTransaction transaction INVALID_PAGE_ID;;;
          ret true
      end
  end.

Definition Insert (depth : nat) (key value : Z) (transaction : bool) : M bool :=
  root <- get_root;;
  if root =? INVALID_PAGE_ID then StartNewTree key value;;; ret true
  else InsertIntoLeaf depth key value transaction.

(** *** Remove *)

Definition AdjustRoot (old_root_node : Z) : M bool :=
  p <- FetchPage old_root_node;;
  if IsLeafPage p then
    set_root INVALID_PAGE_ID;;; UpdateRootPageId false;;; ret true
  else if GetSize p =? 1 then
    modify old_root_node (IncreaseSize (-1));;;
    p' <- FetchPage old_root_node;;
    let new_root_id := ValueAt p' 0 in
    set_root new_root_id;;;
    UpdateRootPageId false;;;
    modify new_root_id (SetParentPageId INVALID_PAGE_ID);;;
    ret true
  else ret false.

(** The result is the pointer to the sibling and the returned flag. *)
Definition FindSibling (node : Z) (transaction : bool) : M (Z * bool) :=
  p <- FetchPage node;;
  parent <- FetchPage (GetParentPageId p);;
  let idx := ValueIndex parent (GetPageId p) in
  let sibling_idx := if 0 <? idx then idx - 1 else idx + 1 in
  let sibling_page_id := ValueAt parent sibling_idx in
  ConcurrentFetchPage sibling_page_id DELETE INVALID_PAGE_ID transaction;;;
  ret (sibling_page_id, idx =? 0).

Definition Leaf_MoveAllTo (this recipient : Z) : M unit :=
  p <- FetchPage this;;
  modify recipient (Leaf_CopyAllFrom (slot (array p)) (GetSize p));;;
  modify recipient (SetNextPageId (GetNextPageId p));;;
  modify this (SetSize 0).

Definition Internal_MoveAllTo (this recipient : Z) (index_in_parent : Z) : M unit :=
  p <- FetchPage this;;
  parent <- FetchPage (GetParentPageId p);;
  modify this (SetKeyAt 0 (KeyAt parent index_in_parent));;;
  p1 <- FetchPage this;;
  r <- FetchPage recipient;;
  Internal_copy_loop (Z.to_nat (GetSize p1)) 0 (GetSize r) this 0 recipient;;;
  modify recipient (IncreaseSize (GetSize p1));;;
  modify this (SetSize 0).

Definition Leaf_MoveFirstToEndOf (this recipient : Z) : M unit :=
  p <- FetchPage this;;
  let first_pair := GetItem p 0 in
  modify this (IncreaseSize (-1));;;
  modify this (λ q, set_array (memmove (array q) 0 1 (GetSize q)) q);;;
  modify recipient (Leaf_CopyLastFrom first_pair);;;
  q <- FetchPage this;;
  parent <- FetchPage (GetParentPageId q);;
  modify (GetParentPageId q) (SetKeyAt (ValueIndex parent (GetPageId q)) (KeyAt q 0)).

Definition Leaf_CopyFirstFrom (this : Z) (item : MappingType) (parent_index : Z) : M unit :=
  modify this (λ q, set_array (memmove (array q) 1 0 (GetSize q)) q);;;
  modify this (IncreaseSize 1);;;
  modify this (λ q, set_array (set_slot (array q) 0 item) q);;;
  q <- FetchPage this;;
  FetchPage (GetParentPageId q);;;
  modify (GetParentPageId q) (SetKeyAt parent_index (KeyAt q 0)).

Definition Leaf_MoveLastToFrontOf (this recipient : Z) (parent_index : Z) : M unit :=
  p <- FetchPage this;;
  let last_pair := GetItem p (GetSize p - 1) in
  modify this (IncreaseSize (-1));;;
  Leaf_CopyFirstFrom recipient last_pair parent_index.

Definition Internal_MoveFirstToEndOf (this recipient : Z) : M unit :=
  p <- FetchPage this;;
  let first_pair := (KeyAt p 0, ValueAt p 0) in
  modify this (IncreaseSize (-1));;;
  modify this (λ q, set_array (memmove (array q) 0 1 (GetSize q)) q);;;
  modify recipient (Internal_CopyLastFrom first_pair);;;
  r <- FetchPage recipient;;
  modify first_pair.2 (SetParentPageId (GetPageId r));;;
  q <- FetchPage this;;
  parent <- FetchPage (GetParentPageId q);;
  modify (GetParentPageId q) (SetKeyAt (ValueIndex parent (GetPageId q)) (KeyAt q 0)).

Definition Internal_CopyFirstFrom (this : Z) (pair : MappingType) (parent_index : Z) : M unit :=
  modify this (λ q, set_array (memmove (array q) 1 0 (GetSize q)) q);;;
  modify this (IncreaseSize 1);;;
  modify this (λ q, set_array (set_slot (array q) 0 pair) q);;;
  q <- FetchPage this;;
  modify pair.2 (SetParentPageId (GetPageId q));;;
  q' <- FetchPage this;;
  FetchPage (GetParentPageId q');;;
  modify (GetParentPageId q') (SetKeyAt parent_index (KeyAt q' 0)).

Definition Internal_MoveLastToFrontOf (this recipient : Z) (parent_index : Z) : M unit :=
  p <- FetchPage this;;
  let last_pair := (KeyAt p (GetSize p - 1), ValueAt p (GetSize p - 1)) in
  modify this (IncreaseSize (-1));;;
  Internal_CopyFirstFrom recipient last_pair parent_index.

Definition Redistribute (N : NodeClass) (neighbor_node node : Z) (index : Z) : M unit :=
  match N, index =? 0 with
  | LeafPage, true => Leaf_MoveFirstToEndOf neighbor_node node
  | LeafPage, false => Leaf_MoveLastToFrontOf neighbor_node node index
  | InternalPage, true => Internal_MoveFirstToEndOf neighbor_node node
  | InternalPage, false => Internal_MoveLastToFrontOf neighbor_node node index
  end.

(** Coalesce<N>, with [recurse] for its call of
    CoalesceOrRedistribute on the parent. *)
Definition Coalesce_with (recurse : Z → M bool) (N : NodeClass)
    (neighbor_node node parent : Z) (index : Z) (transaction : bool) : M bool :=
  match N with
  | LeafPage => Leaf_MoveAllTo node neighbor_node
  | InternalPage => Internal_MoveAllTo node neighbor_node index
  end;;;
  p <- FetchPage node;;
  (if transaction then AddIntoDeletedPageSet (GetPageId p) else fail);;;
  modify parent (Internal_Remove index);;;
  pp <- FetchPage parent;;
  if GetSize pp <=? GetMinSize pp then recurse parent else ret false.

(** CoalesceOrRedistribute<N>; [height] bounds the number of levels the
    merge climbs. *)
Fixpoint CoalesceOrRedistribute (height : nat) (N : NodeClass) (node : Z)
    (transaction : bool) : M bool :=
  p <- FetchPage node;;
  if IsRootPage p then
    delete_root <- AdjustRoot node;;
    (if delete_root
     then (if transaction then AddIntoDeletedPageSet (GetPageId p) else fail)
     else ret tt);;;
    ret delete_root
  else
    found <- FindSibling node transaction;;
    let '(sibling, node_left) := found in
    p1 <- FetchPage node;;
    let parent := GetParentPageId p1 in
    parent_tree_page <- FetchPage parent;;
    sp <- FetchPage sibling;;
    if GetMaxSize p1 <? GetSize p1 + GetSize sp then
      let node_idx := ValueIndex parent_tree_page (GetPageId p1) in
      Redistribute N sibling node node_idx;;;
      ret false
    else
      let '(node', sibling') := if node_left : bool then (sibling, node) else (node, sibling) in
      pn <- FetchPage node';;
      let remove_idx := ValueIndex parent_tree_page (GetPageId pn) in
      match height with
      | O => fail
      | S h =>
          Coalesce_with (λ par, CoalesceOrRedistribute h InternalPage par transaction)
            N sibling' node' parent remove_idx transaction;;;
          ret true
      end.

Definition Remove (depth : nat) (key : Z) (transaction : bool) : M unit :=
  root <- get_root;;
  if root =? INVALID_PAGE_ID then ret tt
  else
    found <- FindLeafPage depth key false DELETE transaction;;
    match found with
    | None => fail
    | Some delete_page =>
        modify delete_page (RemoveAndDeleteRecord key);;;
        p <- FetchPage delete_page;;
        let after_sz := GetSize p in
        (if after_sz <? GetMinSize p
         then CoalesceOrRedistribute depth LeafPage delete_page transaction;;; ret tt
         else ret tt);;;
        RemovePagesInTransaction transaction INVALID_PAGE_ID
    end.

(** *** Index iterator *)

(** [leaf_] is the pointer to the current leaf, [None] when null. *)
Record IndexIterator := mkIter { index_ : Z; leaf_ : option Z }.

(** [Begin()]: the descent is made without a transaction. *)
Definition Begin (depth : nat) : M IndexIterator :=
  start_leaf <- FindLeafPage depth 0 true READ false;;
  ret (mkIter 0 start_leaf).

Definition Begin_at (depth : nat) (key : Z) : M IndexIterator :=
  start_leaf <- FindLeafPage depth key false READ false;;
  match start_leaf with
  | None => ret (mkIter 0 None)
  | Some leaf => p <- FetchPage leaf;; ret (mkIter (KeyIndex p key) (Some leaf))
  end.

Definition isEnd (it : IndexIterator) : bool :=
  match leaf_ it with None => true | Some _ => false end.

(** The dereference operator. *)
Definition deref (it : IndexIterator) : M MappingType :=
  match leaf_ it with
  | None => fail
  | Some leaf => p <- FetchPage leaf;; ret (GetItem p (index_ it))
  end.

(** The increment operator. *)
Definition next (it : IndexIterator) : M IndexIterator :=
  match leaf_ it with
  | None => fail
  | Some leaf =>
      p <- FetchPage leaf;;
      let index := index_ it + 1 in
      if GetSize p <=? index then
        let next_id := GetNextPageId p in
        if next_id =? INVALID_PAGE_ID then ret (mkIter index None)
        else FetchPage next_id;;; ret (mkIter 0 (Some next_id))
      else ret (mkIter index (Some leaf))
  end.

(** The loop [for (it = Begin(); !it.isEnd(); ++it)] that reads the
    pair under the iterator in each round, with at most [n] rounds: the
    pairs read. *)
Fixpoint visit (n : nat) (it : IndexIterator) : M (list MappingType) :=
  if isEnd it then ret []
  else match n with
       | O => fail
       | S n' =>
           x <- deref it;;
           it' <- next it;;
           xs <- visit n' it';;
           ret (x :: xs)
       end.

(** The keys of the leaf chain read from the leftmost leaf. *)
Definition leaf_chain (depth n : nat) : M (list Z) :=
  it <- Begin depth;;
  xs <- visit n it;;
  ret (fst <$> xs).
End Tree.

(** *** Relations between states *)

(** [s'] has the tree of [s]: the same root id, the same pages, the same
    allocation counter and the same header record. *)
Definition same_tree (s s' : Tree) : Prop :=
  root_page_id_ s' = root_page_id_ s
  ∧ pages s' = pages s
  ∧ next_page_id s' = next_page_id s
  ∧ header_record s' = header_record s.

(** [s'] has the tree of [s], no page has entered the deleted-page set,
    and the pages handed to DeletePage since [s] were waiting in the
    deleted-page set of [s]. *)
Definition kept (s s' : Tree) : Prop :=
  same_tree s s'
  ∧ deleted_page_set (txn s') ⊆ deleted_page_set (txn s)
  ∧ ∃ l, deleted_pages s' = deleted_pages s ++ l
         ∧ ∀ id, id ∈ l → id ∈ deleted_page_set (txn s).

(** Two programs that, started on states with the same tree, both fail
    or both return the same result, each keeping its state. *)
Definition sim {A} (m m' : M A) : Prop :=
  ∀ s s2, same_tree s s2 →
    match m s, m' s2 with
    | Some (a, s1), Some (a', s1') => a = a' ∧ kept s s1 ∧ kept s2 s1'
    | None, None => True
    | _, _ => False
    end.

(** A program without result that succeeds and keeps the state. *)
Definition quiet (m : M unit) : Prop :=
  ∀ s, ∃ s', m s = Some (tt, s') ∧ kept s s'.

(** The empty tree of the constructor, on a pool where the header page
    (page 0) has been allocated: the next page id is 1. *)
Definition empty_tree : Tree :=
  mkTree INVALID_PAGE_ID ∅ 1 None [] (mkTxn [] ∅).
End BTree.

(** ** Well-formed hash tables *)

Module EHTInv.
Import EHT.
Section Table.
Context {V : Type}.

(** An entry is empty, or holds a key and a value. *)
Definition entry_ok (e : @BucketEntry V) : Prop :=
  flag e = NONE ∨ (flag e = HASVAL ∧ is_Some (value e)).

(** The keys of the occupied entries, in the order of the slots. *)
Definition okeys (es : list (@BucketEntry V)) : list Z :=
  key <$> filter (λ e, flag e = HASVAL) es.

(** A bucket of the table [t] as the code keeps it: it has
    [maxBucketSize] entries, [size] counts the occupied ones, no key
    occupies two of them, and its depth is between 0 and the depth of
    the directory. *)
Definition bucket_ok (t : @ExtendibleHash V) (b : Bucket) : Prop :=
  bucketMaxSize b = maxBucketSize t
  ∧ length (entries b) = Z.to_nat (maxBucketSize t)
  ∧ Forall entry_ok (entries b)
  ∧ size b = Z.of_nat (length (okeys (entries b)))
  ∧ NoDup (okeys (entries b))
  ∧ 0 ≤ localDepth b ≤ globalDepth t.

(** The table as the code keeps it: buckets hold at least one entry,
    the directory has [2 ^ globalDepth] slots, each refers to a bucket
    that exists, [numBuckets] is the number of the buckets made, and
    every bucket is as above. *)
Definition table_ok (t : @ExtendibleHash V) : Prop :=
  0 < maxBucketSize t
  ∧ 0 ≤ globalDepth t
  ∧ Z.of_nat (length (table t)) = 2 ^ globalDepth t
  ∧ Forall (λ r, r < length (heap t))%nat (table t)
  ∧ numBuckets t = Z.of_nat (length (heap t))
  ∧ Forall (bucket_ok t) (heap t).

(** [t'] is [t] up to the contents of the buckets [r0] and [r1]. *)
Definition same_but (r0 r1 : nat) (t t' : @ExtendibleHash V) : Prop :=
  table t' = table t
  ∧ maxBucketSize t' = maxBucketSize t
  ∧ globalDepth t' = globalDepth t
  ∧ numBuckets t' = numBuckets t
  ∧ length (heap t') = length (heap t)
  ∧ ∀ r, r ≠ r0 → r ≠ r1 → heap t' !! r = heap t !! r.

(** The old bucket [b0] and the new bucket [b1] of a split while the
    entries are redistributed: both are well formed, together they hold
    the keys [K], each once, and the entries of [b1] from position
    [size b1] on are empty. *)
Definition split_pair (t : @ExtendibleHash V) (K : list Z) (b0 b1 : Bucket) : Prop :=
  bucket_ok t b0
  ∧ bucket_ok t b1
  ∧ okeys (entries b0) ++ okeys (entries b1) ≡ₚ K
  ∧ ∀ (p : nat) e, entries b1 !! p = Some e → (Z.to_nat (size b1) ≤ p)%nat → flag e = NONE.
End Table.
End EHTInv.

(** ** concurrency/lock_manager.h, lock_manager.cpp *)

Module LockManager.

Inductive TransactionState := GROWING | SHRINKING | COMMITTED | ABORTED.
Inductive LockType := SHARED | EXCLUSIVE | UPGRADING.

Global Instance TransactionState_eq_dec : EqDecision TransactionState.
Proof. solve_decision. Defined.
Global Instance LockType_eq_dec : EqDecision LockType.
Proof. solve_decision. Defined.

(** Modelled from the spec: concurrency/transaction.h is not part of the
    sources; the lock manager reads the transaction's id and state, sets
    its state, and keeps its sets of shared and exclusive locks.  A RID
    is an integer. *)
Record Transaction := mkTxn {
  txn_id : Z;
  state : TransactionState;
  shared_lock_set : gset Z;
  exclusive_lock_set : gset Z
}.

Definition GetTransactionId (t : Transaction) : Z := txn_id t.
Definition GetState (t : Transaction) : TransactionState := state t.
Definition SetState (s : TransactionState) (t : Transaction) : Transaction :=
  mkTxn (txn_id t) s (shared_lock_set t) (exclusive_lock_set t).
Definition set_shared (l : gset Z) (t : Transaction) : Transaction :=
  mkTxn (txn_id t) (state t) l (exclusive_lock_set t).
Definition set_exclusive (l : gset Z) (t : Transaction) : Transaction :=
  mkTxn (txn_id t) (state t) (shared_lock_set t) l.

(** The mutex and the condition variable of a request carry no data. *)
Record TxLockForRecord := mkLock {
  txn_id_ : Z;
  lock_type_ : LockType;
  granted_ : bool
}.

Record TxListForRecord := mkList {
  locks_ : list TxLockForRecord;
  has_upgrated_ : bool
}.

Record LockManager := mkLM {
  strict_2PL_ : bool;
  lock_table_ : gmap Z TxListForRecord
}.

(** The constructor. *)
Definition init (strict_2PL : bool) : LockManager := mkLM strict_2PL ∅.

(** [lock_table_[rid]]: the list of the record, made empty (and its
    flag false) by the access when the table has none. *)
Definition list_of (lm : LockManager) (rid : Z) : TxListForRecord :=
  default (mkList [] false) (lock_table_ lm !! rid).

Definition set_list (lm : LockManager) (rid : Z) (l : TxListForRecord) : LockManager :=
  mkLM (strict_2PL_ lm) (<[rid := l]> (lock_table_ lm)).

(** [Grant()] *)
Definition Grant (l : TxLockForRecord) : TxLockForRecord :=
  mkLock (txn_id_ l) (lock_type_ l) true.

(** How a call of one of the three lock functions goes on: it returns a
    flag, or the calling thread blocks in [Wait()] on the request it has
    appended. *)
Inductive Outcome := Returns (b : bool) | Waits.

(** [txn->GetTransactionId() > locks_.back().txn_id_] *)
Definition younger_than_back (txn : Transaction) (locks : list TxLockForRecord) : bool :=
  match last locks with
  | Some back => txn_id_ back <? GetTransactionId txn
  | None => false
  end.

Definition LockShared (lm : LockManager) (txn : Transaction) (rid : Z)
    : Outcome * LockManager * Transaction :=
  if negb (bool_decide (GetState txn = GROWING))
  then (Returns false, lm, SetState ABORTED txn)
  else
    let l := list_of lm rid in
    let lm1 := set_list lm rid l in
    let can_granted :=
      match last (locks_ l) with
      | None => true
      | Some last_lock => granted_ last_lock && bool_decide (lock_type_ last_lock = SHARED)
      end in
    if negb can_granted && younger_than_back txn (locks_ l)
    then (Returns false, lm1, SetState ABORTED txn)
    else
      let l' := mkList (locks_ l ++ [mkLock (GetTransactionId txn) SHARED can_granted])
                       (has_upgrated_ l) in
      let lm2 := set_list lm1 rid l' in
      if can_granted
      then (Returns true, lm2, set_shared ({[rid]} ∪ shared_lock_set txn) txn)
      else (Waits, lm2, txn).

Definition LockExclusive (lm : LockManager) (txn : Transaction) (rid : Z)
    : Outcome * LockManager * Transaction :=
  if negb (bool_decide (GetState txn = GROWING))
  then (Returns false, lm, SetState ABORTED txn)
  else
    let l := list_of lm rid in
    let lm1 := set_list lm rid l in
    let can_granted := bool_decide (locks_ l = []) in
    if negb can_granted && younger_than_back txn (locks_ l)
    then (Returns false, lm1, SetState ABORTED txn)
    else
      let l' := mkList (locks_ l ++ [mkLock (GetTransactionId txn) EXCLUSIVE can_granted])
                       (has_upgrated_ l) in
      let lm2 := set_list lm1 rid l' in
      if can_granted
      then (Returns true, lm2, set_exclusive ({[rid]} ∪ exclusive_lock_set txn) txn)
      else (Waits, lm2, txn).

(** [find_if] on the transaction id: the position of the first request
    of the transaction. *)
Fixpoint find_request (id : Z) (locks : list TxLockForRecord) : option nat :=
  match locks with
  | [] => None
  | l :: locks' => if txn_id_ l =? id then Some O
                   else S <$> find_request id locks'
  end.

Definition LockUpgrade (lm : LockManager) (txn : Transaction) (rid : Z)
    : Outcome * LockManager * Transaction :=
  if negb (bool_decide (GetState txn = GROWING))
  then (Returns false, lm, SetState ABORTED txn)
  else
    let l := list_of lm rid in
    let lm1 := set_list lm rid l in
    if has_upgrated_ l then (Returns false, lm1, SetState ABORTED txn)
    else
      let found :=
        i ← find_request (GetTransactionId txn) (locks_ l);
        it ← locks_ l !! i;
        if bool_decide (lock_type_ it = SHARED) && granted_ it then Some i else None in
      match found with
      | None => (Returns false, lm1, SetState ABORTED txn)
      | Some i =>
          let locks1 := delete i (locks_ l) in
          let txn1 := set_shared (shared_lock_set txn ∖ {[rid]}) txn in
          let can_granted := bool_decide (locks1 = []) in
          if negb can_granted && younger_than_back txn1 locks1
          then (Returns false, set_list lm1 rid (mkList locks1 (has_upgrated_ l)),
                SetState ABORTED txn1)
          else if can_granted then
            (Returns true,
             set_list lm1 rid
               (mkList (locks1 ++ [mkLock (GetTransactionId txn1) EXCLUSIVE true])
                       (has_upgrated_ l)),
             set_exclusive ({[rid]} ∪ exclusive_lock_set txn1) txn1)
          else
            (Waits,
             set_list lm1 rid
               (mkList (locks1 ++ [mkLock (GetTransactionId txn1) UPGRADING false]) true),
             txn1)
      end.

(** What a thread blocked in [Wait()] does once its request is granted:
    LockShared inserts the record into the shared set, the other two into
    the exclusive set, and the call returns true.  [None]: the request is
    not granted, the thread stays blocked. *)
Definition wake (shared : bool) (lm : LockManager) (txn : Transaction) (rid : Z)
    : option (bool * Transaction) :=
  let l := list_of lm rid in
  i ← find_request (GetTransactionId txn) (locks_ l);
  it ← locks_ l !! i;
  if granted_ it then
    Some (true, if shared then set_shared ({[rid]} ∪ shared_lock_set txn) txn
                else set_exclusive ({[rid]} ∪ exclusive_lock_set txn) txn)
  else None.

(** The loop at the end of Unlock ("grant lock to next txn") over the
    requests left in the list; the result is the list and the flag
    [has_upgrated_] after the loop. *)
Fixpoint grant_next (locks : list TxLockForRecord) (has_upgrated : bool)
    : list TxLockForRecord * bool :=
  match locks with
  | [] => ([], has_upgrated)
  | tx_lock :: rest =>
      if granted_ tx_lock then (locks, has_upgrated)            (* break *)
      else
        let tx_lock := Grant tx_lock in
        match lock_type_ tx_lock with
        | SHARED =>                                              (* continue *)
            let '(rest', h) := grant_next rest has_upgrated in
            (tx_lock :: rest', h)
        | UPGRADING =>
            (mkLock (txn_id_ tx_lock) EXCLUSIVE (granted_ tx_lock) :: rest, false)
        | EXCLUSIVE => (tx_lock :: rest, has_upgrated)
        end
  end.

(** [None]: the transaction has no request in the list of the record
    and the code dereferences the end iterator. *)
Definition Unlock (lm : LockManager) (txn : Transaction) (rid : Z)
    : option (bool * LockManager * Transaction) :=
  if strict_2PL_ lm
     && negb (bool_decide (GetState txn = COMMITTED))
     && negb (bool_decide (GetState txn = ABORTED))
  then Some (false, lm, SetState ABORTED txn)
  else
    let txn1 := if negb (strict_2PL_ lm) && bool_decide (GetState txn = GROWING)
                then SetState SHRINKING txn else txn in
    let l := list_of lm rid in
    i ← find_request (GetTransactionId txn1) (locks_ l);
    it ← locks_ l !! i;
    let txn2 := if bool_decide (lock_type_ it = SHARED)
                then set_shared (shared_lock_set txn1 ∖ {[rid]}) txn1
                else set_exclusive (exclusive_lock_set txn1 ∖ {[rid]}) txn1 in
    let locks1 := delete i (locks_ l) in
    if bool_decide (locks1 = [])
    then Some (true, mkLM (strict_2PL_ lm) (delete rid (lock_table_ lm)), txn2)
    else
      let '(locks2, h) := grant_next locks1 (has_upgrated_ l) in
      Some (true, set_list lm rid (mkList locks2 h), txn2).

(** The queue of a record as a list of (transaction id, mode, granted). *)
Definition queue (lm : LockManager) (rid : Z) : list TxLockForRecord :=
  locks_ (list_of lm rid).

(** A request of a reader that waits. *)
Definition waiting_shared (l : TxLockForRecord) : Prop :=
  granted_ l = false ∧ lock_type_ l = SHARED.

(** *** The grant rule as the specification words it

    "walk the queue from the front: skip already-granted entries; grant
    the next waiter; if it is SHARED, continue granting subsequent SHARED
    waiters; if it is UPGRADING, promote it to EXCLUSIVE, clear
    has_upgraded, grant it, and stop; if it is EXCLUSIVE, grant it and
    stop." *)
Fixpoint spec_grant_shared_run (locks : list TxLockForRecord) : list TxLockForRecord :=
  match locks with
  | l :: rest =>
      if negb (granted_ l) && bool_decide (lock_type_ l = SHARED)
      then Grant l :: spec_grant_shared_run rest
      else locks
  | [] => []
  end.

Fixpoint spec_grant_walk (locks : list TxLockForRecord) (has_upgrated : bool)
    : list TxLockForRecord * bool :=
  match locks with
  | [] => ([], has_upgrated)
  | l :: rest =>
      if granted_ l then                                        (* skip *)
        let '(rest', h) := spec_grant_walk rest has_upgrated in (l :: rest', h)
      else
        match lock_type_ l with
        | SHARED => (Grant l :: spec_grant_shared_run rest, has_upgrated)
        | UPGRADING => (mkLock (txn_id_ l) EXCLUSIVE true :: rest, false)
        | EXCLUSIVE => (Grant l :: rest, has_upgrated)
        end
  end.
End LockManager.

(** ** Well-formed tree pages *)

Module BTreePageInv.
Import BTreePage.

(** A leaf as the tree keeps it: the keys of the valid slots ascend
    strictly (keys are unique). *)
Definition sorted_leaf (p : BPlusTreePage) : Prop :=
  ∀ i j, 0 ≤ i → i < j → j < GetSize p → KeyAt p i < KeyAt p j.

(** An internal page as the tree keeps it: the key of slot 0 is not
    used, the keys of the slots from 1 on ascend strictly. *)
Definition sorted_internal (p : BPlusTreePage) : Prop :=
  ∀ i j, 1 ≤ i → i < j → j < GetSize p → KeyAt p i < KeyAt p j.

(** The test that the keys of the slots [lo], ..., [size - 1] ascend,
    each compared with the next. *)
Definition ascending_from (lo : Z) (p : BPlusTreePage) : bool :=
  forallb (λ i : nat, KeyAt p (lo + Z.of_nat i) <? KeyAt p (lo + Z.of_nat i + 1))
          (seq 0 (Z.to_nat (GetSize p - 1 - lo))).

(** The values (child page ids) of the valid slots. *)
Definition values (p : BPlusTreePage) : list Z := snd <$> items p.
End BTreePageInv.


(** ** Trees of one leaf and leaf chains *)

Module BTreeInv.
Import BTreePage BTree.

(** [s'] is [s] up to the page set of the transaction: the descent
    latches pages and changes nothing else. *)
Definition same_but_page_set (s s' : Tree) : Prop :=
  root_page_id_ s' = root_page_id_ s
  ∧ pages s' = pages s
  ∧ next_page_id s' = next_page_id s
  ∧ header_record s' = header_record s
  ∧ deleted_pages s' = deleted_pages s
  ∧ deleted_page_set (txn s') = deleted_page_set (txn s).

(** [ps] are the pages of the leaf chain that starts at the page id
    [id]: each is the page of the next page id of the one before, and
    the last one has no next page. *)
Fixpoint leaf_list (s : Tree) (id : Z) (ps : list BPlusTreePage) : Prop :=
  match ps with
  | [] => id = INVALID_PAGE_ID
  | p :: ps' =>
      id ≠ INVALID_PAGE_ID ∧ pages s !! id = Some p
      ∧ leaf_list s (GetNextPageId p) ps'
  end.
End BTreeInv.
(** ** Lock manager: queues and runs *)

Module LockInv.
Import LockManager.

(** The granted requests of a queue come before the waiting ones. *)
Definition granted_first (locks : list TxLockForRecord) : Prop :=
  ∃ gs ws, locks = gs ++ ws
           ∧ Forall (λ l, granted_ l = true) gs
           ∧ Forall (λ l, granted_ l = false) ws.

(** The lock managers that calls of the four functions make of the one
    the constructor builds. *)
Inductive reachable (strict : bool) : LockManager → Prop :=
| reach_init : reachable strict (init strict)
| reach_LockShared lm txn rid :
    reachable strict lm → reachable strict (LockShared lm txn rid).1.2
| reach_LockExclusive lm txn rid :
    reachable strict lm → reachable strict (LockExclusive lm txn rid).1.2
| reach_LockUpgrade lm txn rid :
    reachable strict lm → reachable strict (LockUpgrade lm txn rid).1.2
| reach_Unlock lm txn rid b lm' txn' :
    reachable strict lm → Unlock lm txn rid = Some (b, lm', txn') →
    reachable strict lm'.

(** What the grant loop makes of a waiting request that is not SHARED:
    a granted EXCLUSIVE one. *)
Definition granted_exclusive (l : TxLockForRecord) : TxLockForRecord :=
  mkLock (txn_id_ l) EXCLUSIVE true.
End LockInv.

(** ** Instances and runs used by the proofs *)

Module Scenarios.
Import BTreePage BTree.

(** An instance of the two page methods taken as parameters by the tree
    model, with the occupancy bounds of a B+ tree: a root leaf needs one
    entry, a root internal page two children, any other page half of
    [max_size + 1] rounded down; a page is safe for an insert below
    [max_size] and for a delete above its minimum.  It is used to run
    the theorems of the tree on concrete trees. *)
Definition GetMinSize_sample (p : BPlusTreePage) : Z :=
  if IsRootPage p then (if IsLeafPage p then 1 else 2)
  else Z.quot (GetMaxSize p + 1) 2.

Definition IsSafe_sample (op : OpType) (p : BPlusTreePage) : bool :=
  match op with
  | READ => true
  | INSERT => GetSize p <? GetMaxSize p
  | DELETE => GetMinSize_sample p <? GetSize p
  end.

(** *** Trees of order 4 (leaf and internal [max_size] 4) *)

(** The tree after Insert of the keys 1, 2, 3, 4 with the values [v1] to
    [v4]: page 1 is the root and a leaf. *)
Definition tree_1234 (v1 v2 v3 v4 : Z) : Tree :=
  mkTree 1
    {[ 1 := mkPage LEAF_PAGE 4 4 INVALID_PAGE_ID 1 INVALID_PAGE_ID
              [(1, v1); (2, v2); (3, v3); (4, v4)] ]}
    2 (Some 1) [] (mkTxn [] ∅).

(** The tree after Insert of key 5 as well: page 3 is the root, an
    internal page with the children 1 and 2 and the separator 3; the
    leaf 1 keeps its five slots, of which the first two are valid. *)
Definition tree_12345 (v1 v2 v3 v4 v5 : Z) : Tree :=
  mkTree 3
    (<[ 1 := mkPage LEAF_PAGE 2 4 3 1 2
               [(1, v1); (2, v2); (3, v3); (4, v4); (5, v5)] ]>
     (<[ 2 := mkPage LEAF_PAGE 3 4 3 2 INVALID_PAGE_ID
                [(3, v3); (4, v4); (5, v5)] ]>
      {[ 3 := mkPage INTERNAL_PAGE 2 4 INVALID_PAGE_ID 3 0 [(0, 1); (3, 2)] ]}))
    4 (Some 3) [] (mkTxn [] ∅).

(** [tree_1234] when the descent of an insert has reached and latched
    the root leaf. *)
Definition tree_1234_latched (v1 v2 v3 v4 : Z) : Tree :=
  mkTree 1
    {[ 1 := mkPage LEAF_PAGE 4 4 INVALID_PAGE_ID 1 INVALID_PAGE_ID
              [(1, v1); (2, v2); (3, v3); (4, v4)] ]}
    2 (Some 1) [] (mkTxn [1] ∅).



(** The split index as the specification words it:
    "ceil((max+1)/2)". *)
Definition spec_split_index (max_size : Z) : Z := (max_size + 1 + 1) / 2.

(** *** A replacer, a hash table and a buffer pool *)

(** The replacer after Insert of 1, 2 and 3. *)
Definition three_values : LRU.LRUReplacer nat :=
  LRU.Insert 3%nat (LRU.Insert 2%nat (LRU.Insert 1%nat LRU.empty_replacer)).

(** [std::hash<int>] of libstdc++ is the identity. *)
Definition identity_hash (k : Z) : Z := k.

(** Inserts of the keys 0, 4, 8, 1, 3, 5 into a table whose buckets
    hold two entries; key [k] is given the value [100 + k]. *)
Definition six_inserts : list (@EHT.op Z) :=
  [EHT.OpInsert 0 100; EHT.OpInsert 4 104; EHT.OpInsert 8 108;
   EHT.OpInsert 1 101; EHT.OpInsert 3 103; EHT.OpInsert 5 105].

(** Inserts of the keys 0, 1, 2, 4, 3 into a table whose buckets hold
    one entry. *)
Definition five_inserts : list (@EHT.op Z) :=
  [EHT.OpInsert 0 100; EHT.OpInsert 1 101; EHT.OpInsert 2 102;
   EHT.OpInsert 4 104; EHT.OpInsert 3 103].

(** A pool of three frames whose pages hold an integer, after NewPage
    has been called twice (pages 0 and 1 are resident and pinned). *)
Definition small_pool : option (@BPM.BufferPoolManager Z) :=
  let m0 := BPM.init 0 3 2 (BPM.mkDisk ∅ 0 []) in
  r1 ← BPM.NewPage 0 identity_hash 8 m0;
  r2 ← BPM.NewPage 0 identity_hash 8 r1.2;
  Some r2.2.

(** *** The wait-die run on one record

    T10 takes the exclusive lock of record [r]; T5 asks for it and
    blocks; T20 asks for it; T10 (committed first when the manager is
    strict) unlocks; T5 wakes up.  The result lists what the three calls
    of LockExclusive did, the flag returned by Unlock, what T5's call
    returned after waking, the final lock manager and T10, T5 and T20. *)
Definition fresh_txn (id : Z) : LockManager.Transaction :=
  LockManager.mkTxn id LockManager.GROWING ∅ ∅.

Record WaitDieRun := mkRun {
  t10_lock : LockManager.Outcome;
  t5_lock : LockManager.Outcome;
  t20_lock : LockManager.Outcome;
  queue_after_t20 : list LockManager.TxLockForRecord;
  t10_unlock : bool;
  queue_after_unlock : list LockManager.TxLockForRecord;
  t5_return : bool;
  final_t10 : LockManager.Transaction;
  final_t5 : LockManager.Transaction;
  final_t20 : LockManager.Transaction
}.

Definition wait_die_run (strict : bool) (r : Z) : option WaitDieRun :=
  let lm0 := LockManager.init strict in
  let '(o10, lm1, t10) := LockManager.LockExclusive lm0 (fresh_txn 10) r in
  let '(o5, lm2, t5) := LockManager.LockExclusive lm1 (fresh_txn 5) r in
  let '(o20, lm3, t20) := LockManager.LockExclusive lm2 (fresh_txn 20) r in
  let t10c := if strict then LockManager.SetState LockManager.COMMITTED t10 else t10 in
  '(u, lm4, t10') ← LockManager.Unlock lm3 t10c r;
  '(b5, t5') ← LockManager.wake false lm4 t5 r;
  Some (mkRun o10 o5 o20 (LockManager.queue lm3 r) u (LockManager.queue lm4 r) b5
              t10' t5' t20).

(** Two readers and a waiting writer: T1 and T2 hold the shared lock of
    record 7, T0 has asked for the exclusive lock and waits. *)
Definition two_readers_one_writer : LockManager.LockManager * LockManager.Transaction :=
  let lm0 := LockManager.init false in
  let '(_, lm1, t1) := LockManager.LockShared lm0 (fresh_txn 1) 7 in
  let '(_, lm2, _) := LockManager.LockShared lm1 (fresh_txn 2) 7 in
  let '(_, lm3, _) := LockManager.LockExclusive lm2 (fresh_txn 0) 7 in
  (lm3, t1).
End Scenarios.

(** ** Pages, tables and queues on which the general theorems are run *)

Module Samples.
Import BTreePage.

(** A leaf of [max_size] 4 with the keys 1, 3 and 5. *)
Definition leaf_135 : BPlusTreePage :=
  mkPage LEAF_PAGE 3 4 INVALID_PAGE_ID 1 INVALID_PAGE_ID [(1, 10); (3, 30); (5, 50)].

(** An internal page with the children 1, 2 and 4 and the separators 3
    and 7. *)
Definition internal_37 : BPlusTreePage :=
  mkPage INTERNAL_PAGE 3 4 INVALID_PAGE_ID 3 0 [(0, 1); (3, 2); (7, 4)].

(** The pool of three frames of [Scenarios.small_pool], with the pages
    0 and 1 resident, after UnpinPage of page 0 (with a clean flag). *)
Definition small_pool_unpinned : option (@BPM.BufferPoolManager Z) :=
  m ← Scenarios.small_pool;
  Some (BPM.UnpinPage Scenarios.identity_hash m 0 false).2.

(** A pool of one frame: NewPage creates page 0 in it, and UnpinPage
    releases it with the dirty flag. *)
Definition one_dirty_frame : option (@BPM.BufferPoolManager Z) :=
  r ← BPM.NewPage 0 Scenarios.identity_hash 8 (BPM.init 0 1 2 (BPM.mkDisk ∅ 0 []));
  Some (BPM.UnpinPage Scenarios.identity_hash r.2 0 true).2.

(** The same pool while page 0 is still pinned. *)
Definition one_pinned_frame : option (@BPM.BufferPoolManager Z) :=
  r ← BPM.NewPage 0 Scenarios.identity_hash 8 (BPM.init 0 1 2 (BPM.mkDisk ∅ 0 []));
  Some r.2.

(** A tree whose root (page 1) is [leaf_135]. *)
Definition one_leaf_tree : BTree.Tree :=
  BTree.mkTree 1 {[1 := leaf_135]} 2 (Some 1) [] (BTree.mkTxn [] ∅).

(** A tree whose root (page 1) is a leaf with the key 7 alone. *)
Definition one_key_tree : BTree.Tree :=
  BTree.mkTree 1
    {[1 := mkPage LEAF_PAGE 1 4 INVALID_PAGE_ID 1 INVALID_PAGE_ID [(7, 70)]]}
    2 (Some 1) [] (BTree.mkTxn [] ∅).

(** Two leaves in a chain: page 1 with the keys 1, 3 and 5 is followed
    by page 2 with the keys 7 and 9. *)
Definition two_leaves : BTree.Tree :=
  BTree.mkTree 3
    (<[1 := mkPage LEAF_PAGE 3 4 3 1 2 [(1, 10); (3, 30); (5, 50)]]>
       (<[2 := mkPage LEAF_PAGE 2 4 3 2 INVALID_PAGE_ID [(7, 70); (9, 90)]]>
          (<[3 := mkPage INTERNAL_PAGE 2 4 INVALID_PAGE_ID 3 0 [(0, 1); (7, 2)]]> ∅)))
    4 (Some 3) [] (BTree.mkTxn [] ∅).
End Samples.

(** * Proofs *)

(** ** LRU replacer *)

Module LRUFacts.
Import LRU.
Section Replacer.
Context {T : Type} `{Countable T}.
Implicit Types (r : LRUReplacer T) (v : T) (l : list T).

Lemma erase_node_notin v l : v ∉ l → erase_node v l = l.
Proof.
  induction l as [|x l IH]; simpl; [done|].
  intros Hn. apply not_elem_of_cons in Hn as [Hne Hn].
  destruct (decide (x = v)); [congruence|]. by rewrite IH.
Qed.

Lemma elem_of_erase_node v l x :
  NoDup l → x ∈ erase_node v l ↔ x ∈ l ∧ x ≠ v.
Proof.
  induction l as [|y l IH]; simpl; intros Hnd.
  - set_solver.
  - apply NoDup_cons in Hnd as [Hy Hnd].
    destruct (decide (y = v)) as [->|Hne].
    + rewrite elem_of_cons. split.
      * intros Hx. split; [by right|]. intros ->. done.
      * intros [[->|Hx] Hxv]; done.
    + rewrite !elem_of_cons, IH by done. naive_solver.
Qed.

Lemma NoDup_erase_node v l : NoDup l → NoDup (erase_node v l).
Proof.
  induction l as [|y l IH]; simpl; intros Hnd; [done|].
  apply NoDup_cons in Hnd as [Hy Hnd].
  destruct (decide (y = v)); [done|].
  apply NoDup_cons. split; [|by apply IH].
  rewrite elem_of_erase_node by done. tauto.
Qed.

Lemma wf_empty : wf (empty_replacer (T := T)).
Proof. split; simpl; [constructor | set_solver]. Qed.

Lemma wf_Insert v r : wf r → wf (Insert v r).
Proof.
  intros [Hnd Hin]. unfold Insert. split; simpl.
  - apply NoDup_cons. destruct (decide (v ∈ mp r)) as [Hv|Hv].
    + split; [|by apply NoDup_erase_node].
      rewrite elem_of_erase_node by done. tauto.
    + split; [|done]. by rewrite <- Hin.
  - intros x. rewrite elem_of_union, elem_of_singleton, elem_of_cons.
    destruct (decide (v ∈ mp r)) as [Hv|Hv].
    + rewrite elem_of_erase_node, <- Hin by done.
      destruct (decide (x = v)); naive_solver.
    + by rewrite Hin.
Qed.

Lemma last_removelast l x : last l = Some x → l = removelast l ++ [x].
Proof.
  induction l as [|y [|z l] IH]; simpl; intros Hl; [done| |].
  - by inversion Hl.
  - f_equal. by apply IH.
Qed.

Lemma wf_Victim r : wf r → wf (Victim r).2.
Proof.
  intros [Hnd Hin]. unfold Victim.
  destruct (decide (mp r = ∅)); [done|].
  destruct (last (used r)) as [x|] eqn:Hl; [|done]. simpl.
  apply last_removelast in Hl. unfold pop_back.
  rewrite Hl in Hnd. apply NoDup_app in Hnd as (Hnd1 & Hdis & _).
  split; [done|]. intros y. simpl.
  rewrite elem_of_difference, elem_of_singleton, Hin.
  rewrite Hl at 1. rewrite elem_of_app, list_elem_of_singleton.
  split; [naive_solver|]. intros Hy. split; [by left|].
  intros ->. apply (Hdis x Hy). by apply list_elem_of_singleton.
Qed.

Lemma wf_Erase v r : wf r → wf (Erase v r).2.
Proof.
  intros [Hnd Hin]. unfold Erase.
  destruct (decide (v ∈ mp r)); [|done]. split; simpl.
  - by apply NoDup_erase_node.
  - intros x. rewrite elem_of_difference, elem_of_singleton,
      elem_of_erase_node, Hin by done. done.
Qed.

Lemma reachable_wf r : reachable r → wf r.
Proof.
  induction 1; auto using wf_empty, wf_Insert, wf_Victim, wf_Erase.
Qed.

Lemma wf_size r : wf r → Size r = length (used r).
Proof.
  intros [Hnd Hin]. unfold Size.
  assert (mp r = list_to_set (used r)) as ->.
  { apply set_eq. intros x. by rewrite Hin, elem_of_list_to_set. }
  by apply size_list_to_set.
Qed.

(** Draining a well-formed replacer hands out its values from the back
    of the recency order to the front and leaves it empty. *)
Lemma drain_all r :
  wf r → ∃ r', drain (Size r) r = Some (reverse (used r), r')
               ∧ mp r' = ∅ ∧ used r' = [].
Proof.
  intros Hwf. rewrite (wf_size r Hwf).
  remember (length (used r)) as n eqn:Hn.
  revert r Hwf Hn. induction n as [|n IH]; intros r Hwf Hn.
  - destruct Hwf as [Hnd Hin].
    destruct (used r) as [|] eqn:Hu; [|done].
    exists r. simpl. split; [done|]. split; [|done].
    apply set_eq. intros x. rewrite Hin. set_solver.
  - pose proof (wf_Victim r Hwf) as Hwf'.
    destruct Hwf as [Hnd Hin]. simpl. unfold Victim in *.
    destruct (decide (mp r = ∅)) as [He|He].
    { exfalso. destruct (used r) as [|x l] eqn:Hu; [done|].
      assert (x ∈ mp r) as Hx by (rewrite Hin; left).
      rewrite He in Hx. set_solver. }
    destruct (last (used r)) as [x|] eqn:Hl.
    2:{ apply last_None in Hl. rewrite Hl in Hn. done. }
    simpl in Hwf'. apply last_removelast in Hl.
    destruct (IH _ Hwf') as (r' & Hd & Hr'); simpl.
    { unfold pop_back. rewrite Hl, length_app in Hn. simpl in Hn. lia. }
    rewrite Hd. exists r'. split; [|done].
    unfold pop_back. rewrite Hl at 2. by rewrite reverse_snoc.
Qed.

(** C10: Insert of a value that is already present does not duplicate
    it but moves it to the front of the recency order; Size is
    unchanged; inserting it a second time changes nothing more; and
    draining the replacer with Victim returns every present value
    exactly once (the list of victims has no duplicate and holds exactly
    the present values), after which the replacer is empty and Victim
    returns false. *)
Theorem C10_insert_present_moves_to_front r v :
  reachable r → v ∈ mp r →
  let r1 := Insert v r in
  used r1 = v :: erase_node v (used r)
  ∧ NoDup (used r1)
  ∧ (∀ x, x ∈ used r1 ↔ x ∈ used r)
  ∧ Size r1 = Size r
  ∧ Insert v r1 = r1
  ∧ ∃ vs r',
      drain (Size r1) r1 = Some (vs, r')
      ∧ NoDup vs ∧ (∀ x, x ∈ vs ↔ x ∈ mp r1)
      ∧ Size r' = 0%nat ∧ Victim r' = (None, r').
Proof.
  intros Hr Hv r1. pose proof (reachable_wf r Hr) as Hwf.
  pose proof (wf_Insert v r Hwf) as Hwf1. fold r1 in Hwf1.
  assert (mp r1 = mp r) as Hmp.
  { unfold r1, Insert; simpl. set_solver. }
  assert (used r1 = v :: erase_node v (used r)) as Hu.
  { unfold r1, Insert; simpl. by rewrite decide_True. }
  split; [done|]. split; [apply Hwf1|].
  split.
  { intros x. destruct Hwf as [_ Hin], Hwf1 as [_ Hin1].
    by rewrite <- Hin1, <- Hin, Hmp. }
  split; [unfold Size; by rewrite Hmp|].
  split.
  { unfold Insert at 1. rewrite decide_True by (rewrite Hmp; done).
    destruct r1 as [m u] eqn:Hr1; simpl in *. f_equal.
    - subst m. set_solver.
    - rewrite Hu. simpl. by rewrite decide_True. }
  destruct (drain_all r1 Hwf1) as (r' & Hd & Hm' & Hu').
  exists (reverse (used r1)), r'. split; [done|].
  split; [rewrite reverse_Permutation; apply Hwf1|].
  split.
  { intros x. rewrite elem_of_reverse. destruct Hwf1 as [_ Hin1].
    by rewrite Hin1. }
  split.
  - unfold Size. rewrite Hm'. apply size_empty.
  - unfold Victim. by rewrite decide_True.
Qed.

End Replacer.

(** C10 at the replacer holding 3, 2, 1: Insert of 2 moves it to the
    front. *)
Lemma C10_witness :
  reachable Scenarios.three_values
  ∧ 2%nat ∈ mp Scenarios.three_values
  ∧ used (Insert 2%nat Scenarios.three_values) = [2; 3; 1]%nat
  ∧ Size (Insert 2%nat Scenarios.three_values) = Size Scenarios.three_values.
Proof.
  assert (reachable Scenarios.three_values) as Hr.
  { unfold Scenarios.three_values. repeat constructor. }
  assert (2%nat ∈ mp Scenarios.three_values) as Hin.
  { unfold Scenarios.three_values, Insert. simpl. set_solver. }
  destruct (C10_insert_present_moves_to_front Scenarios.three_values 2%nat Hr Hin)
    as (Hu & _ & _ & Hs & _).
  split; [exact Hr|]. split; [exact Hin|]. split; [|exact Hs].
  rewrite Hu. vm_compute. reflexivity.
Defined.
End LRUFacts.
(** ** Extendible hash table *)

Module EHTFacts.
Import EHT Scenarios.

(** The table after the six inserts: the directory has depth 3, and its
    slot 3 refers to a bucket of local depth 2 that holds the keys 1 and
    5, the bucket of slot 1 that the split for key 5 left in place. *)
Lemma six_inserts_slot_3 :
  ∃ t b, run identity_hash 8 six_inserts (init 2) = Some t
         ∧ globalDepth t = 3
         ∧ bucket_at t 3 = Some b
         ∧ bucket_at t 1 = Some b
         ∧ localDepth b = 2
         ∧ occupied_keys b = [1; 5].
Proof. vm_compute. eauto 10. Qed.

(** C6, evaluated on the code: after Insert of the keys 0, 4, 8, 1, 3, 5
    into a table of bucket size 2 (identity hash), the directory
    invariant does not hold: slot 3 refers to a bucket of local depth 2
    that holds key 1, and 1 and 3 differ in their low 2 bits. *)
Theorem C6_six_inserts_break_directory_invariant :
  ∃ t, run identity_hash 8 six_inserts (init 2) = Some t
       ∧ ¬ directory_invariant identity_hash t.
Proof.
  destruct six_inserts_slot_3 as (t & b & Hrun & _ & Hb & _ & Hld & Hk).
  exists t. split; [exact Hrun|]. intros Hinv.
  destruct (Hinv 3%nat b Hb) as [_ Hkeys].
  specialize (Hkeys 1). rewrite Hk, Hld in Hkeys.
  assert (1 ∈ [1; 5]) as H1 by (apply list_elem_of_here).
  specialize (Hkeys H1). vm_compute in Hkeys. discriminate.
Qed.

(** What the broken directory costs: key 3, inserted and never removed,
    is not found any more, while the five other keys are. *)
Lemma six_inserts_lose_key_3 :
  ∃ t, run identity_hash 8 six_inserts (init 2) = Some t
       ∧ Find identity_hash t 3 = None
       ∧ Find identity_hash t 0 = Some 100
       ∧ Find identity_hash t 1 = Some 101
       ∧ Find identity_hash t 5 = Some 105.
Proof. vm_compute. eauto 10. Qed.

(** The same with buckets of one entry, after the keys 0, 1, 2, 4, 3:
    slot 5 refers to a bucket of local depth 2 that holds key 3. *)
Lemma five_inserts_slot_5 :
  ∃ t b, run identity_hash 8 five_inserts (init 1) = Some t
         ∧ globalDepth t = 3
         ∧ bucket_at t 5 = Some b
         ∧ localDepth b = 2
         ∧ occupied_keys b = [3].
Proof. vm_compute. eauto 10. Qed.
End EHTFacts.

(** ** Buffer pool manager *)

Module BPMFacts.
Import BPM.
Section Pool.
Context {Data : Type}.
Variable zero : Data.
Variable hash : Z → Z.

(** C9: when the page table has no entry for [page_id] (Find returns
    false), DeletePage returns true, leaves the frames, the page table,
    the replacer and the free list as they are, and calls the disk
    manager's DeallocatePage with [page_id]. *)
Theorem C9_DeletePage_of_absent_page (m : @BufferPoolManager Data) (page_id : Z) :
  lookup_frame hash m page_id = None →
  ∃ m', DeletePage zero hash m page_id = (true, m')
        ∧ pool_size_ m' = pool_size_ m
        ∧ pages_ m' = pages_ m
        ∧ page_table_ m' = page_table_ m
        ∧ replacer_ m' = replacer_ m
        ∧ free_list_ m' = free_list_ m
        ∧ disk_manager_ m' = DeallocatePage (disk_manager_ m) page_id
        ∧ deallocated (disk_manager_ m') = page_id :: deallocated (disk_manager_ m).
Proof.
  intros Hfind. unfold DeletePage. rewrite Hfind.
  eexists. split; [reflexivity|]. repeat split.
Qed.
End Pool.

(** C9 on the pool where pages 0 and 1 are resident: page 7 is not. *)
Lemma C9_witness :
  ∃ m, Scenarios.small_pool = Some m
       ∧ lookup_frame Scenarios.identity_hash m 7 = None
       ∧ (DeletePage 0 Scenarios.identity_hash m 7).1 = true
       ∧ pages_ (DeletePage 0 Scenarios.identity_hash m 7).2 = pages_ m.
Proof.
  destruct Scenarios.small_pool as [m|] eqn:Hm; [|discriminate Hm].
  assert (lookup_frame Scenarios.identity_hash m 7 = None) as Hfind.
  { revert Hm. vm_compute. intros [= <-]. reflexivity. }
  exists m. split; [reflexivity|]. split; [exact Hfind|].
  destruct (C9_DeletePage_of_absent_page 0 Scenarios.identity_hash m 7 Hfind)
    as (m' & Hd & _ & Hp & _).
  rewrite Hd. simpl. split; [reflexivity | exact Hp].
Defined.
End BPMFacts.

(** ** Lock manager *)

Module LockFacts.
Import LockManager Scenarios.

Lemma list_of_set_list lm rid l : list_of (set_list lm rid l) rid = l.
Proof. unfold list_of, set_list; simpl. by rewrite lookup_insert_eq. Qed.

Lemma set_list_set_list lm rid l l' :
  set_list (set_list lm rid l) rid l' = set_list lm rid l'.
Proof. unfold set_list; simpl. by rewrite insert_insert_eq. Qed.

Lemma list_of_init strict rid : list_of (init strict) rid = mkList [] false.
Proof. unfold list_of, init; simpl. by rewrite lookup_empty. Qed.

(** C7: the wait-die run.  T10's request is granted at once; T5, older
    than the tail T10, is queued and waits; T20, younger than the new
    tail T5, gets false, is ABORTED, and has no request in the queue;
    T10's unlock grants T5's request, whose call then returns true; at
    the end T5 is GROWING and T20 is ABORTED.  This holds for any record
    and for both kinds of manager (under strict two-phase locking T10
    commits before it unlocks). *)
Theorem C7_wait_die_run (strict : bool) (r : Z) :
  ∃ run, wait_die_run strict r = Some run
    ∧ t10_lock run = Returns true
    ∧ t5_lock run = Waits
    ∧ t20_lock run = Returns false
    ∧ queue_after_t20 run = [mkLock 10 EXCLUSIVE true; mkLock 5 EXCLUSIVE false]
    ∧ t10_unlock run = true
    ∧ queue_after_unlock run = [mkLock 5 EXCLUSIVE true]
    ∧ t5_return run = true
    ∧ state (final_t5 run) = GROWING
    ∧ state (final_t20 run) = ABORTED.
Proof.
  unfold wait_die_run, LockExclusive, Unlock, wake, queue, fresh_txn.
  simpl. rewrite !list_of_init. simpl.
  repeat (progress (rewrite ?set_list_set_list, ?list_of_set_list; simpl)).
  destruct strict; simpl;
    repeat (progress (rewrite ?set_list_set_list, ?list_of_set_list; simpl));
    eexists; (split; [reflexivity|]); simpl;
    repeat (progress (rewrite ?set_list_set_list, ?list_of_set_list; simpl));
    repeat split; reflexivity.
Qed.

(** *** The grant loop of Unlock *)

Lemma find_request_lookup id locks i :
  find_request id locks = Some i → is_Some (locks !! i).
Proof.
  revert i. induction locks as [|l ls IH]; simpl; intros i Hf; [done|].
  destruct (txn_id_ l =? id); [injection Hf as <-; by eexists|].
  destruct (find_request id ls) as [j|] eqn:Hj; [|done].
  injection Hf as <-. by apply IH.
Qed.

Lemma grant_next_granted e rest h :
  granted_ e = true → grant_next (e :: rest) h = (e :: rest, h).
Proof. intros He. simpl. by rewrite He. Qed.

Lemma grant_next_exclusive e rest h :
  granted_ e = false → lock_type_ e = EXCLUSIVE →
  grant_next (e :: rest) h = (Grant e :: rest, h).
Proof. intros He Ht. simpl. by rewrite He, Ht. Qed.

Lemma grant_next_upgrading e rest h :
  granted_ e = false → lock_type_ e = UPGRADING →
  grant_next (e :: rest) h = (mkLock (txn_id_ e) EXCLUSIVE true :: rest, false).
Proof. intros He Ht. simpl. by rewrite He, Ht. Qed.

Lemma grant_next_shared_run waiters tail h :
  Forall waiting_shared waiters →
  take (length waiters) (grant_next (waiters ++ tail) h).1 = Grant <$> waiters.
Proof.
  induction 1 as [|e waiters [He Ht] _ IH]; simpl; [by rewrite take_0|].
  rewrite He, Ht.
  destruct (grant_next (waiters ++ tail) h) as [rest' h'] eqn:Hg.
  simpl in *. by rewrite IH.
Qed.

(** C8, as the code has it: when the caller's request is removed and
    the queue of the record is not empty, Unlock runs the grant loop on
    what is left.  If the entry at the front is already granted, the
    loop stops there and grants nothing (it does not skip over granted
    entries).  If the front entry waits: an EXCLUSIVE one is granted and
    the loop stops; an UPGRADING one becomes a granted EXCLUSIVE one,
    has_upgraded is cleared and the loop stops; a SHARED one is granted
    together with the SHARED waiters that follow it without a gap. *)
Theorem C8_unlock_grant_loop (lm : LockManager) (txn : Transaction) (rid : Z)
    (i : nat) (e : TxLockForRecord) (rest : list TxLockForRecord) :
  (strict_2PL_ lm = true → GetState txn = COMMITTED ∨ GetState txn = ABORTED) →
  find_request (GetTransactionId txn) (queue lm rid) = Some i →
  delete i (queue lm rid) = e :: rest →
  ∃ lm' txn',
    Unlock lm txn rid = Some (true, lm', txn')
    ∧ (queue lm' rid, has_upgrated_ (list_of lm' rid))
      = grant_next (e :: rest) (has_upgrated_ (list_of lm rid))
    ∧ (granted_ e = true →
         queue lm' rid = e :: rest
         ∧ has_upgrated_ (list_of lm' rid) = has_upgrated_ (list_of lm rid))
    ∧ (granted_ e = false → lock_type_ e = EXCLUSIVE →
         queue lm' rid = Grant e :: rest
         ∧ has_upgrated_ (list_of lm' rid) = has_upgrated_ (list_of lm rid))
    ∧ (granted_ e = false → lock_type_ e = UPGRADING →
         queue lm' rid = mkLock (txn_id_ e) EXCLUSIVE true :: rest
         ∧ has_upgrated_ (list_of lm' rid) = false)
    ∧ (granted_ e = false → lock_type_ e = SHARED →
         ∀ waiters tail, e :: rest = waiters ++ tail →
           Forall waiting_shared waiters →
           take (length waiters) (queue lm' rid) = Grant <$> waiters).
Proof.
  intros Hstrict Hfind Hdel. unfold queue in *.
  destruct (find_request_lookup _ _ _ Hfind) as [it Hit].
  unfold Unlock.
  assert (strict_2PL_ lm && negb (bool_decide (GetState txn = COMMITTED))
          && negb (bool_decide (GetState txn = ABORTED)) = false) as ->.
  { destruct (strict_2PL_ lm); [|done].
    destruct (Hstrict eq_refl) as [-> | ->]; done. }
  set (txn1 := if negb (strict_2PL_ lm) && bool_decide (GetState txn = GROWING)
               then SetState SHRINKING txn else txn).
  assert (GetTransactionId txn1 = GetTransactionId txn) as ->.
  { unfold txn1. by destruct (_ && _). }
  rewrite Hfind. cbn -[grant_next]. rewrite Hit. cbn -[grant_next]. rewrite Hdel.
  rewrite bool_decide_eq_false_2 by done.
  destruct (grant_next (e :: rest) (has_upgrated_ (list_of lm rid)))
    as [locks2 h] eqn:Hg.
  eexists _, _. split; [reflexivity|].
  rewrite list_of_set_list. simpl.
  split; [reflexivity|].
  split; [|split; [|split]].
  - intros He. rewrite grant_next_granted in Hg by done. by injection Hg as <- <-.
  - intros He Ht. rewrite grant_next_exclusive in Hg by done. by injection Hg as <- <-.
  - intros He Ht. rewrite grant_next_upgrading in Hg by done. by injection Hg as <- <-.
  - intros He Ht waiters tail Heq Hall.
    pose proof (grant_next_shared_run waiters tail (has_upgrated_ (list_of lm rid)) Hall) as Hrun.
    rewrite <- Heq, Hg in Hrun. exact Hrun.
Qed.

(** C8 where T10 unlocks the record T5 waits for. *)
Lemma C8_witness :
  ∃ lm' txn',
    Unlock (set_list (init false) 7
              (mkList [mkLock 10 EXCLUSIVE true; mkLock 5 EXCLUSIVE false] false))
           (fresh_txn 10) 7 = Some (true, lm', txn')
    ∧ queue lm' 7 = [mkLock 5 EXCLUSIVE true].
Proof.
  pose (lm := set_list (init false) 7
                (mkList [mkLock 10 EXCLUSIVE true; mkLock 5 EXCLUSIVE false] false)).
  destruct (C8_unlock_grant_loop lm (fresh_txn 10) 7 0%nat (mkLock 5 EXCLUSIVE false) [])
    as (lm' & txn' & Hu & _ & _ & Hx & _).
  - intros Hs. vm_compute in Hs. discriminate Hs.
  - vm_compute. reflexivity.
  - vm_compute. reflexivity.
  - exists lm', txn'. split; [exact Hu|].
    destruct (Hx eq_refl eq_refl) as [Hq _]. exact Hq.
Defined.

(** C8 as stated fails where granted entries are at the front: T1 and T2
    hold the shared lock of record 7 and T0 waits for the exclusive lock.
    When T1 unlocks, the entry of T2 at the front is granted and the loop
    of the code stops: T0, the first waiter, is not granted, whereas the
    walk that skips granted entries would grant it. *)
Lemma C8_counterexample :
  ∃ lm' txn',
    Unlock two_readers_one_writer.1 two_readers_one_writer.2 7 = Some (true, lm', txn')
    ∧ delete 0%nat (queue two_readers_one_writer.1 7)
      = [mkLock 2 SHARED true; mkLock 0 EXCLUSIVE false]
    ∧ queue lm' 7 = [mkLock 2 SHARED true; mkLock 0 EXCLUSIVE false]
    ∧ (spec_grant_walk (delete 0%nat (queue two_readers_one_writer.1 7)) false).1
      = [mkLock 2 SHARED true; mkLock 0 EXCLUSIVE true]
    ∧ queue lm' 7
      ≠ (spec_grant_walk (delete 0%nat (queue two_readers_one_writer.1 7)) false).1.
Proof.
  vm_compute. eexists _, _. split; [reflexivity|].
  repeat split. discriminate.
Qed.

(** The loop grants more than a run of SHARED waiters: the entry that
    follows the run is granted too when it waits, whatever its mode.
    Here a reader and a writer wait behind the lock that is released,
    and both are granted. *)
Lemma grant_next_grants_writer_after_readers :
  grant_next [mkLock 1 SHARED false; mkLock 0 EXCLUSIVE false] false
  = ([mkLock 1 SHARED true; mkLock 0 EXCLUSIVE true], false).
Proof. reflexivity. Qed.
End LockFacts.

(** ** B+ tree: running the model *)

Module BTreeExec.
Import BTreePage BTree.

Lemma bind_ret_r {A} (m : M A) s : bind m ret s = m s.
Proof. unfold bind, ret. by destruct (m s) as [[a s']|]. Qed.

Lemma step_start {A} (m : M A) s r : bind m ret s = r → m s = r.
Proof. by rewrite bind_ret_r. Qed.

Lemma step_run {A B} (m : M A) (k : A → M B) s a s' r :
  m s = Some (a, s') → k a s' = r → bind m k s = r.
Proof. unfold bind. by intros -> ->. Qed.

Lemma step_assoc {A B C} (m : M A) (k1 : A → M B) (k2 : B → M C) s r :
  bind m (λ a, bind (k1 a) k2) s = r → bind (bind m k1) k2 s = r.
Proof. unfold bind. by destruct (m s) as [[a s']|]. Qed.

Lemma step_ret {A B} (a : A) (k : A → M B) s r :
  k a s = r → bind (ret a) k s = r.
Proof. done. Qed.

(** Bring the program into the form [bind m k s] with [m] a call:
    nested binds are re-associated, a conditional on [true] or [false]
    and a match on a constructor are reduced; [decide_if] is tried on
    any other conditional. *)
Ltac norm_with decide_if :=
  cbv beta;
  repeat (
    lazymatch goal with
    | |- bind (bind _ _) _ _ = _ => simple apply step_assoc
    | |- bind (ret _) _ _ = _ => simple apply step_ret
    | |- bind (if true then ?a else ?b) ?k ?s = _ =>
        change (bind (if true then a else b) k s) with (bind a k s)
    | |- bind (if false then ?a else ?b) ?k ?s = _ =>
        change (bind (if false then a else b) k s) with (bind b k s)
    | |- bind (if _ then _ else _) _ _ = _ => decide_if ()
    | |- bind (match ?x with _ => _ end) _ _ = _ => progress cbv iota beta zeta
    | |- (match ?x with _ => _ end) _ = _ => progress cbv iota beta zeta
    end; cbv beta).

(** For a program on a state with unknowns: conditionals are left to
    the proof. *)
Ltac norm := norm_with ltac:(fun _ => fail).

(** For a program on a given state: the condition is computed. *)
Ltac decide_by_computation _ :=
  lazymatch goal with
  | |- bind (if ?c then ?a else ?b) ?k ?s = _ =>
      let c' := eval vm_compute in c in
      lazymatch c' with
      | true => change (bind (if c then a else b) k s) with (bind a k s)
      | false => change (bind (if c then a else b) k s) with (bind b k s)
      end
  end.

Ltac enorm := norm_with decide_by_computation.

(** Run the call at the head of the program on the current state. *)
Ltac run :=
  lazymatch goal with
  | |- bind ?m ?k ?s = _ =>
      let r := eval vm_compute in (m s) in
      lazymatch r with
      | Some (?a, ?s') =>
          simple refine (step_run m k s a s' _ _ _);
          [vm_compute; reflexivity | enorm]
      end
  end.

(** Start: [m s = r] becomes [bind m ret s = r]. *)
Ltac start := simple apply step_start; norm.

(** Reduce the projections of a state that is given by its fields. *)
Ltac proj :=
  cbn [root_page_id_ pages next_page_id header_record deleted_pages txn
       page_set deleted_page_set].
End BTreeExec.

(** ** B+ tree: the runs on trees of order 4 *)

Module BTreeRuns.
Import BTreePage BTree Scenarios BTreeExec.

Section Runs.
Variable GetMinSize : BPlusTreePage → Z.
Variable IsSafe : OpType → BPlusTreePage → bool.
(** Any bound of at least one level serves the descents of these runs. *)
Variable d : nat.
Variables v1 v2 v3 v4 v5 : Z.

Lemma inserts_1234 :
  ∃ s1 s2 s3,
    Insert 4 4 IsSafe (S d) 1 v1 true empty_tree = Some (true, s1)
    ∧ Insert 4 4 IsSafe (S d) 2 v2 true s1 = Some (true, s2)
    ∧ Insert 4 4 IsSafe (S d) 3 v3 true s2 = Some (true, s3)
    ∧ Insert 4 4 IsSafe (S d) 4 v4 true s3 = Some (true, tree_1234 v1 v2 v3 v4).
Proof.
  eexists _, _, _.
  split; [vm_compute; reflexivity|].
  split; [vm_compute; reflexivity|].
  split; [vm_compute; reflexivity|].
  vm_compute; reflexivity.
Qed.

Lemma insert_5 :
  Insert 4 4 IsSafe (S d) 5 v5 true (tree_1234 v1 v2 v3 v4)
  = Some (true, tree_12345 v1 v2 v3 v4 v5).
Proof. vm_compute. reflexivity. Qed.

Lemma FindLeafPage_loop_at_leaf depth key leftMost op transaction p ptr :
  IsLeafPage p = true →
  FindLeafPage_loop IsSafe depth key leftMost op transaction p ptr = ret ptr.
Proof. intros Hp. destruct depth; simpl; by rewrite Hp. Qed.

Lemma CoalesceOrRedistribute_at_root {B} height N node transaction
    (k : bool → M B) s p :
  pages s !! node = Some p → IsRootPage p = true →
  bind (CoalesceOrRedistribute GetMinSize IsSafe height N node transaction) k s
  = bind (delete_root <- AdjustRoot node;;
          (if delete_root
           then (if transaction then AddIntoDeletedPageSet (GetPageId p) else fail)
           else ret tt);;;
          ret delete_root) k s.
Proof.
  intros Hp Hr. unfold bind at 1 3.
  replace (CoalesceOrRedistribute GetMinSize IsSafe height N node transaction s)
    with ((delete_root <- AdjustRoot node;;
           (if delete_root
            then (if transaction then AddIntoDeletedPageSet (GetPageId p) else fail)
            else ret tt);;;
           ret delete_root) s); [done|].
  destruct height; simpl; unfold bind at 3, FetchPage at 1; by rewrite Hp, Hr.
Qed.

(** The two conditions on GetMinSize, decided from what is known of it. *)
Ltac underflow H :=
  lazymatch goal with
  | |- bind (if ?a <? GetMinSize ?p then ?x else ?y) ?k ?s = _ =>
      let a' := eval vm_compute in a in
      replace (a <? GetMinSize p) with true
        by (symmetry; apply Z.ltb_lt; change a with a'; apply H; reflexivity)
  | |- bind (if ?a <=? GetMinSize ?p then ?x else ?y) ?k ?s = _ =>
      let a' := eval vm_compute in a in
      replace (a <=? GetMinSize p) with true
        by (symmetry; apply Z.leb_le; change a with a'; apply H; reflexivity)
  end; enorm.

(** C1: on an empty tree of order 4 the inserts of the keys 1 to 5 all
    return true; afterwards the root is an internal page with two
    children and the separator 3, the left leaf holds the keys 1 and 2,
    the right leaf the keys 3, 4 and 5, the left leaf is linked to the
    right one, and GetValue of key 4 returns true (with or without a
    transaction). *)
Theorem C1_insert_sorted_split :
  ∃ s1 s2 s3 s4 s5 root left right,
    Insert 4 4 IsSafe (S d) 1 v1 true empty_tree = Some (true, s1)
    ∧ Insert 4 4 IsSafe (S d) 2 v2 true s1 = Some (true, s2)
    ∧ Insert 4 4 IsSafe (S d) 3 v3 true s2 = Some (true, s3)
    ∧ Insert 4 4 IsSafe (S d) 4 v4 true s3 = Some (true, s4)
    ∧ Insert 4 4 IsSafe (S d) 5 v5 true s4 = Some (true, s5)
    ∧ pages s5 !! root_page_id_ s5 = Some root
    ∧ page_type_ root = INTERNAL_PAGE
    ∧ IsRootPage root = true
    ∧ GetSize root = 2
    ∧ KeyAt root 1 = 3
    ∧ pages s5 !! ValueAt root 0 = Some left
    ∧ pages s5 !! ValueAt root 1 = Some right
    ∧ IsLeafPage left = true
    ∧ items left = [(1, v1); (2, v2)]
    ∧ IsLeafPage right = true
    ∧ items right = [(3, v3); (4, v4); (5, v5)]
    ∧ GetNextPageId left = ValueAt root 1
    ∧ GetNextPageId right = INVALID_PAGE_ID
    ∧ ∀ transaction, ∃ s6,
        GetValue IsSafe (S d) 4 transaction s5 = Some (Some v4, s6).
Proof.
  destruct inserts_1234 as (s1 & s2 & s3 & H1 & H2 & H3 & H4).
  exists s1, s2, s3, (tree_1234 v1 v2 v3 v4), (tree_12345 v1 v2 v3 v4 v5).
  eexists _, _, _.
  split; [exact H1|]. split; [exact H2|]. split; [exact H3|]. split; [exact H4|].
  split; [exact insert_5|].
  split; [vm_compute; reflexivity|].
  do 4 (split; [reflexivity|]).
  split; [vm_compute; reflexivity|].
  split; [vm_compute; reflexivity|].
  do 6 (split; [reflexivity|]).
  intros [|]; eexists.
  all: start; unfold GetValue; enorm; unfold FindLeafPage at 1; enorm; do 2 run.
  all: cbn [FindLeafPage_loop]; enorm.
  all: run; rewrite FindLeafPage_loop_at_leaf by reflexivity; enorm; do 2 run; reflexivity.
Qed.

(** Any bound above four rounds serves the scan of the leaf chain. *)
Variable n : nat.

(** C3: on the tree left by the inserts of 1 to 5, Remove of key 1
    merges the two leaves and replaces the root: afterwards the root is
    a leaf page that holds the keys 2, 3, 4, 5 and has no successor, and
    the leaf chain read from the leftmost leaf is 2, 3, 4, 5.  GetMinSize
    is only known to make a non-root leaf of one entry underfull and to
    be at least 1 on an internal page (pages of [max_size] 4). *)
Theorem C3_delete_coalesce :
  (∀ p, IsLeafPage p = true → IsRootPage p = false → GetMaxSize p = 4 → 1 < GetMinSize p) →
  (∀ p, IsLeafPage p = false → GetMaxSize p = 4 → 1 ≤ GetMinSize p) →
  ∃ s' root,
    Remove GetMinSize IsSafe (S d) 1 true (tree_12345 v1 v2 v3 v4 v5) = Some (tt, s')
    ∧ pages s' !! root_page_id_ s' = Some root
    ∧ IsLeafPage root = true
    ∧ IsRootPage root = true
    ∧ items root = [(2, v2); (3, v3); (4, v4); (5, v5)]
    ∧ GetNextPageId root = INVALID_PAGE_ID
    ∧ ∃ s'', leaf_chain IsSafe (S d) (5 + n) s' = Some ([2; 3; 4; 5], s'').
Proof.
  intros Hleaf Hint.
  destruct (IsSafe DELETE
              (mkPage LEAF_PAGE 2 4 3 1 2
                 ([(1, v1); (2, v2); (3, v3); (4, v4); (5, v5)] : list MappingType)))
    eqn:Hsafe.
  all: eexists _, _.
  all: split;
    [ start; unfold Remove; enorm; run;
      unfold FindLeafPage at 1; enorm; run; run;
      cbn [FindLeafPage_loop]; enorm;
      unfold ConcurrentFetchPage at 1; enorm; run;
      lazymatch goal with
      | |- context [IsSafe DELETE ?x] =>
          lazymatch type of Hsafe with
          | _ = ?b => replace (IsSafe DELETE x) with b by (symmetry; exact Hsafe)
          end
      end; enorm
    | ].
  1: run.
  1,3: run;
    rewrite FindLeafPage_loop_at_leaf by reflexivity; enorm;
    do 2 run;
    underflow Hleaf;
    cbn [CoalesceOrRedistribute]; enorm;
    do 6 run;
    unfold Coalesce_with; enorm;
    do 5 run;
    underflow Hint;
    erewrite CoalesceOrRedistribute_at_root by (vm_compute; reflexivity); enorm;
    do 3 run;
    reflexivity.
  all: split; [vm_compute; reflexivity|].
  all: do 4 (split; [reflexivity|]).
  all: eexists; vm_compute; reflexivity.
Qed.
End Runs.

(** C3 with the sample page methods. *)
Lemma C3_witness :
  ∃ s', Remove GetMinSize_sample IsSafe_sample 1 1 true (tree_12345 10 20 30 40 50)
        = Some (tt, s')
        ∧ root_page_id_ s' = 1.
Proof.
  destruct (C3_delete_coalesce GetMinSize_sample IsSafe_sample 0%nat 10 20 30 40 50 0%nat)
    as (s' & root & Hrun & _).
  - intros p Hl Hr Hm. unfold GetMinSize_sample. rewrite Hr, Hm. reflexivity.
  - intros p Hl Hm. unfold GetMinSize_sample. rewrite Hl, Hm.
    destruct (IsRootPage p); vm_compute; discriminate.
  - exists s'. split; [exact Hrun|].
    revert Hrun. vm_compute. intros [= <-]. reflexivity.
Defined.
End BTreeRuns.
(** ** B+ tree: the slot array *)

Module BTreePageFacts.
Import BTreePage.

Lemma slot_set_slot a i x j :
  0 ≤ i → slot (set_slot a i x) j = if decide (j = i) then x else slot a j.
Proof.
  intros Hi. unfold slot, set_slot.
  destruct (Z.ltb_spec i 0) as [|_]; [lia|].
  destruct (Z.ltb_spec j 0) as [Hj|Hj].
  { destruct (decide (j = i)); [lia|done]. }
  destruct (Nat.ltb_spec (Z.to_nat i) (length a)) as [Hlt|Hge].
  - destruct (decide (j = i)) as [->|Hne].
    + apply nth_lookup_Some with (d := (0, 0)).
      by apply list_lookup_insert_eq.
    + rewrite !nth_lookup. by rewrite list_lookup_insert_ne by lia.
  - rewrite !nth_lookup.
    destruct (decide (j = i)) as [->|Hne].
    + rewrite lookup_app_r by lia.
      rewrite lookup_app_r by (rewrite length_replicate; lia).
      rewrite length_replicate.
      replace (Z.to_nat i - length a - (Z.to_nat i - length a))%nat with 0%nat by lia.
      done.
    + destruct (decide (Z.to_nat j < length a)%nat).
      * by rewrite lookup_app_l by lia.
      * rewrite lookup_app_r by lia.
        rewrite (lookup_ge_None_2 a) by lia. simpl.
        destruct (decide (Z.to_nat j - length a < Z.to_nat i - length a)%nat).
        -- rewrite lookup_app_l by (rewrite length_replicate; lia).
           by rewrite lookup_replicate_2 by lia.
        -- rewrite lookup_app_r by (rewrite length_replicate; lia).
           rewrite length_replicate.
           rewrite lookup_ge_None_2; [done|]. simpl. lia.
Qed.

Lemma slot_copy_items n i off src a j :
  0 ≤ off → 0 ≤ i →
  slot (copy_items n i off src a) j
  = if decide (off + i ≤ j < off + i + Z.of_nat n) then src (j - off) else slot a j.
Proof.
  intros Hoff. revert i a. induction n as [|n IH]; intros i a Hi; simpl.
  - destruct (decide _); [lia|done].
  - rewrite IH by lia. rewrite slot_set_slot by lia.
    repeat destruct (decide _); try lia; try done.
    subst j. f_equal. lia.
Qed.

Lemma items_eq p :
  items p = (λ i : nat, slot (array p) (Z.of_nat i)) <$> seq 0 (Z.to_nat (size_ p)).
Proof. reflexivity. Qed.

Lemma items_take p c :
  0 ≤ c ≤ size_ p → items (SetSize c p) = take (Z.to_nat c) (items p).
Proof.
  intros Hc. rewrite !items_eq. simpl.
  rewrite <- fmap_take, take_seq. f_equal. f_equal. lia.
Qed.
End BTreePageFacts.

(** ** B+ tree: the leaf split *)

Module BTreeSplit.
Import BTreePage BTree BTreePageFacts BTreeExec.

Lemma FetchPage_eq s id p : pages s !! id = Some p → FetchPage id s = Some (p, s).
Proof. unfold FetchPage. by intros ->. Qed.

Lemma modify_eq s id f p :
  pages s !! id = Some p →
  modify id f s
  = Some (tt, mkTree (root_page_id_ s) (<[id := f p]> (pages s)) (next_page_id s)
                     (header_record s) (deleted_pages s) (txn s)).
Proof. unfold modify. by intros ->. Qed.

Section Split.
Variable leaf_max_size : Z.
Variable internal_max_size : Z.
Variable IsSafe : OpType → BPlusTreePage → bool.

Lemma Split_leaf s node p' :
  pages s !! node = Some p' →
  next_page_id s ≠ node →
  ∃ s1,
    Split leaf_max_size internal_max_size LeafPage node true s
    = Some (next_page_id s, s1)
    ∧ pages s1 !! node = Some (left_of_split p' (next_page_id s))
    ∧ pages s1 !! next_page_id s = Some (right_of_split leaf_max_size p' (next_page_id s))
    ∧ (∀ id, id ≠ node → id ≠ next_page_id s → pages s1 !! id = pages s !! id)
    ∧ root_page_id_ s1 = root_page_id_ s
    ∧ next_page_id s1 = next_page_id s + 1.
Proof.
  intros Hp Hne. destruct s as [root pgs next_id header deleted t].
  cbn [pages next_page_id root_page_id_] in *.
  eexists. split.
  { start. unfold Split. norm.
    eapply step_run; [reflexivity|]. norm.
    unfold AddIntoPageSet. norm.
    eapply step_run; [reflexivity|]. norm.
    eapply step_run; [reflexivity|]. norm.
    eapply step_run.
    { apply FetchPage_eq. simpl. rewrite lookup_insert_ne by done. exact Hp. }
    norm.
    eapply step_run.
    { apply modify_eq. simpl. apply lookup_insert_eq. }
    norm. unfold Leaf_MoveHalfTo. norm. proj.
    eapply step_run.
    { apply FetchPage_eq. simpl. rewrite !lookup_insert_ne by done. exact Hp. }
    norm.
    eapply step_run.
    { apply modify_eq. simpl. apply lookup_insert_eq. }
    norm. proj.
    eapply step_run.
    { apply modify_eq. simpl. apply lookup_insert_eq. }
    norm. proj.
    eapply step_run.
    { apply FetchPage_eq. simpl. apply lookup_insert_eq. }
    norm.
    eapply step_run.
    { apply modify_eq. simpl. rewrite !lookup_insert_ne by done. exact Hp. }
    norm. proj.
    eapply step_run.
    { apply modify_eq. simpl. apply lookup_insert_eq. }
    norm. proj. reflexivity. }
  simpl. split; [by rewrite lookup_insert_eq|].
  split.
  { rewrite !(lookup_insert_ne _ node) by done. by rewrite lookup_insert_eq. }
  split; [|done].
  intros id H1 H2. by rewrite !lookup_insert_ne by done.
Qed.

Lemma split_index_bounds p :
  0 ≤ GetMaxSize p →
  split_index p = (GetMaxSize p + 1) `div` 2
  ∧ 0 ≤ split_index p ∧ split_index p < GetMaxSize p + 1.
Proof.
  intros Hm. unfold split_index. rewrite Z.quot_div_nonneg by lia.
  split; [done|]. split; [apply Z.div_pos; lia|].
  apply Z.div_lt_upper_bound; lia.
Qed.

Lemma items_right_of_split p new_id :
  0 ≤ GetMaxSize p → GetSize p = GetMaxSize p + 1 →
  items (right_of_split leaf_max_size p new_id)
  = drop (Z.to_nat (split_index p)) (items p).
Proof.
  intros Hm Hs. destruct (split_index_bounds p Hm) as (_ & Hc0 & Hc1).
  unfold GetSize in Hs. rewrite !items_eq. simpl. rewrite Hs.
  rewrite <- fmap_drop, drop_seq.
  replace (seq (0 + Z.to_nat (split_index p))
               (Z.to_nat (GetMaxSize p + 1) - Z.to_nat (split_index p)))
    with (Nat.add (Z.to_nat (split_index p))
            <$> seq 0 (Z.to_nat (GetMaxSize p + 1 - split_index p)))
    by (rewrite fmap_add_seq; f_equal; lia).
  rewrite <- list_fmap_compose.
  apply list_fmap_ext. intros i j Hj.
  apply lookup_seq in Hj as [-> Hlt]. simpl.
  rewrite slot_copy_items by lia.
  rewrite decide_True by lia.
  f_equal. lia.
Qed.

Lemma KeyAt_right_of_split p new_id :
  0 ≤ GetMaxSize p →
  KeyAt (right_of_split leaf_max_size p new_id) 0 = KeyAt p (split_index p).
Proof.
  intros Hm. destruct (split_index_bounds p Hm) as (_ & Hc0 & Hc1).
  unfold KeyAt. simpl. rewrite slot_copy_items by lia.
  rewrite decide_True by lia. do 2 f_equal. lia.
Qed.

(** C2, as the code has it: when the leaf [insert_page] holds more than
    [max_size] entries after the insert, Split takes a new page from the
    buffer pool and MoveHalfTo moves to it exactly the slots from index
    (max_size + 1) / 2, rounded down, onward; the slots below stay; the
    old page is linked to the new one and the new one to the old page's
    former successor; and InsertIntoLeaf goes on with InsertIntoParent
    called on the old page, the first key of the new page, and the new
    page. *)
Theorem C2_leaf_split_moves_upper_half (depth : nat) (key value : Z)
    (s s0 : Tree) (insert_page : Z) (p : BPlusTreePage) :
  FindLeafPage IsSafe depth key false INSERT true s = Some (Some insert_page, s0) →
  pages s0 !! insert_page = Some p →
  Leaf_Lookup p key = None →
  0 ≤ GetSize p ≤ GetMaxSize p →
  GetMaxSize p < GetSize (Leaf_Insert key value p) →
  next_page_id s0 ≠ insert_page →
  let p' := Leaf_Insert key value p in
  let new_id := next_page_id s0 in
  ∃ sa s1 left right,
    modify insert_page (Leaf_Insert key value) s0 = Some (tt, sa)
    ∧ Split leaf_max_size internal_max_size LeafPage insert_page true sa
      = Some (new_id, s1)
    ∧ pages s1 !! insert_page = Some left
    ∧ pages s1 !! new_id = Some right
    ∧ split_index p' = (GetMaxSize p + 1) `div` 2
    ∧ items right = drop (Z.to_nat (split_index p')) (items p')
    ∧ items left = take (Z.to_nat (split_index p')) (items p')
    ∧ GetNextPageId left = new_id
    ∧ GetPageId right = new_id
    ∧ GetNextPageId right = GetNextPageId p
    ∧ KeyAt right 0 = KeyAt p' (split_index p')
    ∧ InsertIntoLeaf leaf_max_size internal_max_size IsSafe depth key value true s
      = (InsertIntoParent leaf_max_size internal_max_size depth insert_page
           (KeyAt right 0) new_id true;;;
         RemovePagesInTransaction true INVALID_PAGE_ID;;;
         ret true) s1.
Proof.
  intros Hfind Hp Hlk Hsz Hover Hne p' new_id.
  assert (GetMaxSize p' = GetMaxSize p) as Hmax by reflexivity.
  assert (GetSize p' = GetSize p + 1) as Hsize by reflexivity.
  assert (GetNextPageId p' = GetNextPageId p) as Hnext by reflexivity.
  fold p' in Hover.
  set (sa := mkTree (root_page_id_ s0) (<[insert_page := p']> (pages s0))
                    (next_page_id s0) (header_record s0) (deleted_pages s0) (txn s0)).
  assert (modify insert_page (Leaf_Insert key value) s0 = Some (tt, sa)) as Hmod
    by (by apply modify_eq).
  assert (pages sa !! insert_page = Some p') as Hp' by apply lookup_insert_eq.
  destruct (Split_leaf sa insert_page p' Hp' Hne)
    as (s1 & Hsplit & Hleft & Hright & _).
  change (next_page_id sa) with new_id in *.
  destruct (split_index_bounds p') as (Hidx & Hc0 & Hc1); [lia|].
  exists sa, s1, (left_of_split p' new_id), (right_of_split leaf_max_size p' new_id).
  split; [exact Hmod|]. split; [exact Hsplit|].
  split; [exact Hleft|]. split; [exact Hright|].
  split; [by rewrite Hidx, Hmax|].
  split; [apply items_right_of_split; lia|].
  split.
  { unfold left_of_split. rewrite items_take; [done|]. simpl. unfold GetSize in *. lia. }
  do 3 (split; [reflexivity|]).
  split; [apply KeyAt_right_of_split; lia|].
  unfold InsertIntoLeaf.
  eapply step_run; [exact Hfind|]. norm.
  eapply step_run; [by apply FetchPage_eq|]. norm.
  rewrite Hlk. norm.
  eapply step_run; [exact Hmod|]. norm.
  eapply step_run; [by apply FetchPage_eq|]. norm.
  replace (GetMaxSize p' <? GetSize p') with true by (symmetry; apply Z.ltb_lt; lia).
  norm.
  eapply step_run; [exact Hsplit|]. norm.
  eapply step_run; [by apply FetchPage_eq|]. norm.
  reflexivity.
Qed.
End Split.

(** C2 on the root leaf that holds the keys 1 to 4 when key 5 arrives:
    the new page 2 receives the slots from index 2 onward. *)
Lemma C2_witness :
  ∃ s1 right,
    pages s1 !! 2 = Some right
    ∧ items right = [(3, 30); (4, 40); (5, 50)]
    ∧ InsertIntoLeaf 4 4 Scenarios.IsSafe_sample 1 5 50 true
        (Scenarios.tree_1234 10 20 30 40)
      = (InsertIntoParent 4 4 1 1 (KeyAt right 0) 2 true;;;
         RemovePagesInTransaction true INVALID_PAGE_ID;;;
         ret true) s1.
Proof.
  destruct (C2_leaf_split_moves_upper_half 4 4 Scenarios.IsSafe_sample 1 5 50
              (Scenarios.tree_1234 10 20 30 40)
              (Scenarios.tree_1234_latched 10 20 30 40) 1
              (mkPage LEAF_PAGE 4 4 INVALID_PAGE_ID 1 INVALID_PAGE_ID
                 [(1, 10); (2, 20); (3, 30); (4, 40)]))
    as (sa & s1 & left & right & _ & _ & _ & Hright & _ & Hitems & _ & _ & _ & _ & _ & Hrun).
  - vm_compute. reflexivity.
  - vm_compute. reflexivity.
  - vm_compute. reflexivity.
  - vm_compute. split; discriminate.
  - vm_compute. reflexivity.
  - vm_compute. discriminate.
  - exists s1, right. split; [exact Hright|]. split; [|exact Hrun].
    rewrite Hitems. vm_compute. reflexivity.
Defined.

(** C2 as stated fails on the same split: the overfull page holds the
    keys 1 to 5 and [max_size] is 4; the new page receives the slots
    from index 2 onward, that is 3, 4 and 5, and not those from index
    ceil((4+1)/2) = 3 onward, which are 4 and 5. *)
Lemma C2_counterexample :
  let p' := Leaf_Insert 5 50
              (mkPage LEAF_PAGE 4 4 INVALID_PAGE_ID 1 INVALID_PAGE_ID
                 [(1, 10); (2, 20); (3, 30); (4, 40)]) in
  ∃ sa s1 right,
    modify 1 (Leaf_Insert 5 50) (Scenarios.tree_1234_latched 10 20 30 40) = Some (tt, sa)
    ∧ Split 4 4 LeafPage 1 true sa = Some (2, s1)
    ∧ pages s1 !! 2 = Some right
    ∧ GetMaxSize p' = 4
    ∧ items p' = [(1, 10); (2, 20); (3, 30); (4, 40); (5, 50)]
    ∧ items right = [(3, 30); (4, 40); (5, 50)]
    ∧ Scenarios.spec_split_index (GetMaxSize p') = 3
    ∧ drop (Z.to_nat (Scenarios.spec_split_index (GetMaxSize p'))) (items p')
      = [(4, 40); (5, 50)]
    ∧ items right
      ≠ drop (Z.to_nat (Scenarios.spec_split_index (GetMaxSize p'))) (items p').
Proof.
  intros p'. eexists _, _, _.
  split; [vm_compute; reflexivity|].
  split; [vm_compute; reflexivity|].
  split; [vm_compute; reflexivity|].
  vm_compute. repeat split. discriminate.
Qed.
End BTreeSplit.

(** ** B+ tree: operations that leave the tree as it is *)

Module BTreeQuiet.
Import BTreePage BTree BTreeExec BTreeSplit.

Lemma same_tree_refl s : same_tree s s.
Proof. by repeat split. Qed.

Lemma same_tree_trans s1 s2 s3 : same_tree s1 s2 → same_tree s2 s3 → same_tree s1 s3.
Proof.
  intros (A1 & A2 & A3 & A4) (B1 & B2 & B3 & B4). repeat split; congruence.
Qed.

Lemma same_tree_sym s1 s2 : same_tree s1 s2 → same_tree s2 s1.
Proof. intros (A1 & A2 & A3 & A4). by repeat split. Qed.

Lemma kept_refl s : kept s s.
Proof.
  split; [apply same_tree_refl|]. split; [done|].
  exists []. split; [by rewrite app_nil_r|]. intros id Hid. by apply elem_of_nil in Hid.
Qed.

Lemma kept_trans s1 s2 s3 : kept s1 s2 → kept s2 s3 → kept s1 s3.
Proof.
  intros (A & Asub & l1 & Al & Ain) (B & Bsub & l2 & Bl & Bin).
  split; [by eapply same_tree_trans|]. split; [set_solver|].
  exists (l1 ++ l2). split; [by rewrite Bl, Al, app_assoc|].
  intros id [Hid|Hid]%elem_of_app; [by apply Ain|]. apply Asub, Bin, Hid.
Qed.

Lemma kept_same_tree s s' : kept s s' → same_tree s s'.
Proof. by intros [H _]. Qed.


Lemma sim_ret {A} (a : A) : sim (ret a) (ret a).
Proof. intros s s2 _. simpl. auto using kept_refl. Qed.

Lemma sim_fail {A} : sim (@fail A) fail.
Proof. by intros s s2 _. Qed.

Lemma sim_bind {A B} (m m' : M A) (k k' : A → M B) :
  sim m m' → (∀ a, sim (k a) (k' a)) → sim (bind m k) (bind m' k').
Proof.
  intros Hm Hk s s2 Hu. unfold bind. specialize (Hm s s2 Hu).
  destruct (m s) as [[a s1]|], (m' s2) as [[a' s1']|]; try done.
  destruct Hm as (<- & Hu1 & Hu2).
  assert (same_tree s1 s1') as Hu3.
  { eapply same_tree_trans; [apply same_tree_sym, kept_same_tree, Hu1|].
    eapply same_tree_trans; [exact Hu|]. apply kept_same_tree, Hu2. }
  specialize (Hk a s1 s1' Hu3).
  destruct (k a s1) as [[b t1]|], (k' a s1') as [[b' t1']|]; try done.
  destruct Hk as (<- & Hv1 & Hv2).
  split; [done|].
  split; [exact (kept_trans _ _ _ Hu1 Hv1) | exact (kept_trans _ _ _ Hu2 Hv2)].
Qed.

Lemma sim_quiet (m m' : M unit) : quiet m → quiet m' → sim m m'.
Proof.
  intros Hm Hm' s s2 Hu.
  destruct (Hm s) as (s1 & -> & Hu1).
  destruct (Hm' s2) as (s1' & -> & Hu1').
  done.
Qed.

Lemma sim_FetchPage id : sim (FetchPage id) (FetchPage id).
Proof.
  intros s s2 Hu. unfold FetchPage.
  destruct Hu as (_ & -> & _). destruct (pages s !! id); [|done].
  split; [done|]. split; apply kept_refl.
Qed.

Lemma sim_get_root : sim get_root get_root.
Proof.
  intros s s2 Hu. unfold get_root.
  split; [by destruct Hu as (-> & _)|]. split; apply kept_refl.
Qed.

Lemma quiet_ret : quiet (ret tt).
Proof. intros s. exists s. split; [done|apply kept_refl]. Qed.

Lemma quiet_bind (m m' : M unit) : quiet m → quiet m' → quiet (m;;; m').
Proof.
  intros Hm Hm' s. destruct (Hm s) as (s1 & H1 & K1).
  destruct (Hm' s1) as (s2 & H2 & K2).
  exists s2. split; [|by eapply kept_trans].
  unfold bind. by rewrite H1.
Qed.

Lemma quiet_AddIntoPageSet id : quiet (AddIntoPageSet id).
Proof.
  intros s. eexists. split; [reflexivity|].
  split; [by repeat split|]. split; [done|].
  exists []. split; [by rewrite app_nil_r|]. intros ? Hid. by apply elem_of_nil in Hid.
Qed.

Lemma quiet_if (b : bool) m m' : quiet m → quiet m' → quiet (if b then m else m').
Proof. by destruct b. Qed.

Lemma quiet_release_page id : quiet (release_page id).
Proof.
  intros s. unfold release_page, bind, get_txn.
  destruct (decide (id ∈ deleted_page_set (txn s))) as [Hin|Hnin].
  - eexists. split; [reflexivity|]. simpl.
    split; [by repeat split|]. split; [set_solver|].
    exists [id]. split; [done|]. intros ? ->%list_elem_of_singleton. exact Hin.
  - exists s. split; [done|apply kept_refl].
Qed.

Lemma quiet_release_pages ids : quiet (release_pages ids).
Proof.
  induction ids as [|id ids IH]; simpl; [apply quiet_ret|].
  apply quiet_bind; [apply quiet_release_page | exact IH].
Qed.

Lemma quiet_RemovePagesInTransaction transaction cur_id :
  transaction = true ∨ cur_id ≠ INVALID_PAGE_ID →
  quiet (RemovePagesInTransaction transaction cur_id).
Proof.
  intros Hheld s. unfold RemovePagesInTransaction.
  destruct transaction.
  2:{ destruct Hheld as [?|Hcur]; [done|].
      rewrite (proj2 (Z.eqb_neq _ _) Hcur). apply quiet_ret. }
  unfold bind at 1. unfold get_txn at 1. unfold bind at 1.
  destruct (quiet_release_pages (page_set (txn s)) s) as (s1 & -> & K1).
  eexists. split; [reflexivity|].
  eapply kept_trans; [exact K1|]. simpl.
  split; [by repeat split|]. split; [done|].
  exists []. split; [by rewrite app_nil_r|]. intros ? Hid. by apply elem_of_nil in Hid.
Qed.

(** With a transaction RemovePagesInTransaction always returns, keeps
    the tree and leaves the page set empty. *)
Lemma RemovePagesInTransaction_true s :
  ∃ s', RemovePagesInTransaction true INVALID_PAGE_ID s = Some (tt, s')
        ∧ kept s s' ∧ page_set (txn s') = [].
Proof.
  destruct (quiet_release_pages (page_set (txn s)) s) as (s1 & Hrun & K1).
  unfold RemovePagesInTransaction. unfold bind at 1. unfold get_txn at 1.
  unfold bind at 1. rewrite Hrun.
  eexists. split; [reflexivity|]. split; [|done].
  eapply kept_trans; [exact K1|]. simpl.
  split; [by repeat split|]. split; [done|].
  exists []. split; [by rewrite app_nil_r|]. intros ? Hid. by apply elem_of_nil in Hid.
Qed.

Section Descent.
Variable IsSafe : OpType → BPlusTreePage → bool.

Lemma sim_ConcurrentFetchPage page_id op op' previous_id transaction transaction' :
  sim (ConcurrentFetchPage IsSafe page_id op previous_id transaction)
      (ConcurrentFetchPage IsSafe page_id op' previous_id transaction').
Proof.
  unfold ConcurrentFetchPage.
  apply sim_bind; [apply sim_FetchPage|]. intros p.
  apply sim_bind.
  { apply sim_quiet.
    all: destruct (Z.ltb_spec 0 previous_id) as [Hpos|_]; [|apply quiet_ret].
    all: apply quiet_if; [|apply quiet_ret].
    all: apply quiet_RemovePagesInTransaction; right; unfold INVALID_PAGE_ID; lia. }
  intros _. apply sim_bind; [|intros _; apply sim_ret].
  apply sim_quiet; apply quiet_if; auto using quiet_AddIntoPageSet, quiet_ret.
Qed.

Lemma sim_FindLeafPage_loop depth key leftMost op op' transaction transaction' p ptr :
  sim (FindLeafPage_loop IsSafe depth key leftMost op transaction p ptr)
      (FindLeafPage_loop IsSafe depth key leftMost op' transaction' p ptr).
Proof.
  revert p ptr. induction depth as [|depth IH]; intros p ptr; simpl.
  - destruct (IsLeafPage p); [apply sim_ret | apply sim_fail].
  - destruct (IsLeafPage p); [apply sim_ret|].
    apply sim_bind; [apply sim_ConcurrentFetchPage|]. intros child. apply IH.
Qed.

Lemma sim_FindLeafPage depth key leftMost op op' transaction transaction' :
  sim (FindLeafPage IsSafe depth key leftMost op transaction)
      (FindLeafPage IsSafe depth key leftMost op' transaction').
Proof.
  unfold FindLeafPage. apply sim_bind; [apply sim_get_root|]. intros root.
  destruct (root =? INVALID_PAGE_ID); [apply sim_ret|].
  apply sim_bind; [apply sim_ConcurrentFetchPage|]. intros p.
  apply sim_bind; [apply sim_FindLeafPage_loop|]. intros leaf. apply sim_ret.
Qed.

Lemma sim_deref it : sim (deref it) (deref it).
Proof.
  unfold deref. destruct (leaf_ it); [|apply sim_fail].
  apply sim_bind; [apply sim_FetchPage|]. intros p. apply sim_ret.
Qed.

Lemma sim_next it : sim (next it) (next it).
Proof.
  unfold next. destruct (leaf_ it); [|apply sim_fail].
  apply sim_bind; [apply sim_FetchPage|]. intros p.
  destruct (_ <=? _); [|apply sim_ret].
  destruct (_ =? _); [apply sim_ret|].
  apply sim_bind; [apply sim_FetchPage|]. intros _. apply sim_ret.
Qed.

Lemma sim_visit n it : sim (visit n it) (visit n it).
Proof.
  revert it. induction n as [|n IH]; intros it; simpl.
  - destruct (isEnd it); [apply sim_ret | apply sim_fail].
  - destruct (isEnd it); [apply sim_ret|].
    apply sim_bind; [apply sim_deref|]. intros x.
    apply sim_bind; [apply sim_next|]. intros it'.
    apply sim_bind; [apply IH|]. intros xs. apply sim_ret.
Qed.

Lemma sim_leaf_chain depth n :
  sim (leaf_chain IsSafe depth n) (leaf_chain IsSafe depth n).
Proof.
  unfold leaf_chain, Begin.
  apply sim_bind.
  { apply sim_bind; [apply sim_FindLeafPage|]. intros l. apply sim_ret. }
  intros it. apply sim_bind; [apply sim_visit|]. intros xs. apply sim_ret.
Qed.

Lemma leaf_chain_same_tree depth n s s' :
  same_tree s s' →
  fst <$> leaf_chain IsSafe depth n s' = fst <$> leaf_chain IsSafe depth n s.
Proof.
  intros Hu. pose proof (sim_leaf_chain depth n s s' Hu) as H.
  destruct (leaf_chain IsSafe depth n s) as [[a s1]|],
           (leaf_chain IsSafe depth n s') as [[a' s1']|]; try done.
  destruct H as (-> & _). done.
Qed.

(** What GetValue tells about the descent: the tree is not empty, the
    descent of any operation reaches the same leaf, and the result is
    what Lookup finds in this leaf. *)
Lemma GetValue_inv depth key transaction0 s r s0 op transaction :
  GetValue IsSafe depth key transaction0 s = Some (r, s0) →
  (root_page_id_ s =? INVALID_PAGE_ID) = true ∧ r = None
  ∨ (root_page_id_ s =? INVALID_PAGE_ID) = false
    ∧ ∃ leaf s1 p,
        FindLeafPage IsSafe depth key false op transaction s = Some (Some leaf, s1)
        ∧ kept s s1
        ∧ pages s !! leaf = Some p
        ∧ r = Leaf_Lookup p key.
Proof.
  intros Hget. unfold GetValue in Hget.
  pose proof (sim_FindLeafPage depth key false READ op transaction0 transaction
                s s (same_tree_refl s)) as Hsim.
  unfold bind at 1 in Hget.
  destruct (FindLeafPage IsSafe depth key false READ transaction0 s)
    as [[found s1]|] eqn:E1; [|done].
  destruct (FindLeafPage IsSafe depth key false op transaction s)
    as [[found' s1']|] eqn:E2; [|done].
  destruct Hsim as (<- & Hu1 & Hu1').
  destruct (root_page_id_ s =? INVALID_PAGE_ID) eqn:Hroot.
  - left. split; [done|].
    unfold FindLeafPage, bind, get_root in E1. rewrite Hroot in E1.
    injection E1 as <- <-. by injection Hget as <- _.
  - right. split; [done|].
    destruct found as [leaf|].
    2:{ unfold FindLeafPage, bind, get_root in E1. rewrite Hroot in E1.
        destruct (ConcurrentFetchPage _ _ _ _ _ _) as [[? ?]|]; [|done].
        by destruct (FindLeafPage_loop _ _ _ _ _ _ _ _ _) as [[? ?]|]. }
    unfold bind, FetchPage in Hget.
    assert (pages s1 = pages s) as Hp1 by apply Hu1.
    rewrite Hp1 in Hget.
    destruct (pages s !! leaf) as [p|] eqn:Hp; [|done].
    destruct (RemovePagesInTransaction transaction0 (GetPageId p) s1) as [[[] s2]|]; [|done].
    injection Hget as <- _.
    by exists leaf, s1', p.
Qed.

Lemma RemoveAndDeleteRecord_absent key p :
  Leaf_Lookup p key = None → RemoveAndDeleteRecord key p = p.
Proof.
  unfold Leaf_Lookup, RemoveAndDeleteRecord. intros Hlk.
  destruct (Z.ltb_spec (KeyIndex p key) (GetSize p)) as [Hlt|Hge].
  - destruct (Z.eqb_spec (KeyAt p (KeyIndex p key)) key) as [Heq|Hne]; [done|].
    destruct (Z.eqb_spec key (KeyAt p (KeyIndex p key))) as [Heq|_]; [congruence|].
    by rewrite orb_true_r.
  - by rewrite (proj2 (Z.leb_le _ _) Hge).
Qed.

Section Operations.
Variable leaf_max_size : Z.
Variable internal_max_size : Z.
Variable GetMinSize : BPlusTreePage → Z.

(** C4: when [key] is in the tree (GetValue finds it), Insert of [key],
    run with a transaction, returns false and changes nothing of the
    tree: the root page id, every page, the allocation counter and the
    header record are as before, and so is the leaf chain; no page
    enters the transaction's deleted-page set.  The pages latched on the
    way are released through the page set of the transaction. *)
Theorem C4_duplicate_insert_changes_nothing (depth : nat) (key value : Z)
    (transaction0 : bool) (s s0 : Tree) (v : Z) :
  GetValue IsSafe depth key transaction0 s = Some (Some v, s0) →
  ∃ s',
    Insert leaf_max_size internal_max_size IsSafe depth key value true s
    = Some (false, s')
    ∧ root_page_id_ s' = root_page_id_ s
    ∧ pages s' = pages s
    ∧ next_page_id s' = next_page_id s
    ∧ header_record s' = header_record s
    ∧ kept s s'
    ∧ page_set (txn s') = []
    ∧ ∀ n, fst <$> leaf_chain IsSafe depth n s' = fst <$> leaf_chain IsSafe depth n s.
Proof.
  intros Hget.
  destruct (GetValue_inv _ _ _ _ _ _ INSERT true Hget)
    as [[_ ?]|(Hroot & leaf & s1 & p & Hfind & Hu1 & Hp & Hlk)]; [done|].
  destruct (RemovePagesInTransaction_true s1) as (s2 & Hrel & Hu2 & Hset).
  pose proof (kept_trans _ _ _ Hu1 Hu2) as Hu.
  exists s2. split.
  { unfold Insert. eapply step_run; [reflexivity|]. norm.
    rewrite Hroot. unfold InsertIntoLeaf.
    eapply step_run; [exact Hfind|]. norm.
    eapply step_run.
    { apply FetchPage_eq. destruct Hu1 as ((_ & -> & _) & _). exact Hp. }
    norm. rewrite <- Hlk. norm.
    eapply step_run; [exact Hrel|]. reflexivity. }
  do 4 (split; [apply Hu|]). split; [exact Hu|]. split; [exact Hset|].
  intros n. apply leaf_chain_same_tree, Hu.
Qed.

End Operations.
End Descent.

(** C4 on the tree that holds the keys 1 to 5: key 3 is there. *)
Lemma C4_witness :
  ∃ s', Insert 4 4 Scenarios.IsSafe_sample 2 3 99 true (Scenarios.tree_12345 10 20 30 40 50)
        = Some (false, s')
        ∧ pages s' = pages (Scenarios.tree_12345 10 20 30 40 50).
Proof.
  destruct (GetValue Scenarios.IsSafe_sample 2 3 false (Scenarios.tree_12345 10 20 30 40 50))
    as [[r s0]|] eqn:Hget; [|by vm_compute in Hget].
  assert (r = Some 30) as -> by (vm_compute in Hget; by injection Hget as <- _).
  destruct (C4_duplicate_insert_changes_nothing Scenarios.IsSafe_sample 4 4 2 3 99
              false (Scenarios.tree_12345 10 20 30 40 50) s0 30 Hget)
    as (s' & Hrun & _ & Hpages & _).
  exists s'. split; [exact Hrun | exact Hpages].
Defined.


End BTreeQuiet.
(** ** B+ tree pages: search, insertion and removal in one page *)

Module PageFacts.
Import BTreePage BTreePageInv BTreePageFacts.

(** *** The slot array after the loops that move slots *)

Lemma slot_shift_up n i a j :
  Z.of_nat n ≤ i →
  slot (shift_up n i a) j
  = if decide (i - Z.of_nat n < j ≤ i) then slot a (j - 1) else slot a j.
Proof.
  revert i a. induction n as [|n IH]; intros i a Hi; simpl.
  - destruct (decide _); [lia|done].
  - rewrite IH by lia. rewrite !slot_set_slot by lia.
    repeat destruct (decide _); try lia; try done. by subst.
Qed.

Lemma slot_shift_down n i a j :
  1 ≤ i →
  slot (shift_down n i a) j
  = if decide (i - 1 ≤ j < i - 1 + Z.of_nat n) then slot a (j + 1) else slot a j.
Proof.
  revert i a. induction n as [|n IH]; intros i a Hi; simpl.
  - destruct (decide _); [lia|done].
  - rewrite IH by lia. rewrite !slot_set_slot by lia.
    repeat destruct (decide _); try lia; try done.
    subst. f_equal. lia.
Qed.

Lemma slot_memmove_out a0 l a dst src j :
  0 ≤ dst → (∀ i : nat, i ∈ l → j ≠ dst + Z.of_nat i) →
  slot (foldl (λ acc (i : nat), set_slot acc (dst + Z.of_nat i) (slot a0 (src + Z.of_nat i))) a l) j
  = slot a j.
Proof.
  intros Hd. revert a. induction l as [|x l IH]; intros a Hj; simpl; [done|].
  rewrite IH by (intros i Hi; apply Hj; by right).
  rewrite slot_set_slot by lia. rewrite decide_False; [done|].
  apply Hj. by left.
Qed.

Lemma slot_memmove_in a0 l a dst src (i : nat) :
  0 ≤ dst → i ∈ l →
  slot (foldl (λ acc (i : nat), set_slot acc (dst + Z.of_nat i) (slot a0 (src + Z.of_nat i))) a l)
       (dst + Z.of_nat i)
  = slot a0 (src + Z.of_nat i).
Proof.
  intros Hd. revert a. induction l as [|x l IH]; intros a Hi; simpl.
  - by apply elem_of_nil in Hi.
  - destruct (decide (i ∈ l)) as [Hl|Hl]; [by apply IH|].
    apply elem_of_cons in Hi as [->|Hi]; [|done].
    rewrite slot_memmove_out; [|done|].
    + rewrite slot_set_slot by lia. by rewrite decide_True.
    + intros k Hk Heq. assert (k = x) as -> by lia. done.
Qed.

Lemma slot_memmove a dst src n j :
  0 ≤ dst →
  slot (memmove a dst src n) j
  = if decide (dst ≤ j < dst + n) then slot a (src + (j - dst)) else slot a j.
Proof.
  intros Hd. unfold memmove.
  destruct (decide (dst ≤ j < dst + n)) as [Hj|Hj].
  - replace j with (dst + Z.of_nat (Z.to_nat (j - dst))) at 1 by lia.
    rewrite slot_memmove_in; [f_equal; lia|done|].
    apply elem_of_seq. lia.
  - apply slot_memmove_out; [done|]. intros i Hi ->.
    apply elem_of_seq in Hi. lia.
Qed.

(** *** The valid slots as a list *)

Lemma length_items p : length (items p) = Z.to_nat (size_ p).
Proof. unfold items. by rewrite length_fmap, length_seq. Qed.

Lemma lookup_items p (i : nat) :
  (i < Z.to_nat (size_ p))%nat → items p !! i = Some (slot (array p) (Z.of_nat i)).
Proof.
  intros Hi. unfold items. rewrite list_lookup_fmap, lookup_seq_lt by done. done.
Qed.

Lemma elem_of_items p x :
  x ∈ items p ↔ ∃ i, 0 ≤ i < size_ p ∧ slot (array p) i = x.
Proof.
  unfold items. rewrite list_elem_of_fmap. split.
  - intros (i & -> & Hi). apply elem_of_seq in Hi. exists (Z.of_nat i). split; [lia|done].
  - intros (i & Hi & <-). exists (Z.to_nat i). split; [f_equal; lia|].
    apply elem_of_seq. lia.
Qed.

(** A list is the list of the valid slots when it has their number and
    agrees with the slots. *)
Lemma items_intro p l :
  length l = Z.to_nat (size_ p) →
  (∀ i : nat, (i < length l)%nat → l !! i = Some (slot (array p) (Z.of_nat i))) →
  items p = l.
Proof.
  intros Hlen Hl. apply list_eq. intros i.
  destruct (decide (i < length l)%nat) as [Hi|Hi].
  - rewrite Hl by done. apply lookup_items. lia.
  - rewrite (lookup_ge_None_2 l) by lia.
    apply lookup_ge_None_2. rewrite length_items. lia.
Qed.

(** *** Sortedness, checked slot by slot *)

Lemma ascending_from_lt lo p i j :
  ascending_from lo p = true → lo ≤ i → i < j → j < GetSize p →
  KeyAt p i < KeyAt p j.
Proof.
  unfold ascending_from. rewrite forallb_forall. intros Hall Hi Hij Hj.
  assert (∀ k, lo ≤ k → k + 1 < GetSize p → KeyAt p k < KeyAt p (k + 1)) as Hstep.
  { intros k Hk Hk1. specialize (Hall (Z.to_nat (k - lo))).
    replace (lo + Z.of_nat (Z.to_nat (k - lo))) with k in Hall by lia.
    apply Z.ltb_lt, Hall. apply in_seq. lia. }
  replace j with (i + 1 + Z.of_nat (Z.to_nat (j - i - 1))) in * by lia.
  induction (Z.to_nat (j - i - 1)) as [|n IH].
  - replace (i + 1 + Z.of_nat 0) with (i + 1) in * by lia. apply Hstep; lia.
  - transitivity (KeyAt p (i + 1 + Z.of_nat n)); [apply IH; lia|].
    replace (i + 1 + Z.of_nat (S n)) with (i + 1 + Z.of_nat n + 1) in * by lia.
    apply Hstep; lia.
Qed.

Lemma ascending_sorted_leaf p : ascending_from 0 p = true → sorted_leaf p.
Proof. intros Ha i j Hi Hij Hj. by apply (ascending_from_lt 0). Qed.

Lemma ascending_sorted_internal p : ascending_from 1 p = true → sorted_internal p.
Proof. intros Ha i j Hi Hij Hj. by apply (ascending_from_lt 1). Qed.

(** *** KeyIndex *)

Lemma KeyIndex_loop_spec n p key le ri :
  sorted_leaf p → 0 ≤ le ≤ ri + 1 → ri < GetSize p → ri - le + 1 ≤ Z.of_nat n →
  (∀ i, 0 ≤ i < le → KeyAt p i < key) →
  (∀ i, ri < i < GetSize p → key ≤ KeyAt p i) →
  let r := KeyIndex_loop n p key le ri in
  0 ≤ r ≤ GetSize p
  ∧ (∀ i, 0 ≤ i < r → KeyAt p i < key)
  ∧ (∀ i, r ≤ i < GetSize p → key ≤ KeyAt p i).
Proof.
  intros Hs. revert le ri.
  induction n as [|n IH]; intros le ri Hle Hri Hn Hlo Hhi; simpl.
  - split; [lia|]. split; intros i Hi; [apply Hlo | apply Hhi]; lia.
  - destruct (Z.leb_spec le ri) as [Hlr|Hlr].
    2:{ split; [lia|]. split; intros i Hi; [apply Hlo | apply Hhi]; lia. }
    assert (le ≤ Z.quot (ri - le) 2 + le ≤ ri) as Hmid
      by (Z.to_euclidean_division_equations; lia).
    set (mid := Z.quot (ri - le) 2 + le) in *.
    destruct (Z.ltb_spec (KeyAt p mid) key) as [Hk|Hk].
    + apply IH; [lia|lia|lia| |done].
      intros i Hi. destruct (decide (i = mid)) as [->|Hne]; [done|].
      destruct (decide (i < le)) as [Hl|Hl]; [apply Hlo; lia|].
      pose proof (Hs i mid). lia.
    + apply IH; [lia|lia|lia|done|].
      intros i Hi. destruct (decide (i = mid)) as [->|Hne]; [done|].
      destruct (decide (ri < i)) as [Hl|Hl]; [apply Hhi; lia|].
      pose proof (Hs mid i). lia.
Qed.

(** KeyIndex is the lower bound of the key among the valid slots. *)
Lemma KeyIndex_spec p key :
  sorted_leaf p → 0 ≤ GetSize p →
  0 ≤ KeyIndex p key ≤ GetSize p
  ∧ (∀ i, 0 ≤ i < KeyIndex p key → KeyAt p i < key)
  ∧ (∀ i, KeyIndex p key ≤ i < GetSize p → key ≤ KeyAt p i).
Proof.
  intros Hs Hsz. unfold KeyIndex.
  apply KeyIndex_loop_spec; [done|lia|lia|lia| |]; intros i Hi; lia.
Qed.

(** *** Lookup in a leaf *)

Lemma sorted_leaf_inj p i j :
  sorted_leaf p → 0 ≤ i < GetSize p → 0 ≤ j < GetSize p →
  KeyAt p i = KeyAt p j → i = j.
Proof.
  intros Hs Hi Hj Hk. destruct (Z.lt_total i j) as [Hlt|[->|Hlt]]; [|done|].
  - pose proof (Hs i j). lia.
  - pose proof (Hs j i). lia.
Qed.

Lemma Leaf_Lookup_Some p key v :
  sorted_leaf p → 0 ≤ GetSize p →
  Leaf_Lookup p key = Some v ↔ (key, v) ∈ items p.
Proof.
  intros Hs Hsz. destruct (KeyIndex_spec p key Hs Hsz) as (Hr & Hlo & Hhi).
  unfold Leaf_Lookup. rewrite elem_of_items. split.
  - destruct (Z.ltb_spec (KeyIndex p key) (GetSize p)) as [Hlt|Hge]; [|done].
    destruct (Z.eqb_spec (KeyAt p (KeyIndex p key)) key) as [Hk|Hk]; [|done].
    simpl. intros [= <-]. exists (KeyIndex p key). split; [unfold GetSize in *; lia|].
    unfold KeyAt, ValueAt in *. destruct (slot (array p) (KeyIndex p key)); simpl in *.
    by subst.
  - intros (i & Hi & Hx).
    assert (KeyAt p i = key) as Hki by (unfold KeyAt; by rewrite Hx).
    assert (KeyIndex p key = i) as Hidx.
    { unfold GetSize in *.
      destruct (Z.lt_total (KeyIndex p key) i) as [Hlt|[->|Hlt]]; [|done|].
      - pose proof (Hhi (KeyIndex p key)). pose proof (Hs (KeyIndex p key) i).
        unfold GetSize in *. lia.
      - pose proof (Hlo i). lia. }
    rewrite Hidx. unfold GetSize.
    destruct (Z.ltb_spec i (size_ p)); [|lia].
    rewrite Hki, Z.eqb_refl. simpl. unfold ValueAt. by rewrite Hx.
Qed.

Lemma Leaf_Lookup_None p key :
  sorted_leaf p → 0 ≤ GetSize p →
  Leaf_Lookup p key = None ↔ key ∉ keys p.
Proof.
  intros Hs Hsz. unfold keys. rewrite list_elem_of_fmap. split.
  - intros Hn ([k v] & -> & Hx). simpl in Hn.
    apply Leaf_Lookup_Some in Hx; [|done..]. congruence.
  - intros Hn. destruct (Leaf_Lookup p key) as [v|] eqn:Hl; [|done].
    exfalso. apply Hn. exists (key, v). split; [done|].
    by apply Leaf_Lookup_Some.
Qed.

(** Two pages whose valid slots hold the same pairs answer every lookup
    alike. *)
Lemma Leaf_Lookup_ext p p' key :
  sorted_leaf p → 0 ≤ GetSize p → sorted_leaf p' → 0 ≤ GetSize p' →
  (∀ v, (key, v) ∈ items p' ↔ (key, v) ∈ items p) →
  Leaf_Lookup p' key = Leaf_Lookup p key.
Proof.
  intros Hs Hsz Hs' Hsz' Hiff.
  destruct (Leaf_Lookup p key) as [v|] eqn:Hl.
  - apply Leaf_Lookup_Some; [done..|]. apply Hiff. by apply Leaf_Lookup_Some.
  - destruct (Leaf_Lookup p' key) as [v'|] eqn:Hl'; [|done].
    apply Leaf_Lookup_Some in Hl'; [|done..]. apply Hiff in Hl'.
    apply Leaf_Lookup_Some in Hl'; [|done..]. congruence.
Qed.

(** *** A page with one slot more or one slot less *)

Lemma items_insert p p' idx x :
  0 ≤ idx ≤ size_ p → size_ p' = size_ p + 1 →
  (∀ j, 0 ≤ j ≤ size_ p →
     slot (array p') j = if decide (j = idx) then x
                         else if decide (idx < j) then slot (array p) (j - 1)
                         else slot (array p) j) →
  items p' = take (Z.to_nat idx) (items p) ++ x :: drop (Z.to_nat idx) (items p).
Proof.
  intros Hidx Hsz Hslot. apply items_intro.
  - rewrite length_app, length_take, length_cons, length_drop, length_items. lia.
  - intros i Hi.
    rewrite length_app, length_take, length_cons, length_drop, length_items in Hi.
    rewrite Hslot by lia.
    destruct (decide (Z.of_nat i = idx)) as [Heq|Hne].
    + rewrite lookup_app_r by (rewrite length_take, length_items; lia).
      rewrite length_take, length_items.
      replace (i - Z.to_nat idx `min` Z.to_nat (size_ p))%nat with 0%nat by lia. done.
    + destruct (decide (idx < Z.of_nat i)) as [Hlt|Hge].
      * rewrite lookup_app_r by (rewrite length_take, length_items; lia).
        rewrite length_take, length_items.
        replace (i - Z.to_nat idx `min` Z.to_nat (size_ p))%nat
          with (S (i - 1 - Z.to_nat idx))%nat by lia.
        simpl. rewrite lookup_drop, lookup_items by lia.
        do 2 f_equal. lia.
      * rewrite lookup_app_l by (rewrite length_take, length_items; lia).
        rewrite lookup_take_lt by lia. apply lookup_items. lia.
Qed.

Lemma items_delete p p' idx :
  0 ≤ idx < size_ p → size_ p' = size_ p - 1 →
  (∀ j, 0 ≤ j < size_ p - 1 →
     slot (array p') j = if decide (j < idx) then slot (array p) j
                         else slot (array p) (j + 1)) →
  items p' = delete (Z.to_nat idx) (items p).
Proof.
  intros Hidx Hsz Hslot. apply items_intro.
  - rewrite length_delete; [rewrite length_items; lia|].
    apply lookup_lt_is_Some. rewrite length_items. lia.
  - intros i Hi. rewrite length_delete, length_items in Hi.
    2:{ apply lookup_lt_is_Some. rewrite length_items. lia. }
    rewrite Hslot by lia. destruct (decide (Z.of_nat i < idx)) as [Hlt|Hge].
    + rewrite list_lookup_delete_lt by lia. apply lookup_items. lia.
    + rewrite list_lookup_delete_ge by lia. rewrite lookup_items by lia.
      do 2 f_equal. lia.
Qed.

(** *** Insert into a leaf *)

Lemma size_Leaf_Insert key value p : GetSize (Leaf_Insert key value p) = GetSize p + 1.
Proof. reflexivity. Qed.

Lemma slot_Leaf_Insert key value p j :
  0 ≤ KeyIndex p key ≤ GetSize p →
  slot (array (Leaf_Insert key value p)) j
  = if decide (j = KeyIndex p key) then (key, value)
    else if decide (KeyIndex p key < j ≤ GetSize p) then slot (array p) (j - 1)
    else slot (array p) j.
Proof.
  intros Hidx. unfold Leaf_Insert. cbn -[KeyIndex shift_up].
  rewrite slot_set_slot by lia. destruct (decide (j = _)); [done|].
  unfold GetSize in *. rewrite slot_shift_up by lia.
  repeat destruct (decide _); try lia; done.
Qed.

Lemma items_Leaf_Insert key value p :
  sorted_leaf p → 0 ≤ GetSize p →
  items (Leaf_Insert key value p)
  = take (Z.to_nat (KeyIndex p key)) (items p)
    ++ (key, value) :: drop (Z.to_nat (KeyIndex p key)) (items p).
Proof.
  intros Hs Hsz. destruct (KeyIndex_spec p key Hs Hsz) as (Hr & _).
  apply items_insert; [done|apply size_Leaf_Insert|].
  intros j Hj. rewrite slot_Leaf_Insert by done. unfold GetSize in *.
  repeat destruct (decide _); try lia; done.
Qed.

Lemma sorted_Leaf_Insert key value p :
  sorted_leaf p → 0 ≤ GetSize p → Leaf_Lookup p key = None →
  sorted_leaf (Leaf_Insert key value p).
Proof.
  intros Hs Hsz Hnone. destruct (KeyIndex_spec p key Hs Hsz) as (Hr & Hlo & Hhi).
  assert (∀ i, KeyIndex p key ≤ i < GetSize p → key < KeyAt p i) as Hhi'.
  { intros i Hi. pose proof (Hhi i Hi) as Hle.
    destruct (decide (KeyAt p i = key)) as [Heq|Hne]; [|lia].
    exfalso. apply (Leaf_Lookup_None p key Hs Hsz) in Hnone. apply Hnone.
    unfold keys. apply list_elem_of_fmap. exists (slot (array p) i).
    split; [done|]. apply elem_of_items. exists i. split; [unfold GetSize in *; lia|done]. }
  intros i j Hi Hij Hj. rewrite size_Leaf_Insert in Hj.
  unfold KeyAt. rewrite !slot_Leaf_Insert by done.
  repeat destruct (decide _); simpl; try lia;
    pose proof (Hhi' (j - 1)); pose proof (Hhi' j);
    pose proof (Hlo i); pose proof (Hlo (i - 1));
    pose proof (Hs (i - 1) (j - 1)); pose proof (Hs i (j - 1));
    pose proof (Hs i j); pose proof (Hs (i - 1) j);
    unfold KeyAt in *; lia.
Qed.

Lemma elem_of_items_Leaf_Insert key value p x :
  sorted_leaf p → 0 ≤ GetSize p →
  x ∈ items (Leaf_Insert key value p) ↔ x = (key, value) ∨ x ∈ items p.
Proof.
  intros Hs Hsz. rewrite items_Leaf_Insert by done.
  rewrite elem_of_app, elem_of_cons.
  rewrite <- (take_drop (Z.to_nat (KeyIndex p key)) (items p)) at 3.
  rewrite elem_of_app. tauto.
Qed.

(** *** Removal from a leaf *)

Lemma Leaf_Lookup_index p key v :
  Leaf_Lookup p key = Some v →
  KeyIndex p key < GetSize p ∧ slot (array p) (KeyIndex p key) = (key, v).
Proof.
  unfold Leaf_Lookup, KeyAt, ValueAt.
  destruct (Z.ltb_spec (KeyIndex p key) (GetSize p)) as [Hlt|Hge]; [|done].
  destruct (slot (array p) (KeyIndex p key)) as [k w]; simpl.
  destruct (Z.eqb_spec k key) as [->|Hne]; [|done].
  by intros [= ->].
Qed.

Lemma size_RemoveAndDeleteRecord_present p key v :
  Leaf_Lookup p key = Some v → GetSize (RemoveAndDeleteRecord key p) = GetSize p - 1.
Proof.
  intros Hl. destruct (Leaf_Lookup_index p key v Hl) as [Hlt Hslot].
  unfold RemoveAndDeleteRecord, KeyAt. rewrite Hslot. simpl.
  rewrite Z.eqb_refl. simpl.
  destruct (Z.leb_spec (GetSize p) (KeyIndex p key)); [lia|]. simpl.
  unfold GetSize. simpl. lia.
Qed.

Lemma slot_RemoveAndDeleteRecord_present p key v j :
  0 ≤ KeyIndex p key → Leaf_Lookup p key = Some v →
  slot (array (RemoveAndDeleteRecord key p)) j
  = if decide (KeyIndex p key ≤ j < GetSize p - 1) then slot (array p) (j + 1)
    else slot (array p) j.
Proof.
  intros Hidx Hl. destruct (Leaf_Lookup_index p key v Hl) as [Hlt Hslot].
  unfold RemoveAndDeleteRecord, KeyAt. rewrite Hslot. simpl.
  rewrite Z.eqb_refl. simpl.
  destruct (Z.leb_spec (GetSize p) (KeyIndex p key)); [lia|]. simpl.
  rewrite slot_memmove by done.
  repeat destruct (decide _); try lia; try done. f_equal. lia.
Qed.

Lemma items_RemoveAndDeleteRecord_present p key v :
  sorted_leaf p → 0 ≤ GetSize p → Leaf_Lookup p key = Some v →
  items (RemoveAndDeleteRecord key p) = delete (Z.to_nat (KeyIndex p key)) (items p).
Proof.
  intros Hs Hsz Hl. destruct (KeyIndex_spec p key Hs Hsz) as (Hr & _).
  destruct (Leaf_Lookup_index p key v Hl) as [Hlt _].
  apply items_delete.
  - unfold GetSize in *. lia.
  - apply (size_RemoveAndDeleteRecord_present p key v Hl).
  - intros j Hj. rewrite (slot_RemoveAndDeleteRecord_present p key v) by (done || lia).
    unfold GetSize in *. repeat destruct (decide _); try lia; done.
Qed.

Lemma sorted_RemoveAndDeleteRecord p key :
  sorted_leaf p → 0 ≤ GetSize p → sorted_leaf (RemoveAndDeleteRecord key p).
Proof.
  intros Hs Hsz. destruct (Leaf_Lookup p key) as [v|] eqn:Hl.
  2:{ by rewrite BTreeQuiet.RemoveAndDeleteRecord_absent. }
  destruct (KeyIndex_spec p key Hs Hsz) as (Hr & _).
  intros i j Hi Hij Hj.
  rewrite (size_RemoveAndDeleteRecord_present p key v Hl) in Hj.
  unfold KeyAt. rewrite !(slot_RemoveAndDeleteRecord_present p key v) by (done || lia).
  repeat destruct (decide _); try lia;
    pose proof (Hs (i + 1) (j + 1)); pose proof (Hs i (j + 1)); pose proof (Hs i j);
    unfold KeyAt in *; lia.
Qed.

Lemma elem_of_items_RemoveAndDeleteRecord p key x :
  sorted_leaf p → 0 ≤ GetSize p →
  x ∈ items (RemoveAndDeleteRecord key p) ↔ x ∈ items p ∧ x.1 ≠ key.
Proof.
  intros Hs Hsz. destruct (Leaf_Lookup p key) as [v|] eqn:Hl.
  2:{ rewrite BTreeQuiet.RemoveAndDeleteRecord_absent by done.
      apply Leaf_Lookup_None in Hl; [|done..]. split; [|tauto].
      intros Hx. split; [done|]. intros <-. apply Hl.
      unfold keys. apply list_elem_of_fmap. by exists x. }
  destruct (KeyIndex_spec p key Hs Hsz) as (Hr & _).
  destruct (Leaf_Lookup_index p key v Hl) as [Hlt Hslot].
  pose proof (size_RemoveAndDeleteRecord_present p key v Hl) as Hsize.
  rewrite !elem_of_items. unfold GetSize in *. rewrite Hsize. split.
  - intros (j & Hj & Hx).
    rewrite (slot_RemoveAndDeleteRecord_present p key v) in Hx by (done || lia).
    unfold GetSize in *.
    destruct (decide _) as [Hc|Hc].
    + split; [exists (j + 1); split; [lia|done]|].
      intros Hk. assert (j + 1 = KeyIndex p key); [|lia].
      apply (sorted_leaf_inj p); [done|unfold GetSize; lia..|].
      unfold KeyAt. by rewrite Hx, Hslot.
    + split; [exists j; split; [lia|done]|].
      intros Hk. assert (j = KeyIndex p key); [|lia].
      apply (sorted_leaf_inj p); [done|unfold GetSize; lia..|].
      unfold KeyAt. by rewrite Hx, Hslot.
  - intros [(j & Hj & Hx) Hk].
    assert (j ≠ KeyIndex p key) as Hne.
    { intros ->. rewrite Hslot in Hx. subst x. done. }
    destruct (decide (j < KeyIndex p key)) as [Hlow|Hhigh].
    + exists j. split; [lia|].
      rewrite (slot_RemoveAndDeleteRecord_present p key v) by (done || lia).
      by rewrite decide_False by lia.
    + exists (j - 1). split; [lia|].
      rewrite (slot_RemoveAndDeleteRecord_present p key v) by (done || lia).
      unfold GetSize. rewrite decide_True by lia. rewrite <- Hx. f_equal. lia.
Qed.

(** *** The leaf page as its users see it *)

(** X1: on a leaf whose keys ascend, KeyIndex returns the position of
    the first valid slot whose key is not below [key] (the number of
    valid slots when every key is below it): it lies between 0 and the
    size, every slot before it holds a smaller key and every valid slot
    from it on a key that is at least [key]. *)
Theorem X1_KeyIndex_is_lower_bound p key :
  sorted_leaf p → 0 ≤ GetSize p →
  0 ≤ KeyIndex p key ≤ GetSize p
  ∧ (∀ i, 0 ≤ i < KeyIndex p key → KeyAt p i < key)
  ∧ (∀ i, KeyIndex p key ≤ i < GetSize p → key ≤ KeyAt p i).
Proof. apply KeyIndex_spec. Qed.

(** X2: Lookup in a leaf whose keys ascend returns true with the value
    [v] exactly when the pair of [key] and [v] is among the valid slots,
    and false exactly when no valid slot holds [key]. *)
Theorem X2_Leaf_Lookup_finds_stored_pairs p key :
  sorted_leaf p → 0 ≤ GetSize p →
  (∀ v, Leaf_Lookup p key = Some v ↔ (key, v) ∈ items p)
  ∧ (Leaf_Lookup p key = None ↔ key ∉ keys p).
Proof.
  intros Hs Hsz. split; [intros v; by apply Leaf_Lookup_Some|by apply Leaf_Lookup_None].
Qed.

(** X3: Insert of a key that the leaf does not hold (the tree looks it
    up first) puts the pair at the position KeyIndex gives: the size
    grows by one, the keys still ascend, the valid slots are the former
    ones with the new pair between those of smaller and those of larger
    keys, Lookup of the key now returns the value, and Lookup of every
    other key returns what it returned before. *)
Theorem X3_Leaf_Insert_then_Lookup p key value :
  sorted_leaf p → 0 ≤ GetSize p → Leaf_Lookup p key = None →
  let p' := Leaf_Insert key value p in
  GetSize p' = GetSize p + 1
  ∧ sorted_leaf p'
  ∧ items p' = take (Z.to_nat (KeyIndex p key)) (items p)
               ++ (key, value) :: drop (Z.to_nat (KeyIndex p key)) (items p)
  ∧ Leaf_Lookup p' key = Some value
  ∧ ∀ k, k ≠ key → Leaf_Lookup p' k = Leaf_Lookup p k.
Proof.
  intros Hs Hsz Hnone p'.
  pose proof (sorted_Leaf_Insert key value p Hs Hsz Hnone) as Hs'.
  assert (0 ≤ GetSize p') as Hsz' by (unfold p'; rewrite size_Leaf_Insert; lia).
  split; [apply size_Leaf_Insert|]. split; [done|].
  split; [by apply items_Leaf_Insert|]. split.
  - apply Leaf_Lookup_Some; [done..|].
    apply elem_of_items_Leaf_Insert; [done..|]. by left.
  - intros k Hk. apply Leaf_Lookup_ext; [done..|]. intros v.
    unfold p'. rewrite elem_of_items_Leaf_Insert by done.
    split; [intros [[= ? ?]|?]; [done|done] | by right].
Qed.

(** X4: RemoveAndDeleteRecord on a leaf whose keys ascend: when the key
    is there, its pair is taken out, the later slots move down by one
    and the size returned is one less; when it is not there the page is
    left as it is.  In both cases the keys still ascend, Lookup of the
    key returns false afterwards, and Lookup of every other key returns
    what it returned before. *)
Theorem X4_RemoveAndDeleteRecord_removes_key p key :
  sorted_leaf p → 0 ≤ GetSize p →
  let p' := RemoveAndDeleteRecord key p in
  sorted_leaf p'
  ∧ (∀ v, Leaf_Lookup p key = Some v →
          GetSize p' = GetSize p - 1
          ∧ items p' = delete (Z.to_nat (KeyIndex p key)) (items p))
  ∧ (Leaf_Lookup p key = None → p' = p)
  ∧ Leaf_Lookup p' key = None
  ∧ ∀ k, k ≠ key → Leaf_Lookup p' k = Leaf_Lookup p k.
Proof.
  intros Hs Hsz p'.
  pose proof (sorted_RemoveAndDeleteRecord p key Hs Hsz) as Hs'.
  assert (0 ≤ GetSize p') as Hsz'.
  { unfold p'. destruct (Leaf_Lookup p key) as [v|] eqn:Hl.
    - rewrite (size_RemoveAndDeleteRecord_present p key v Hl).
      destruct (KeyIndex_spec p key Hs Hsz) as (Hr & _).
      destruct (Leaf_Lookup_index p key v Hl). lia.
    - by rewrite BTreeQuiet.RemoveAndDeleteRecord_absent. }
  split; [done|]. split.
  { intros v Hl. split; [by apply (size_RemoveAndDeleteRecord_present p key v)|].
    by apply (items_RemoveAndDeleteRecord_present p key v). }
  split; [apply BTreeQuiet.RemoveAndDeleteRecord_absent|]. split.
  - apply Leaf_Lookup_None; [done..|]. unfold keys. rewrite list_elem_of_fmap.
    intros (x & Hk & Hx). apply elem_of_items_RemoveAndDeleteRecord in Hx; [|done..].
    destruct Hx as [_ Hx]. congruence.
  - intros k Hk. apply Leaf_Lookup_ext; [done..|]. intros v.
    unfold p'. rewrite elem_of_items_RemoveAndDeleteRecord by done. simpl.
    split; [tauto|]. intros Hx. split; [done|congruence].
Qed.

(** X5: inserting a pair into a leaf and removing its key again gives
    back the valid slots the leaf had (the slots beyond them are not
    restored). *)
Theorem X5_Leaf_Insert_then_Remove p key value :
  sorted_leaf p → 0 ≤ GetSize p → Leaf_Lookup p key = None →
  let p' := RemoveAndDeleteRecord key (Leaf_Insert key value p) in
  items p' = items p ∧ GetSize p' = GetSize p.
Proof.
  intros Hs Hsz Hnone p'.
  pose proof (sorted_Leaf_Insert key value p Hs Hsz Hnone) as Hs1.
  assert (0 ≤ GetSize (Leaf_Insert key value p)) as Hsz1
    by (rewrite size_Leaf_Insert; lia).
  assert (Leaf_Lookup (Leaf_Insert key value p) key = Some value) as Hl.
  { apply Leaf_Lookup_Some; [done..|].
    apply elem_of_items_Leaf_Insert; [done..|]. by left. }
  destruct (KeyIndex_spec p key Hs Hsz) as (Hr & _).
  assert (KeyIndex (Leaf_Insert key value p) key = KeyIndex p key) as Hidx.
  { destruct (Leaf_Lookup_index _ key value Hl) as [Hlt Hslot].
    destruct (KeyIndex_spec _ key Hs1 Hsz1) as (Hr1 & _).
    apply (sorted_leaf_inj (Leaf_Insert key value p)); [done|lia| |].
    - rewrite size_Leaf_Insert. lia.
    - unfold KeyAt. rewrite Hslot. rewrite slot_Leaf_Insert by done.
      by rewrite decide_True. }
  split.
  - unfold p'. rewrite (items_RemoveAndDeleteRecord_present _ key value) by done.
    rewrite Hidx, items_Leaf_Insert by done.
    rewrite <- (take_drop (Z.to_nat (KeyIndex p key)) (items p)) at 3.
    replace (Z.to_nat (KeyIndex p key))
      with (length (take (Z.to_nat (KeyIndex p key)) (items p))) at 1.
    + by rewrite delete_middle.
    + rewrite length_take, length_items. unfold GetSize in *. lia.
  - unfold p'. rewrite (size_RemoveAndDeleteRecord_present _ key value Hl).
    rewrite size_Leaf_Insert. lia.
Qed.

(** *** Internal pages *)

Lemma Internal_Lookup_loop_spec n p key le ri :
  sorted_internal p → 1 ≤ le ≤ ri + 1 → ri < GetSize p → ri - le + 1 ≤ Z.of_nat n →
  (∀ i, 1 ≤ i < le → KeyAt p i ≤ key) →
  (∀ i, ri < i < GetSize p → key < KeyAt p i) →
  let r := Internal_Lookup_loop n p key le ri in
  1 ≤ r ≤ GetSize p
  ∧ (∀ i, 1 ≤ i < r → KeyAt p i ≤ key)
  ∧ (∀ i, r ≤ i < GetSize p → key < KeyAt p i).
Proof.
  intros Hs. revert le ri.
  induction n as [|n IH]; intros le ri Hle Hri Hn Hlo Hhi; simpl.
  - split; [lia|]. split; intros i Hi; [apply Hlo | apply Hhi]; lia.
  - destruct (Z.leb_spec le ri) as [Hlr|Hlr].
    2:{ split; [lia|]. split; intros i Hi; [apply Hlo | apply Hhi]; lia. }
    assert (le ≤ Z.quot (ri - le) 2 + le ≤ ri) as Hmid
      by (Z.to_euclidean_division_equations; lia).
    set (mid := Z.quot (ri - le) 2 + le) in *.
    destruct (Z.leb_spec (KeyAt p mid) key) as [Hk|Hk].
    + apply IH; [lia|lia|lia| |done].
      intros i Hi. destruct (decide (i = mid)) as [->|Hne]; [done|].
      destruct (decide (i < le)) as [Hl|Hl]; [apply Hlo; lia|].
      pose proof (Hs i mid). lia.
    + apply IH; [lia|lia|lia|done|].
      intros i Hi. destruct (decide (i = mid)) as [->|Hne]; [done|].
      destruct (decide (ri < i)) as [Hl|Hl]; [apply Hhi; lia|].
      pose proof (Hs mid i). lia.
Qed.

(** X6: Lookup in an internal page with at least one child, whose keys
    from slot 1 on ascend, returns the child of the last slot whose key
    is not above [key], and the child of slot 0 when the key of slot 1
    is already above it (the key of slot 0 is never compared). *)
Theorem X6_Internal_Lookup_routes_by_key p key :
  sorted_internal p → 1 ≤ GetSize p →
  ∃ i, 0 ≤ i < GetSize p
       ∧ Internal_Lookup p key = ValueAt p i
       ∧ (∀ j, 1 ≤ j ≤ i → KeyAt p j ≤ key)
       ∧ (∀ j, i < j < GetSize p → key < KeyAt p j).
Proof.
  intros Hs Hsz. unfold Internal_Lookup.
  destruct (Internal_Lookup_loop_spec (Z.to_nat (GetSize p)) p key 1 (GetSize p - 1))
    as (Hr & Hlo & Hhi); [done|lia|lia|lia| | |].
  - intros i Hi. lia.
  - intros i Hi. lia.
  - exists (Internal_Lookup_loop (Z.to_nat (GetSize p)) p key 1 (GetSize p - 1) - 1).
    split; [lia|]. split; [done|]. split; intros j Hj; [apply Hlo | apply Hhi]; lia.
Qed.

Lemma ValueIndex_loop_spec n i p value :
  0 ≤ i →
  (ValueIndex_loop n i p value = -1
   ∧ ∀ j, i ≤ j < i + Z.of_nat n → ValueAt p j ≠ value)
  ∨ (i ≤ ValueIndex_loop n i p value < i + Z.of_nat n
     ∧ ValueAt p (ValueIndex_loop n i p value) = value
     ∧ ∀ j, i ≤ j < ValueIndex_loop n i p value → ValueAt p j ≠ value).
Proof.
  revert i. induction n as [|n IH]; intros i Hi; simpl.
  - left. split; [done|]. intros j Hj. lia.
  - destruct (Z.eqb_spec (ValueAt p i) value) as [Heq|Hne].
    + right. split; [lia|]. split; [done|]. intros j Hj. lia.
    + destruct (IH (i + 1)) as [[Hr Hall]|(Hr & Hv & Hbefore)]; [lia| |].
      * left. split; [done|]. intros j Hj.
        destruct (decide (j = i)) as [->|Hji]; [done|]. apply Hall. lia.
      * right. split; [lia|]. split; [done|]. intros j Hj.
        destruct (decide (j = i)) as [->|Hji]; [done|]. apply Hbefore. lia.
Qed.

(** ValueIndex is the first valid slot with the value, and -1 when no
    valid slot has it. *)
Lemma ValueIndex_spec p value :
  0 ≤ GetSize p →
  (ValueIndex p value = -1 ∧ ∀ j, 0 ≤ j < GetSize p → ValueAt p j ≠ value)
  ∨ (0 ≤ ValueIndex p value < GetSize p
     ∧ ValueAt p (ValueIndex p value) = value
     ∧ ∀ j, 0 ≤ j < ValueIndex p value → ValueAt p j ≠ value).
Proof.
  intros Hsz. unfold ValueIndex.
  destruct (ValueIndex_loop_spec (Z.to_nat (GetSize p)) 0 p value)
    as [[Hr Hall]|(Hr & Hv & Hbefore)]; [lia| |].
  - left. split; [done|]. intros j Hj. apply Hall. lia.
  - right. split; [lia|]. done.
Qed.

Lemma elem_of_values p value :
  value ∈ values p ↔ ∃ j, 0 ≤ j < GetSize p ∧ ValueAt p j = value.
Proof.
  unfold values. rewrite list_elem_of_fmap. split.
  - intros (x & -> & Hx). apply elem_of_items in Hx as (j & Hj & <-). by exists j.
  - intros (j & Hj & <-). exists (slot (array p) j). split; [done|].
    apply elem_of_items. by exists j.
Qed.

(** X7: ValueIndex returns the first valid slot that holds the child
    id, and -1 exactly when no valid slot holds it. *)
Theorem X7_ValueIndex_finds_first_slot p value :
  0 ≤ GetSize p →
  (ValueIndex p value = -1 ↔ value ∉ values p)
  ∧ (value ∈ values p →
       0 ≤ ValueIndex p value < GetSize p
       ∧ ValueAt p (ValueIndex p value) = value
       ∧ ∀ j, 0 ≤ j < ValueIndex p value → ValueAt p j ≠ value).
Proof.
  intros Hsz. rewrite elem_of_values.
  destruct (ValueIndex_spec p value Hsz) as [[Hm Hall]|(Hr & Hv & Hfirst)].
  - split.
    + split; [|done]. intros _ (j & Hj & Hjv). by apply (Hall j).
    + intros (j & Hj & Hjv). by destruct (Hall j).
  - split; [|done]. split; [lia|]. intros Hn. exfalso. apply Hn.
    by exists (ValueIndex p value).
Qed.

Lemma slot_InsertNodeAfter old_value new_key new_value p j :
  0 ≤ ValueIndex p old_value + 1 ≤ GetSize p →
  slot (array (InsertNodeAfter old_value new_key new_value p)) j
  = if decide (j = ValueIndex p old_value + 1) then (new_key, new_value)
    else if decide (ValueIndex p old_value + 1 < j ≤ GetSize p) then slot (array p) (j - 1)
    else slot (array p) j.
Proof.
  intros Hidx. unfold InsertNodeAfter. cbn -[ValueIndex shift_up].
  rewrite slot_set_slot by lia. destruct (decide (j = _)); [done|].
  unfold GetSize in *. rewrite slot_shift_up by lia.
  repeat destruct (decide _); try lia; done.
Qed.

(** X8: InsertNodeAfter puts the new pair into the slot after the first
    slot that holds [old_value], moving the later slots up by one; when
    no valid slot holds [old_value] (ValueIndex is -1) the pair goes
    into slot 0, before every other pair.  The size grows by one. *)
Theorem X8_InsertNodeAfter_position old_value new_key new_value p :
  0 ≤ GetSize p →
  let p' := InsertNodeAfter old_value new_key new_value p in
  let idx := Z.to_nat (ValueIndex p old_value + 1) in
  GetSize p' = GetSize p + 1
  ∧ items p' = take idx (items p) ++ (new_key, new_value) :: drop idx (items p)
  ∧ (old_value ∉ values p → items p' = (new_key, new_value) :: items p)
  ∧ (old_value ∈ values p →
       ValueAt p' (ValueIndex p old_value) = old_value
       ∧ GetItem p' (ValueIndex p old_value + 1) = (new_key, new_value)).
Proof.
  intros Hsz p' idx.
  assert (0 ≤ ValueIndex p old_value + 1 ≤ GetSize p) as Hidx.
  { destruct (ValueIndex_spec p old_value Hsz) as [[-> _]|(Hr & _)]; lia. }
  assert (items p' = take idx (items p) ++ (new_key, new_value) :: drop idx (items p)) as Hitems.
  { apply items_insert; [done|reflexivity|].
    intros j Hj. unfold p'. rewrite slot_InsertNodeAfter by done. unfold GetSize in *.
    repeat destruct (decide _); try lia; done. }
  split; [reflexivity|]. split; [done|]. split.
  - intros Hn.
    destruct (ValueIndex_spec p old_value Hsz) as [[Hm _]|(Hr & Hv & _)].
    + rewrite Hitems. unfold idx. rewrite Hm. simpl. by rewrite drop_0.
    + exfalso. apply Hn. apply elem_of_values. by exists (ValueIndex p old_value).
  - intros Hin.
    destruct (ValueIndex_spec p old_value Hsz) as [[Hm Hall]|(Hr & Hv & _)].
    { apply elem_of_values in Hin as (j & Hj & Hjv). by destruct (Hall j). }
    unfold ValueAt, GetItem, p'. rewrite !slot_InsertNodeAfter by done.
    rewrite decide_False by lia. rewrite decide_False by lia.
    rewrite decide_True by done. done.
Qed.

Lemma slot_Internal_Remove index p j :
  0 ≤ index →
  slot (array (Internal_Remove index p)) j
  = if decide (index ≤ j < GetSize p - 1) then slot (array p) (j + 1)
    else slot (array p) j.
Proof.
  intros Hidx. unfold Internal_Remove. simpl.
  rewrite slot_shift_down by lia. unfold GetSize.
  repeat destruct (decide _); try lia; done.
Qed.

(** X9: Remove of slot [index] of an internal page takes that pair out,
    moves the later pairs down by one and makes the size one less. *)
Theorem X9_Internal_Remove_deletes_slot index p :
  0 ≤ index < GetSize p →
  GetSize (Internal_Remove index p) = GetSize p - 1
  ∧ items (Internal_Remove index p) = delete (Z.to_nat index) (items p).
Proof.
  intros Hidx. split; [unfold Internal_Remove, GetSize; simpl; lia|].
  apply items_delete; [done|simpl; lia|].
  intros j Hj. rewrite slot_Internal_Remove by lia. unfold GetSize.
  repeat destruct (decide _); try lia; done.
Qed.

(** *** The theorems on sample pages *)

Lemma sorted_leaf_135 : sorted_leaf Samples.leaf_135.
Proof. apply ascending_sorted_leaf. reflexivity. Defined.

Lemma size_leaf_135 : 0 ≤ GetSize Samples.leaf_135.
Proof. vm_compute. discriminate. Defined.

(** X1 on the leaf with the keys 1, 3, 5: the lower bound of 4 is
    slot 2. *)
Lemma X1_witness :
  sorted_leaf Samples.leaf_135 ∧ 0 ≤ GetSize Samples.leaf_135
  ∧ KeyIndex Samples.leaf_135 4 = 2
  ∧ (∀ i, 0 ≤ i < 2 → KeyAt Samples.leaf_135 i < 4).
Proof.
  destruct (X1_KeyIndex_is_lower_bound Samples.leaf_135 4 sorted_leaf_135 size_leaf_135)
    as (_ & Hlo & _).
  split; [exact sorted_leaf_135|]. split; [exact size_leaf_135|].
  split; [reflexivity|exact Hlo].
Defined.

(** X2 on the same leaf: key 3 is found with its value, key 4 is not
    found. *)
Lemma X2_witness :
  sorted_leaf Samples.leaf_135 ∧ 0 ≤ GetSize Samples.leaf_135
  ∧ (3, 30) ∈ items Samples.leaf_135
  ∧ 4 ∉ keys Samples.leaf_135.
Proof.
  destruct (X2_Leaf_Lookup_finds_stored_pairs Samples.leaf_135 3 sorted_leaf_135 size_leaf_135)
    as [Hsome _].
  destruct (X2_Leaf_Lookup_finds_stored_pairs Samples.leaf_135 4 sorted_leaf_135 size_leaf_135)
    as [_ Hnone].
  split; [exact sorted_leaf_135|]. split; [exact size_leaf_135|].
  split; [apply Hsome; reflexivity | apply Hnone; reflexivity].
Defined.

(** X3 on the same leaf: key 4 goes between 3 and 5. *)
Lemma X3_witness :
  Leaf_Lookup Samples.leaf_135 4 = None
  ∧ items (Leaf_Insert 4 40 Samples.leaf_135) = [(1, 10); (3, 30); (4, 40); (5, 50)]
  ∧ Leaf_Lookup (Leaf_Insert 4 40 Samples.leaf_135) 4 = Some 40.
Proof.
  destruct (X3_Leaf_Insert_then_Lookup Samples.leaf_135 4 40
              sorted_leaf_135 size_leaf_135 eq_refl) as (_ & _ & Hitems & Hl & _).
  split; [reflexivity|]. split; [exact Hitems | exact Hl].
Defined.

(** X4 on the same leaf: key 3 is taken out. *)
Lemma X4_witness :
  items (RemoveAndDeleteRecord 3 Samples.leaf_135) = [(1, 10); (5, 50)]
  ∧ Leaf_Lookup (RemoveAndDeleteRecord 3 Samples.leaf_135) 3 = None.
Proof.
  destruct (X4_RemoveAndDeleteRecord_removes_key Samples.leaf_135 3
              sorted_leaf_135 size_leaf_135) as (_ & Hpresent & _ & Hl & _).
  destruct (Hpresent 30 eq_refl) as [_ Hitems].
  split; [exact Hitems | exact Hl].
Defined.

(** X5 on the same leaf: key 4 inserted and removed again. *)
Lemma X5_witness :
  items (RemoveAndDeleteRecord 4 (Leaf_Insert 4 40 Samples.leaf_135))
  = items Samples.leaf_135.
Proof.
  exact (proj1 (X5_Leaf_Insert_then_Remove Samples.leaf_135 4 40
                  sorted_leaf_135 size_leaf_135 eq_refl)).
Defined.

Lemma sorted_internal_37 : sorted_internal Samples.internal_37.
Proof. apply ascending_sorted_internal. reflexivity. Defined.

(** X6 on the page with the separators 3 and 7: key 5 is routed to the
    child of slot 1, key 2 to the child of slot 0. *)
Lemma X6_witness :
  (∃ i, 0 ≤ i < GetSize Samples.internal_37
        ∧ Internal_Lookup Samples.internal_37 5 = ValueAt Samples.internal_37 i
        ∧ (∀ j, 1 ≤ j ≤ i → KeyAt Samples.internal_37 j ≤ 5)
        ∧ (∀ j, i < j < GetSize Samples.internal_37 → 5 < KeyAt Samples.internal_37 j))
  ∧ Internal_Lookup Samples.internal_37 5 = 2
  ∧ Internal_Lookup Samples.internal_37 2 = 1.
Proof.
  split; [|split; reflexivity].
  apply (X6_Internal_Lookup_routes_by_key Samples.internal_37 5 sorted_internal_37).
  vm_compute. discriminate.
Defined.

(** X7 on the same page: child 4 is in slot 2, child 9 is in no slot. *)
Lemma X7_witness :
  ValueIndex Samples.internal_37 4 = 2 ∧ 9 ∉ values Samples.internal_37.
Proof.
  assert (0 ≤ GetSize Samples.internal_37) as Hsz by (vm_compute; discriminate).
  destruct (X7_ValueIndex_finds_first_slot Samples.internal_37 9 Hsz) as [Habsent _].
  split; [reflexivity|]. apply Habsent. reflexivity.
Defined.

(** X8 on the same page: the pair for the new child 5 goes behind the
    pair of child 2. *)
Lemma X8_witness :
  items (InsertNodeAfter 2 5 5 Samples.internal_37) = [(0, 1); (3, 2); (5, 5); (7, 4)].
Proof.
  assert (0 ≤ GetSize Samples.internal_37) as Hsz by (vm_compute; discriminate).
  destruct (X8_InsertNodeAfter_position 2 5 5 Samples.internal_37 Hsz) as (_ & Hitems & _).
  exact Hitems.
Defined.

(** X9 on the same page: slot 1 is removed. *)
Lemma X9_witness :
  items (Internal_Remove 1 Samples.internal_37) = [(0, 1); (7, 4)].
Proof.
  assert (0 ≤ 1 < GetSize Samples.internal_37) as Hidx by (vm_compute; split; [discriminate|reflexivity]).
  exact (proj2 (X9_Internal_Remove_deletes_slot 1 Samples.internal_37 Hidx)).
Defined.
End PageFacts.
(** ** LRU replacer: the order of the victims *)

Module LRUOrder.
Import LRU LRUFacts.
Section Replacer.
Context {T : Type} `{Countable T}.
Implicit Types (r : LRUReplacer T) (v : T) (l vs : list T).

Lemma erase_node_filter v l :
  NoDup l → erase_node v l = filter (λ x, x ≠ v) l.
Proof.
  induction l as [|x l IH]; simpl; intros Hnd; [done|].
  apply NoDup_cons in Hnd as [Hx Hnd].
  destruct (decide (x = v)) as [->|Hne].
  - rewrite filter_cons_False by (intros Hv; by apply Hv).
    rewrite <- IH by done. symmetry. by apply erase_node_notin.
  - rewrite filter_cons_True by done. f_equal. by apply IH.
Qed.

Lemma remove_dups_snoc l v :
  remove_dups (l ++ [v]) = filter (λ x, x ≠ v) (remove_dups l) ++ [v].
Proof.
  induction l as [|x l IH]; simpl; [done|].
  destruct (decide_rel elem_of x (l ++ [v])) as [Hin1|Hnin1];
    destruct (decide_rel elem_of x l) as [Hin|Hnin]; rewrite IH.
  - done.
  - apply elem_of_app in Hin1 as [Hin1|Hin1]; [done|].
    apply list_elem_of_singleton in Hin1 as ->.
    by rewrite filter_cons_False by (intros Hv; by apply Hv).
  - exfalso. apply Hnin1, elem_of_app. by left.
  - rewrite filter_cons_True; [done|].
    intros ->. apply Hnin1, elem_of_app. right. by apply list_elem_of_singleton.
Qed.

(** The replacer after Insert of the values of [vs], first to last. *)
Lemma reachable_inserts vs :
  reachable (foldl (λ r v, Insert v r) empty_replacer vs).
Proof.
  induction vs as [|v vs IH] using rev_ind; [constructor|].
  rewrite foldl_app. cbn [foldl]. by constructor.
Qed.

Lemma used_Insert r v :
  wf r → used (Insert v r) = v :: filter (λ x, x ≠ v) (used r).
Proof.
  intros [Hnd Hin]. unfold Insert; simpl. f_equal.
  destruct (decide (v ∈ mp r)) as [Hv|Hv].
  - by apply erase_node_filter.
  - rewrite <- erase_node_filter by done. symmetry. apply erase_node_notin.
    by rewrite <- Hin.
Qed.

Lemma used_inserts vs :
  used (foldl (λ r v, Insert v r) empty_replacer vs) = reverse (remove_dups vs).
Proof.
  induction vs as [|v vs IH] using rev_ind; [done|].
  rewrite foldl_app. cbn [foldl].
  rewrite used_Insert by (apply reachable_wf, reachable_inserts).
  rewrite IH, remove_dups_snoc, reverse_snoc. by rewrite filter_reverse.
Qed.

(** X10: the replacer hands out its values least recently inserted
    first.  After Insert of the values of [vs] in this order into a new
    replacer, Size-many calls of Victim return the values of [vs] in the
    order of their last insertion (each value once, at the place of its
    last occurrence in [vs]); the replacer is then empty and the next
    call of Victim returns false. *)
Theorem X10_victims_in_order_of_last_insert vs :
  let r := foldl (λ r v, Insert v r) empty_replacer vs in
  ∃ r', drain (Size r) r = Some (remove_dups vs, r')
        ∧ Size r' = 0%nat
        ∧ Victim r' = (None, r').
Proof.
  intros r.
  destruct (drain_all r (reachable_wf r (reachable_inserts vs))) as (r' & Hd & Hm & Hu).
  exists r'. unfold r in Hd at 3. rewrite used_inserts, reverse_involutive in Hd.
  split; [done|]. split.
  - unfold Size. rewrite Hm. apply size_empty.
  - unfold Victim. by rewrite decide_True.
Qed.

Lemma drain_inj n r vs r1 vs' r1' :
  drain n r = Some (vs, r1) → drain n r = Some (vs', r1') → vs = vs'.
Proof. congruence. Qed.

(** X11: Erase takes exactly the given value out of the order of the
    victims.  On a replacer built by Insert, Victim and Erase, whose
    victims would be [vs] in this order, Erase of [v] returns true
    exactly when [v] is one of them; afterwards the victims are those of
    [vs] other than [v], in the same order; when [v] is not among them
    the replacer is left as it is. *)
Theorem X11_Erase_takes_value_out_of_victim_order r v vs r1 :
  reachable r → drain (Size r) r = Some (vs, r1) →
  (Erase v r).1 = bool_decide (v ∈ vs)
  ∧ (v ∉ vs → (Erase v r).2 = r)
  ∧ ∃ r2, drain (Size (Erase v r).2) (Erase v r).2
          = Some (filter (λ x, x ≠ v) vs, r2).
Proof.
  intros Hr Hd. pose proof (reachable_wf r Hr) as Hwf.
  destruct (drain_all r Hwf) as (r' & Hd' & _).
  assert (vs = reverse (used r)) as -> by congruence.
  pose proof (wf_Erase v r Hwf) as Hwf'.
  destruct (drain_all _ Hwf') as (r2 & Hd2 & _).
  destruct Hwf as [Hnd Hin].
  unfold Erase in *. destruct (decide (v ∈ mp r)) as [Hv|Hv]; simpl in *.
  - split; [symmetry; apply bool_decide_eq_true_2; rewrite elem_of_reverse; by apply Hin|].
    split; [intros Hn; exfalso; apply Hn; rewrite elem_of_reverse; by apply Hin|].
    exists r2. rewrite Hd2. rewrite erase_node_filter by done.
    by rewrite filter_reverse.
  - split; [symmetry; apply bool_decide_eq_false_2; rewrite elem_of_reverse; by rewrite <- Hin|].
    split; [done|]. exists r2. rewrite Hd2. do 2 f_equal.
    rewrite filter_reverse. f_equal.
    rewrite <- erase_node_filter by done. symmetry. apply erase_node_notin.
    by rewrite <- Hin.
Qed.
End Replacer.

(** X11 on the replacer holding 3, 2, 1: Erase of 2 leaves the victims
    1 and 3. *)
Lemma X11_witness :
  reachable Scenarios.three_values
  ∧ drain (Size Scenarios.three_values) Scenarios.three_values
    = Some ([1; 2; 3]%nat, empty_replacer)
  ∧ (Erase 2%nat Scenarios.three_values).1 = true
  ∧ ∃ r2, drain (Size (Erase 2%nat Scenarios.three_values).2)
                (Erase 2%nat Scenarios.three_values).2
          = Some ([1; 3]%nat, r2).
Proof.
  assert (reachable Scenarios.three_values) as Hr.
  { unfold Scenarios.three_values. repeat constructor. }
  assert (drain (Size Scenarios.three_values) Scenarios.three_values
          = Some ([1; 2; 3]%nat, empty_replacer)) as Hd.
  { vm_compute. reflexivity. }
  destruct (X11_Erase_takes_value_out_of_victim_order
              Scenarios.three_values 2%nat _ _ Hr Hd) as (Hb & _ & Hrest).
  split; [exact Hr|]. split; [exact Hd|]. split; [|exact Hrest].
  rewrite Hb. reflexivity.
Defined.
End LRUOrder.
(** ** Lock manager: two-phase locking, wait-die and the queues *)

Module LockRules.
Import LockManager LockInv LockFacts.

(** *** The lock table *)

Lemma set_list_list_of lm rid :
  is_Some (lock_table_ lm !! rid) → set_list lm rid (list_of lm rid) = lm.
Proof.
  intros [l Hl]. unfold set_list, list_of. rewrite Hl. simpl.
  destruct lm as [s t]; simpl in *. f_equal. by apply insert_id.
Qed.

Lemma queue_nonempty_in_table lm rid :
  queue lm rid ≠ [] → is_Some (lock_table_ lm !! rid).
Proof.
  unfold queue, list_of. destruct (lock_table_ lm !! rid); [by eexists|done].
Qed.

Lemma queue_set_list lm rid l rid' :
  queue (set_list lm rid l) rid' = if decide (rid' = rid) then locks_ l else queue lm rid'.
Proof.
  unfold queue, list_of, set_list; simpl. destruct (decide (rid' = rid)) as [->|Hne].
  - by rewrite lookup_insert_eq.
  - by rewrite lookup_insert_ne.
Qed.

Lemma queue_set_list_of lm rid rid' :
  queue (set_list lm rid (list_of lm rid)) rid' = queue lm rid'.
Proof. rewrite queue_set_list. by destruct (decide (rid' = rid)) as [->|]. Qed.

(** *** Granted requests come first *)

Lemma granted_first_nil : granted_first [].
Proof. exists [], []. by repeat split. Qed.

Lemma granted_first_snoc_waiting locks l :
  granted_first locks → granted_ l = false → granted_first (locks ++ [l]).
Proof.
  intros (gs & ws & -> & Hg & Hw) Hl. exists gs, (ws ++ [l]).
  split; [by rewrite app_assoc|]. split; [done|].
  apply Forall_app. split; [done|]. by constructor.
Qed.

Lemma granted_first_all_granted locks back :
  granted_first locks → last locks = Some back → granted_ back = true →
  Forall (λ l, granted_ l = true) locks.
Proof.
  intros (gs & ws & -> & Hg & Hw) Hlast Hback.
  revert Hw Hlast. induction ws as [|w ws _] using rev_ind; intros Hw Hlast.
  { by rewrite app_nil_r. }
  rewrite app_assoc, last_snoc in Hlast. injection Hlast as ->.
  apply Forall_app in Hw as [_ Hw]. rewrite Forall_singleton in Hw.
  congruence.
Qed.

Lemma granted_first_snoc_granted locks l :
  Forall (λ l, granted_ l = true) locks → granted_ l = true →
  granted_first (locks ++ [l]).
Proof.
  intros Hall Hl. exists (locks ++ [l]), []. split; [by rewrite app_nil_r|].
  split; [|done]. apply Forall_app. split; [done|]. by constructor.
Qed.

Lemma granted_first_delete locks i :
  granted_first locks → granted_first (delete i locks).
Proof.
  intros (gs & ws & -> & Hg & Hw).
  destruct (decide (i < length gs)%nat) as [Hi|Hi].
  - exists (delete i gs), ws. split.
    + apply list_eq. intros j. rewrite list_lookup_delete.
      destruct (decide (j < i)%nat) as [Hj|Hj].
      * rewrite !lookup_app_l by (rewrite ?length_delete by (by apply lookup_lt_is_Some); lia).
        by rewrite list_lookup_delete_lt.
      * destruct (decide (S j < length gs)%nat) as [Hjg|Hjg].
        -- rewrite !lookup_app_l by (rewrite ?length_delete by (by apply lookup_lt_is_Some); lia).
           by rewrite list_lookup_delete_ge by lia.
        -- rewrite !lookup_app_r by (rewrite ?length_delete by (by apply lookup_lt_is_Some); lia).
           rewrite length_delete by (by apply lookup_lt_is_Some). f_equal. lia.
    + split; [by apply Forall_delete|done].
  - exists gs, (delete (i - length gs)%nat ws). split.
    + apply list_eq. intros j. rewrite list_lookup_delete.
      destruct (decide (j < length gs)%nat) as [Hjg|Hjg].
      * destruct (decide (j < i)%nat); [|lia]. by rewrite !lookup_app_l by lia.
      * destruct (decide (j < i)%nat); rewrite !lookup_app_r by lia;
          rewrite list_lookup_delete;
          destruct (decide (j - length gs < i - length gs)%nat); try lia; f_equal; lia.
    + split; [done|by apply Forall_delete].
Qed.

Lemma grant_next_waiting locks h :
  Forall (λ l, granted_ l = false) locks → granted_first (grant_next locks h).1.
Proof.
  induction 1 as [|l locks Hl Hall IH]; simpl; [apply granted_first_nil|].
  rewrite Hl. destruct (lock_type_ l); simpl.
  - destruct (grant_next locks h) as [rest' h'] eqn:Hg. simpl in *.
    destruct IH as (gs & ws & -> & Hgs & Hws).
    exists (Grant l :: gs), ws. split; [done|]. split; [by constructor|done].
  - exists [Grant l], locks. split; [done|]. split; [by repeat constructor|done].
  - exists [mkLock (txn_id_ l) EXCLUSIVE true], locks.
    split; [done|]. split; [by repeat constructor|done].
Qed.

Lemma granted_first_grant_next locks h :
  granted_first locks → granted_first (grant_next locks h).1.
Proof.
  intros (gs & ws & -> & Hg & Hw). destruct gs as [|g gs].
  - by apply grant_next_waiting.
  - apply Forall_cons in Hg as [Hg Hgs]. simpl. rewrite Hg. simpl.
    exists (g :: gs), ws. split; [done|]. split; [by constructor|done].
Qed.

Lemma granted_first_LockShared lm txn rid :
  (∀ r, granted_first (queue lm r)) →
  ∀ r, granted_first (queue (LockShared lm txn rid).1.2 r).
Proof.
  intros Hinv r. unfold LockShared.
  destruct (negb (bool_decide (GetState txn = GROWING))); [apply Hinv|].
  cbv zeta.
  destruct (last (locks_ (list_of lm rid))) as [back|] eqn:Hlast.
  - destruct (granted_ back && bool_decide (lock_type_ back = SHARED)) eqn:Hc; simpl.
    + rewrite set_list_set_list, queue_set_list. destruct (decide (r = rid)) as [->|]; [|apply Hinv].
      simpl. apply granted_first_snoc_granted; [|done].
      apply andb_true_iff in Hc as [Hc _].
      by apply (granted_first_all_granted _ back (Hinv rid)).
    + destruct (younger_than_back txn (locks_ (list_of lm rid))); simpl.
      * rewrite queue_set_list_of. apply Hinv.
      * rewrite set_list_set_list, queue_set_list.
        destruct (decide (r = rid)) as [->|]; [|apply Hinv].
        simpl. by apply granted_first_snoc_waiting; [apply Hinv|].
  - simpl. rewrite set_list_set_list, queue_set_list.
    destruct (decide (r = rid)) as [->|]; [|apply Hinv].
    simpl. apply last_None in Hlast. rewrite Hlast. simpl.
    by apply (granted_first_snoc_granted []).
Qed.

Lemma granted_first_LockExclusive lm txn rid :
  (∀ r, granted_first (queue lm r)) →
  ∀ r, granted_first (queue (LockExclusive lm txn rid).1.2 r).
Proof.
  intros Hinv r. unfold LockExclusive.
  destruct (negb (bool_decide (GetState txn = GROWING))); [apply Hinv|].
  cbv zeta.
  destruct (bool_decide (locks_ (list_of lm rid) = [])) eqn:Hc; simpl.
  - rewrite set_list_set_list, queue_set_list. destruct (decide (r = rid)) as [->|]; [|apply Hinv].
    simpl. apply bool_decide_eq_true_1 in Hc. rewrite Hc.
    by apply (granted_first_snoc_granted []).
  - destruct (younger_than_back txn (locks_ (list_of lm rid))); simpl.
    + rewrite queue_set_list_of. apply Hinv.
    + rewrite set_list_set_list, queue_set_list.
      destruct (decide (r = rid)) as [->|]; [|apply Hinv].
      simpl. by apply granted_first_snoc_waiting; [apply Hinv|].
Qed.

Lemma granted_first_LockUpgrade lm txn rid :
  (∀ r, granted_first (queue lm r)) →
  ∀ r, granted_first (queue (LockUpgrade lm txn rid).1.2 r).
Proof.
  intros Hinv r. unfold LockUpgrade.
  destruct (negb (bool_decide (GetState txn = GROWING))); [apply Hinv|].
  cbv zeta.
  destruct (has_upgrated_ (list_of lm rid)); simpl.
  { rewrite queue_set_list_of. apply Hinv. }
  match goal with |- context [match ?f with Some _ => _ | None => _ end] =>
    destruct f as [i|] eqn:Hfound end; simpl.
  2:{ rewrite queue_set_list_of. apply Hinv. }
  pose proof (granted_first_delete _ i (Hinv rid)) as Hdel. unfold queue in Hdel.
  destruct (bool_decide (delete i (locks_ (list_of lm rid)) = [])) eqn:Hc; simpl.
  - rewrite set_list_set_list, queue_set_list. destruct (decide (r = rid)) as [->|]; [|apply Hinv].
    simpl. apply bool_decide_eq_true_1 in Hc. rewrite Hc.
    by apply (granted_first_snoc_granted []).
  - match goal with |- context [younger_than_back ?t ?l] =>
      destruct (younger_than_back t l) end; simpl;
      rewrite set_list_set_list, queue_set_list;
      (destruct (decide (r = rid)) as [->|]; [|apply Hinv]); simpl; [done|].
    by apply granted_first_snoc_waiting.
Qed.

(** *** Unlock *)

(** Unlock on the path that releases: the request is removed; when the
    queue is then empty the record leaves the table, otherwise the grant
    loop runs on what is left. *)
Lemma Unlock_releases lm txn rid i it :
  (strict_2PL_ lm = true → GetState txn = COMMITTED ∨ GetState txn = ABORTED) →
  find_request (GetTransactionId txn) (queue lm rid) = Some i →
  queue lm rid !! i = Some it →
  let txn1 := if negb (strict_2PL_ lm) && bool_decide (GetState txn = GROWING)
              then SetState SHRINKING txn else txn in
  let txn2 := if bool_decide (lock_type_ it = SHARED)
              then set_shared (shared_lock_set txn1 ∖ {[rid]}) txn1
              else set_exclusive (exclusive_lock_set txn1 ∖ {[rid]}) txn1 in
  let rest := delete i (queue lm rid) in
  Unlock lm txn rid
  = Some (true,
          if bool_decide (rest = [])
          then mkLM (strict_2PL_ lm) (delete rid (lock_table_ lm))
          else set_list lm rid (mkList (grant_next rest (has_upgrated_ (list_of lm rid))).1
                                       (grant_next rest (has_upgrated_ (list_of lm rid))).2),
          txn2).
Proof.
  intros Hstrict Hfind Hit. unfold queue in *. unfold Unlock.
  assert (strict_2PL_ lm && negb (bool_decide (GetState txn = COMMITTED))
          && negb (bool_decide (GetState txn = ABORTED)) = false) as ->.
  { destruct (strict_2PL_ lm); [|done].
    destruct (Hstrict eq_refl) as [-> | ->]; done. }
  set (txn1 := if negb (strict_2PL_ lm) && bool_decide (GetState txn = GROWING)
               then SetState SHRINKING txn else txn).
  assert (GetTransactionId txn1 = GetTransactionId txn) as ->.
  { unfold txn1. by destruct (_ && _). }
  rewrite Hfind. cbn -[grant_next]. rewrite Hit. cbn -[grant_next].
  destruct (bool_decide (delete i (locks_ (list_of lm rid)) = [])); [done|].
  by destruct (grant_next _ _).
Qed.

Lemma granted_first_Unlock lm txn rid b lm' txn' :
  (∀ r, granted_first (queue lm r)) →
  Unlock lm txn rid = Some (b, lm', txn') →
  ∀ r, granted_first (queue lm' r).
Proof.
  intros Hinv Hu r. unfold Unlock in Hu.
  destruct (strict_2PL_ lm && negb (bool_decide (GetState txn = COMMITTED))
            && negb (bool_decide (GetState txn = ABORTED))).
  { injection Hu as <- <- <-. apply Hinv. }
  revert Hu. cbv zeta.
  match goal with |- context [find_request ?id ?l] =>
    destruct (find_request id l) as [i|] end; [|done].
  cbn -[grant_next].
  destruct (locks_ (list_of lm rid) !! i) as [it|]; [|done]. cbn -[grant_next].
  destruct (bool_decide (delete i (locks_ (list_of lm rid)) = [])) eqn:Hc.
  - intros [= <- <- <-]. unfold queue, list_of; simpl.
    destruct (decide (r = rid)) as [->|Hne].
    + rewrite lookup_delete_eq. apply granted_first_nil.
    + rewrite lookup_delete_ne by done. apply (Hinv r).
  - destruct (grant_next _ _) as [locks2 h] eqn:Hg. intros [= <- <- <-].
    rewrite queue_set_list. destruct (decide (r = rid)) as [->|]; [|apply Hinv].
    simpl. replace locks2 with (grant_next (delete i (locks_ (list_of lm rid)))
                                  (has_upgrated_ (list_of lm rid))).1 by (by rewrite Hg).
    apply granted_first_grant_next, granted_first_delete, (Hinv rid).
Qed.

Lemma reachable_granted_first strict lm :
  reachable strict lm → ∀ r, granted_first (queue lm r).
Proof.
  induction 1 as [|lm txn rid _ IH|lm txn rid _ IH|lm txn rid _ IH
                  |lm txn rid b lm' txn' _ IH Hu].
  - intros r. unfold queue. rewrite list_of_init. apply granted_first_nil.
  - by apply granted_first_LockShared.
  - by apply granted_first_LockExclusive.
  - by apply granted_first_LockUpgrade.
  - by apply (granted_first_Unlock lm txn rid b lm' txn').
Qed.

(** X12: no request overtakes another.  In every queue of a lock
    manager that calls of LockShared, LockExclusive, LockUpgrade and
    Unlock have made of a new one, the granted requests come first: a
    request is never granted while a request before it in the queue
    still waits. *)
Theorem X12_granted_requests_come_first strict lm rid :
  reachable strict lm →
  granted_first (queue lm rid)
  ∧ ∀ (i j : nat) a b, queue lm rid !! i = Some a → queue lm rid !! j = Some b →
                       (i < j)%nat → granted_ b = true → granted_ a = true.
Proof.
  intros Hr. pose proof (reachable_granted_first strict lm Hr rid) as Hgf.
  split; [done|]. destruct Hgf as (gs & ws & -> & Hg & Hw).
  intros i j a b Ha Hb Hij Hgb.
  destruct (decide (i < length gs)%nat) as [Hi|Hi].
  - rewrite lookup_app_l in Ha by done.
    by apply (Forall_lookup_1 _ _ _ _ Hg Ha).
  - rewrite lookup_app_r in Hb by lia.
    pose proof (Forall_lookup_1 _ _ _ _ Hw Hb) as Hb'. simpl in Hb'. congruence.
Qed.

(** *** The grant loop behind a run of readers *)

Lemma grant_next_run ws e rest h :
  Forall waiting_shared ws → granted_ e = false → lock_type_ e ≠ SHARED →
  grant_next (ws ++ e :: rest) h
  = ((Grant <$> ws) ++ granted_exclusive e :: rest,
     if bool_decide (lock_type_ e = UPGRADING) then false else h).
Proof.
  intros Hws He Ht. induction Hws as [|w ws [Hw Hwt] _ IH]; simpl.
  - rewrite He. unfold granted_exclusive.
    destruct (lock_type_ e) eqn:Hte; simpl; [done| |done].
    unfold Grant. by rewrite Hte.
  - rewrite Hw, Hwt. by rewrite IH.
Qed.

Lemma grant_next_ids locks h : txn_id_ <$> (grant_next locks h).1 = txn_id_ <$> locks.
Proof.
  induction locks as [|l locks IH]; simpl; [done|].
  destruct (granted_ l); [done|]. destruct (lock_type_ l); simpl; [|done..].
  destruct (grant_next locks h). simpl in *. f_equal. exact IH.
Qed.

(** X13: the grant loop of Unlock grants one request too many behind
    readers.  When the queue left by the released request starts with
    waiting SHARED requests and the request behind them waits as well
    and is not SHARED, Unlock grants the SHARED requests and this
    request too (as an EXCLUSIVE one): shared and exclusive locks on the
    record are then granted together. *)
Theorem X13_Unlock_grants_writer_behind_readers (lm : LockManager) (txn : Transaction)
    (rid : Z) (i : nat) (ws : list TxLockForRecord) (e : TxLockForRecord)
    (rest : list TxLockForRecord) :
  (strict_2PL_ lm = true → GetState txn = COMMITTED ∨ GetState txn = ABORTED) →
  find_request (GetTransactionId txn) (queue lm rid) = Some i →
  delete i (queue lm rid) = ws ++ e :: rest →
  ws ≠ [] → Forall waiting_shared ws →
  granted_ e = false → lock_type_ e ≠ SHARED →
  ∃ lm' txn',
    Unlock lm txn rid = Some (true, lm', txn')
    ∧ queue lm' rid = (Grant <$> ws) ++ granted_exclusive e :: rest
    ∧ Forall (λ l, granted_ l = true ∧ lock_type_ l = SHARED) (Grant <$> ws)
    ∧ granted_ (granted_exclusive e) = true
    ∧ lock_type_ (granted_exclusive e) = EXCLUSIVE.
Proof.
  intros Hstrict Hfind Hdel Hne Hws He Ht.
  destruct (find_request_lookup _ _ _ Hfind) as [it Hit].
  rewrite (Unlock_releases lm txn rid i it Hstrict Hfind Hit). cbv zeta.
  rewrite Hdel. rewrite bool_decide_eq_false_2 by (by destruct ws).
  eexists _, _. split; [reflexivity|].
  rewrite queue_set_list, decide_True by done. simpl.
  rewrite grant_next_run by done. simpl. split; [done|].
  split; [|done]. apply Forall_fmap. eapply Forall_impl; [exact Hws|].
  intros l [_ Hl]. by split.
Qed.

(** X13 on the queue of T10 (holding the exclusive lock), the reader T5
    and the writer T3, both waiting: when T10 unlocks, both are
    granted. *)
Lemma X13_witness :
  ∃ lm' txn',
    Unlock (set_list (init false) 7
              (mkList [mkLock 10 EXCLUSIVE true; mkLock 5 SHARED false;
                       mkLock 3 EXCLUSIVE false] false))
           (Scenarios.fresh_txn 10) 7 = Some (true, lm', txn')
    ∧ queue lm' 7 = [mkLock 5 SHARED true; mkLock 3 EXCLUSIVE true].
Proof.
  pose (lm := set_list (init false) 7
                (mkList [mkLock 10 EXCLUSIVE true; mkLock 5 SHARED false;
                         mkLock 3 EXCLUSIVE false] false)).
  destruct (X13_Unlock_grants_writer_behind_readers lm (Scenarios.fresh_txn 10) 7 0%nat
              [mkLock 5 SHARED false] (mkLock 3 EXCLUSIVE false) [])
    as (lm' & txn' & Hu & Hq & _).
  - intros Hs. vm_compute in Hs. discriminate Hs.
  - vm_compute. reflexivity.
  - vm_compute. reflexivity.
  - discriminate.
  - repeat constructor.
  - reflexivity.
  - discriminate.
  - exists lm', txn'. split; [exact Hu | exact Hq].
Defined.

(** *** Two-phase locking *)

Lemma not_growing_LockShared lm txn rid :
  GetState txn ≠ GROWING →
  LockShared lm txn rid = (Returns false, lm, SetState ABORTED txn).
Proof. intros Hs. unfold LockShared. by rewrite bool_decide_eq_false_2. Qed.

Lemma not_growing_LockExclusive lm txn rid :
  GetState txn ≠ GROWING →
  LockExclusive lm txn rid = (Returns false, lm, SetState ABORTED txn).
Proof. intros Hs. unfold LockExclusive. by rewrite bool_decide_eq_false_2. Qed.

Lemma not_growing_LockUpgrade lm txn rid :
  GetState txn ≠ GROWING →
  LockUpgrade lm txn rid = (Returns false, lm, SetState ABORTED txn).
Proof. intros Hs. unfold LockUpgrade. by rewrite bool_decide_eq_false_2. Qed.

(** X14: two-phase locking without the strict rule.  Once Unlock has
    released a lock of a GROWING transaction, the transaction is
    SHRINKING, and each of LockShared, LockExclusive and LockUpgrade,
    on any record, then returns false, sets the transaction ABORTED and
    leaves the lock table as it is. *)
Theorem X14_no_lock_after_unlock (lm : LockManager) (txn : Transaction) (rid : Z)
    (lm' : LockManager) (txn' : Transaction) :
  strict_2PL_ lm = false → GetState txn = GROWING →
  Unlock lm txn rid = Some (true, lm', txn') →
  GetState txn' = SHRINKING
  ∧ ∀ rid2,
      LockShared lm' txn' rid2 = (Returns false, lm', SetState ABORTED txn')
      ∧ LockExclusive lm' txn' rid2 = (Returns false, lm', SetState ABORTED txn')
      ∧ LockUpgrade lm' txn' rid2 = (Returns false, lm', SetState ABORTED txn').
Proof.
  intros Hstrict Hg Hu.
  assert (GetState txn' = SHRINKING) as Hs.
  { unfold Unlock in Hu. rewrite Hstrict, Hg in Hu. simpl in Hu.
    revert Hu. cbv zeta.
    match goal with |- context [find_request ?id ?l] =>
      destruct (find_request id l) as [i|] end; [|done].
    cbn -[grant_next].
    destruct (locks_ (list_of lm rid) !! i) as [it|]; [|done]. cbn -[grant_next].
    destruct (bool_decide (delete i (locks_ (list_of lm rid)) = [])).
    - intros [= _ <-]. by destruct (bool_decide (lock_type_ it = SHARED)).
    - destruct (grant_next _ _). intros [= _ <-].
      by destruct (bool_decide (lock_type_ it = SHARED)). }
  split; [done|]. intros rid2.
  assert (GetState txn' ≠ GROWING) as Hng by (rewrite Hs; discriminate).
  split; [by apply not_growing_LockShared|].
  split; [by apply not_growing_LockExclusive | by apply not_growing_LockUpgrade].
Qed.

(** X14 where T10, alone on record 7, unlocks and asks for record 8. *)
Lemma X14_witness :
  ∃ lm' txn',
    Unlock (set_list (init false) 7 (mkList [mkLock 10 EXCLUSIVE true] false))
           (Scenarios.fresh_txn 10) 7 = Some (true, lm', txn')
    ∧ GetState txn' = SHRINKING
    ∧ LockShared lm' txn' 8 = (Returns false, lm', SetState ABORTED txn').
Proof.
  pose (lm := set_list (init false) 7 (mkList [mkLock 10 EXCLUSIVE true] false)).
  destruct (Unlock lm (Scenarios.fresh_txn 10) 7) as [[[b lm'] txn']|] eqn:Hu;
    [|vm_compute in Hu; discriminate Hu].
  assert (b = true) as -> by (vm_compute in Hu; by injection Hu as <- _ _).
  destruct (X14_no_lock_after_unlock lm (Scenarios.fresh_txn 10) 7 lm' txn'
              eq_refl eq_refl Hu) as [Hs Hall].
  exists lm', txn'. split; [exact Hu|]. split; [exact Hs|].
  exact (proj1 (Hall 8)).
Defined.

(** *** What Unlock does to the table and to the transaction *)

(** X15: Unlock on the path that releases (under the strict rule the
    transaction is COMMITTED or ABORTED) takes the caller's first
    request out of the queue of the record and keeps the order of the
    other requests; the record leaves the lock table when no request is
    left; the queues of the other records are untouched; and the record
    leaves the transaction's shared set when the request was SHARED, its
    exclusive set otherwise. *)
Theorem X15_Unlock_removes_request (lm : LockManager) (txn : Transaction) (rid : Z)
    (i : nat) (it : TxLockForRecord) :
  (strict_2PL_ lm = true → GetState txn = COMMITTED ∨ GetState txn = ABORTED) →
  find_request (GetTransactionId txn) (queue lm rid) = Some i →
  queue lm rid !! i = Some it →
  ∃ lm' txn',
    Unlock lm txn rid = Some (true, lm', txn')
    ∧ txn_id_ <$> queue lm' rid = delete i (txn_id_ <$> queue lm rid)
    ∧ (queue lm' rid = [] → lock_table_ lm' !! rid = None)
    ∧ (∀ rid', rid' ≠ rid → lock_table_ lm' !! rid' = lock_table_ lm !! rid')
    ∧ (lock_type_ it = SHARED →
         shared_lock_set txn' = shared_lock_set txn ∖ {[rid]}
         ∧ exclusive_lock_set txn' = exclusive_lock_set txn)
    ∧ (lock_type_ it ≠ SHARED →
         shared_lock_set txn' = shared_lock_set txn
         ∧ exclusive_lock_set txn' = exclusive_lock_set txn ∖ {[rid]}).
Proof.
  intros Hstrict Hfind Hit.
  rewrite (Unlock_releases lm txn rid i it Hstrict Hfind Hit). cbv zeta.
  eexists _, _. split; [reflexivity|].
  set (txn1 := if negb (strict_2PL_ lm) && bool_decide (GetState txn = GROWING)
               then SetState SHRINKING txn else txn).
  assert (shared_lock_set txn1 = shared_lock_set txn
          ∧ exclusive_lock_set txn1 = exclusive_lock_set txn) as [Hsh Hex].
  { unfold txn1. by destruct (_ && _). }
  split; [|split; [|split; [|split]]].
  - destruct (bool_decide (delete i (queue lm rid) = [])) eqn:Hc.
    + apply bool_decide_eq_true_1 in Hc. rewrite <- list_fmap_delete, Hc.
      unfold queue, list_of. simpl. by rewrite lookup_delete_eq.
    + rewrite queue_set_list, decide_True by done. simpl.
      by rewrite grant_next_ids, list_fmap_delete.
  - destruct (bool_decide (delete i (queue lm rid) = [])) eqn:Hc.
    + intros _. simpl. by rewrite lookup_delete_eq.
    + rewrite queue_set_list, decide_True by done. simpl. intros Hq.
      apply bool_decide_eq_false_1 in Hc. exfalso. apply Hc.
      apply (f_equal (fmap txn_id_)) in Hq. rewrite grant_next_ids in Hq.
      by apply fmap_nil_inv in Hq.
  - intros rid' Hne. destruct (bool_decide (delete i (queue lm rid) = [])); simpl.
    + by rewrite lookup_delete_ne.
    + by rewrite lookup_insert_ne.
  - intros Ht. rewrite bool_decide_eq_true_2 by done. simpl. by rewrite Hsh, Hex.
  - intros Ht. rewrite bool_decide_eq_false_2 by done. simpl. by rewrite Hsh, Hex.
Qed.

(** X15 where T10 releases record 7 while T5 waits for it. *)
Lemma X15_witness :
  ∃ lm' txn',
    Unlock (set_list (init false) 7
              (mkList [mkLock 10 EXCLUSIVE true; mkLock 5 EXCLUSIVE false] false))
           (Scenarios.fresh_txn 10) 7 = Some (true, lm', txn')
    ∧ txn_id_ <$> queue lm' 7 = [5].
Proof.
  pose (lm := set_list (init false) 7
                (mkList [mkLock 10 EXCLUSIVE true; mkLock 5 EXCLUSIVE false] false)).
  destruct (X15_Unlock_removes_request lm (Scenarios.fresh_txn 10) 7 0%nat
              (mkLock 10 EXCLUSIVE true))
    as (lm' & txn' & Hu & Hq & _).
  - intros Hs. vm_compute in Hs. discriminate Hs.
  - vm_compute. reflexivity.
  - vm_compute. reflexivity.
  - exists lm', txn'. split; [exact Hu | exact Hq].
Defined.

(** *** Upgrades *)

(** X16: one pending upgrade per record.  While a LockUpgrade on a
    record blocks (its request waits as UPGRADING), LockUpgrade by any
    transaction on this record returns false, sets that transaction
    ABORTED and leaves the lock table as it is; the queue keeps every
    request, the shared request of the refused transaction included. *)
Theorem X16_one_pending_upgrade (lm : LockManager) (txn : Transaction) (rid : Z)
    (lm' : LockManager) (txn' : Transaction) (txn2 : Transaction) :
  LockUpgrade lm txn rid = (Waits, lm', txn') →
  has_upgrated_ (list_of lm' rid) = true
  ∧ LockUpgrade lm' txn2 rid = (Returns false, lm', SetState ABORTED txn2).
Proof.
  intros Hup.
  assert (has_upgrated_ (list_of lm' rid) = true ∧ is_Some (lock_table_ lm' !! rid))
    as [Hflag Hin].
  { revert Hup. unfold LockUpgrade.
    destruct (negb (bool_decide (GetState txn = GROWING))); [done|]. cbv zeta.
    destruct (has_upgrated_ (list_of lm rid)); [done|].
    match goal with |- context [match ?f with Some _ => _ | None => _ end] =>
      destruct f as [i|] end; [|done].
    destruct (bool_decide (delete i (locks_ (list_of lm rid)) = [])); simpl; [done|].
    match goal with |- context [younger_than_back ?t ?l] =>
      destruct (younger_than_back t l) end; simpl; [done|].
    intros [= <- _]. rewrite list_of_set_list. split; [done|].
    simpl. rewrite lookup_insert_eq. by eexists. }
  split; [done|]. unfold LockUpgrade.
  destruct (negb (bool_decide (GetState txn2 = GROWING))); [done|]. cbv zeta.
  by rewrite Hflag, set_list_list_of.
Qed.

(** X16 where T3 and T8 hold the shared lock of record 7: the upgrade
    of T3 blocks, the upgrade of T8 is then refused. *)
Lemma X16_witness :
  ∃ lm' txn',
    LockUpgrade (set_list (init false) 7
                   (mkList [mkLock 3 SHARED true; mkLock 8 SHARED true] false))
                (Scenarios.fresh_txn 3) 7 = (Waits, lm', txn')
    ∧ queue lm' 7 = [mkLock 8 SHARED true; mkLock 3 UPGRADING false]
    ∧ LockUpgrade lm' (Scenarios.fresh_txn 8) 7
      = (Returns false, lm', SetState ABORTED (Scenarios.fresh_txn 8)).
Proof.
  pose (lm := set_list (init false) 7
                (mkList [mkLock 3 SHARED true; mkLock 8 SHARED true] false)).
  destruct (LockUpgrade lm (Scenarios.fresh_txn 3) 7) as [[o lm'] txn'] eqn:Hup.
  assert (o = Waits) as -> by (vm_compute in Hup; by injection Hup as <- _ _).
  assert (queue lm' 7 = [mkLock 8 SHARED true; mkLock 3 UPGRADING false]) as Hq.
  { vm_compute in Hup. injection Hup as <- _. vm_compute. reflexivity. }
  destruct (X16_one_pending_upgrade lm (Scenarios.fresh_txn 3) 7 lm' txn'
              (Scenarios.fresh_txn 8) Hup) as [_ Hsecond].
  exists lm', txn'. split; [exact Hup|]. split; [exact Hq | exact Hsecond].
Defined.

(** *** Wait-die *)

Lemma younger_than_back_last txn locks back :
  last locks = Some back →
  younger_than_back txn locks = (txn_id_ back <? GetTransactionId txn).
Proof. intros Hl. unfold younger_than_back. by rewrite Hl. Qed.

(** X17: the wait-die rule.  A GROWING transaction asks for a lock of a
    record whose queue is not empty, [back] being the last request.  An
    exclusive request, and a shared request when [back] is not a granted
    SHARED one, is refused when the transaction is younger than that of
    [back] (greater id): the call returns false, the transaction is
    ABORTED and the lock table is as before; otherwise the request is
    appended as a waiting one and the call blocks.  A shared request
    behind a granted SHARED [back] is appended as granted, the call
    returns true and the record enters the shared set. *)
Theorem X17_wait_die (lm : LockManager) (txn : Transaction) (rid : Z)
    (back : TxLockForRecord) :
  GetState txn = GROWING → last (queue lm rid) = Some back →
  let id := GetTransactionId txn in
  let append l := set_list lm rid (mkList (queue lm rid ++ [l])
                                          (has_upgrated_ (list_of lm rid))) in
  (txn_id_ back < id →
     LockExclusive lm txn rid = (Returns false, lm, SetState ABORTED txn))
  ∧ (id ≤ txn_id_ back →
       LockExclusive lm txn rid = (Waits, append (mkLock id EXCLUSIVE false), txn))
  ∧ (granted_ back = true → lock_type_ back = SHARED →
       LockShared lm txn rid
       = (Returns true, append (mkLock id SHARED true),
          set_shared ({[rid]} ∪ shared_lock_set txn) txn))
  ∧ (granted_ back = false ∨ lock_type_ back ≠ SHARED →
       (txn_id_ back < id →
          LockShared lm txn rid = (Returns false, lm, SetState ABORTED txn))
       ∧ (id ≤ txn_id_ back →
            LockShared lm txn rid = (Waits, append (mkLock id SHARED false), txn))).
Proof.
  intros Hg Hlast id append.
  assert (queue lm rid ≠ []) as Hne by (intros Hq; by rewrite Hq in Hlast).
  pose proof (set_list_list_of lm rid (queue_nonempty_in_table lm rid Hne)) as Hsame.
  unfold queue in *.
  assert (bool_decide (locks_ (list_of lm rid) = []) = false) as Hnil
    by (by apply bool_decide_eq_false_2).
  split; [|split; [|split]].
  - intros Hy. unfold LockExclusive. rewrite Hg. simpl. rewrite Hnil. simpl.
    rewrite (younger_than_back_last txn _ back Hlast).
    rewrite (proj2 (Z.ltb_lt _ _)) by done. by rewrite Hsame.
  - intros Ho. unfold LockExclusive. rewrite Hg. simpl. rewrite Hnil. simpl.
    rewrite (younger_than_back_last txn _ back Hlast).
    rewrite (proj2 (Z.ltb_ge _ _)) by done. by rewrite Hsame.
  - intros Hgb Hsb. unfold LockShared. rewrite Hg. simpl. rewrite Hlast, Hgb.
    rewrite bool_decide_eq_true_2 by done. simpl. by rewrite Hsame.
  - intros Hc.
    assert (granted_ back && bool_decide (lock_type_ back = SHARED) = false) as Hcg.
    { destruct Hc as [-> | Hc]; [done|].
      rewrite (bool_decide_eq_false_2 _ Hc). apply andb_false_r. }
    split.
    + intros Hy. unfold LockShared. rewrite Hg. simpl. rewrite Hlast, Hcg. simpl.
      rewrite (younger_than_back_last txn _ back Hlast).
      rewrite (proj2 (Z.ltb_lt _ _)) by done. by rewrite Hsame.
    + intros Ho. unfold LockShared. rewrite Hg. simpl. rewrite Hlast, Hcg. simpl.
      rewrite (younger_than_back_last txn _ back Hlast).
      rewrite (proj2 (Z.ltb_ge _ _)) by done. by rewrite Hsame.
Qed.

(** X17 on the queue where T10 holds the exclusive lock of record 7:
    T20 dies, T5 waits. *)
Lemma X17_witness :
  LockExclusive (set_list (init false) 7 (mkList [mkLock 10 EXCLUSIVE true] false))
                (Scenarios.fresh_txn 20) 7
  = (Returns false, set_list (init false) 7 (mkList [mkLock 10 EXCLUSIVE true] false),
     SetState ABORTED (Scenarios.fresh_txn 20))
  ∧ (LockExclusive (set_list (init false) 7 (mkList [mkLock 10 EXCLUSIVE true] false))
                   (Scenarios.fresh_txn 5) 7).1.1 = Waits.
Proof.
  pose (lm := set_list (init false) 7 (mkList [mkLock 10 EXCLUSIVE true] false)).
  assert (last (queue lm 7) = Some (mkLock 10 EXCLUSIVE true)) as Hlast
    by (vm_compute; reflexivity).
  destruct (X17_wait_die lm (Scenarios.fresh_txn 20) 7 (mkLock 10 EXCLUSIVE true)
              eq_refl Hlast) as (Hdie & _).
  destruct (X17_wait_die lm (Scenarios.fresh_txn 5) 7 (mkLock 10 EXCLUSIVE true)
              eq_refl Hlast) as (_ & Hwait & _).
  split.
  - apply Hdie. reflexivity.
  - unfold lm in Hwait. rewrite Hwait; [reflexivity|]. vm_compute. discriminate.
Defined.

(** X12 on the lock manager of the queue with two readers and a waiting
    writer. *)
Lemma X12_witness :
  reachable false Scenarios.two_readers_one_writer.1
  ∧ granted_first (queue Scenarios.two_readers_one_writer.1 7).
Proof.
  assert (reachable false Scenarios.two_readers_one_writer.1) as Hr.
  { change Scenarios.two_readers_one_writer.1
      with (LockExclusive
              (LockShared (LockShared (init false) (Scenarios.fresh_txn 1) 7).1.2
                          (Scenarios.fresh_txn 2) 7).1.2
              (Scenarios.fresh_txn 0) 7).1.2.
    repeat constructor. }
  split; [exact Hr|].
  exact (proj1 (X12_granted_requests_come_first false _ 7 Hr)).
Defined.
End LockRules.
(** ** Extendible hash table: lookups after Insert and Remove *)

Module EHTLookup.
Import EHT EHTInv.
Section Table.
Context {V : Type}.
Variable hash : Z → Z.
Implicit Types (t : @ExtendibleHash V) (b : @Bucket V) (e : @BucketEntry V)
               (es : list (@BucketEntry V)) (k : Z) (v : V).

(** *** The entries of one bucket *)

Ltac no_match :=
  match goal with
  | |- context [matches ?k ?e] =>
      let H := fresh "Hm" in
      destruct (matches k e) eqn:H;
      [apply andb_true_iff in H as [?%Z.eqb_eq ?%Z.eqb_eq]; simpl in *;
       first [congruence | discriminate] |]
  end.

Lemma matches_true k e : matches k e = true ↔ flag e = HASVAL ∧ key e = k.
Proof. unfold matches. rewrite andb_true_iff, !Z.eqb_eq. done. Qed.

Lemma matches_false k e : matches k e = false ↔ ¬ (flag e = HASVAL ∧ key e = k).
Proof. rewrite <- matches_true. by destruct (matches k e). Qed.

Lemma okeys_cons e es :
  okeys (e :: es) = if decide (flag e = HASVAL) then key e :: okeys es else okeys es.
Proof. unfold okeys. rewrite filter_cons. by destruct (decide _). Qed.

Lemma okeys_app es1 es2 : okeys (es1 ++ es2) = okeys es1 ++ okeys es2.
Proof. unfold okeys. by rewrite filter_app, fmap_app. Qed.

Lemma elem_of_okeys k es :
  k ∈ okeys es ↔ ∃ e, e ∈ es ∧ flag e = HASVAL ∧ key e = k.
Proof.
  unfold okeys. rewrite list_elem_of_fmap. split.
  - intros (e & -> & He). apply list_elem_of_filter in He as [Hf He]. by exists e.
  - intros (e & He & Hf & <-). exists e. split; [done|]. by apply list_elem_of_filter.
Qed.

Lemma length_okeys_le es : (length (okeys es) ≤ length es)%nat.
Proof. unfold okeys. rewrite length_fmap. apply length_filter. Qed.

Lemma find_entry_notin k es : k ∉ okeys es → find_entry k es = None.
Proof.
  induction es as [|e es IH]; simpl; [done|]. rewrite okeys_cons. intros Hk.
  destruct (matches k e) eqn:Hm.
  - apply matches_true in Hm as [Hf <-]. rewrite decide_True in Hk by done.
    exfalso. apply Hk. by left.
  - apply IH. destruct (decide _); [|done]. intros Hin. apply Hk. by right.
Qed.

Lemma find_entry_in k es :
  Forall entry_ok es → k ∈ okeys es → is_Some (find_entry k es).
Proof.
  induction 1 as [|e es He _ IH]; simpl; [by intros ?%elem_of_nil|].
  rewrite okeys_cons. intros Hk. destruct (matches k e) eqn:Hm.
  - apply matches_true in Hm as [Hf _].
    destruct He as [He|[_ He]]; [|done]. rewrite He in Hf. discriminate Hf.
  - apply IH. destruct (decide _) as [Hf|]; [|done].
    apply elem_of_cons in Hk as [->|Hk]; [|done].
    apply matches_false in Hm. by destruct Hm.
Qed.

Lemma find_entry_Some_in k v es : find_entry k es = Some v → k ∈ okeys es.
Proof.
  intros Hf. destruct (decide (k ∈ okeys es)) as [|Hn]; [done|].
  by rewrite find_entry_notin in Hf.
Qed.

(** *** The first loop of Insert: a matching entry gets the value *)

Lemma update_entry_None k v es : update_entry k v es = None ↔ k ∉ okeys es.
Proof.
  induction es as [|e es IH]; simpl.
  - split; [intros _ ?%elem_of_nil; done|done].
  - rewrite okeys_cons. destruct (matches k e) eqn:Hm.
    + apply matches_true in Hm as [Hf <-]. rewrite decide_True by done.
      split; [done|]. intros Hk. exfalso. apply Hk. by left.
    + rewrite fmap_None, IH. apply matches_false in Hm.
      destruct (decide _) as [Hf|]; [|done]. rewrite not_elem_of_cons.
      split; [|tauto]. intros Hk. split; [|done]. intros ->. by apply Hm.
Qed.

Lemma update_entry_Some k v es es' :
  update_entry k v es = Some es' →
  length es' = length es
  ∧ okeys es' = okeys es
  ∧ (Forall entry_ok es → Forall entry_ok es')
  ∧ find_entry k es' = Some v
  ∧ ∀ k', k' ≠ k → find_entry k' es' = find_entry k' es.
Proof.
  revert es'. induction es as [|e es IH]; simpl; intros es' Hu; [done|].
  destruct (matches k e) eqn:Hm.
  - injection Hu as <-. apply matches_true in Hm as [Hf Hk].
    split; [done|]. rewrite !okeys_cons. simpl. split; [done|]. split.
    + intros Hall. apply Forall_cons in Hall as [_ Hall]. constructor; [|done].
      right. split; [done|]. by eexists.
    + assert (matches k (mkEntry (flag e) (key e) (Some v)) = true) as Hm1
        by (by apply matches_true).
      cbn [find_entry]. rewrite Hm1. split; [done|]. intros k' Hk'.
      assert (matches k' (mkEntry (flag e) (key e) (Some v)) = false) as ->
        by (apply matches_false; simpl; intros [_ ?]; congruence).
      assert (matches k' e = false) as ->
        by (apply matches_false; intros [_ ?]; congruence).
      done.
  - destruct (update_entry k v es) as [es1|] eqn:Hu1; [|done].
    injection Hu as <-. destruct (IH es1 eq_refl) as (Hl & Hk & Hok & Hfind & Hother).
    simpl. split; [by rewrite Hl|]. rewrite !okeys_cons, Hk. split; [done|]. split.
    + intros Hall. apply Forall_cons in Hall as [He Hall]. constructor; [done|by apply Hok].
    + rewrite Hm. split; [done|]. intros k' Hk'. by rewrite Hother.
Qed.

(** *** The last loop of Insert: the first empty entry is filled *)

Lemma fill_entry_is_Some k v es :
  Forall entry_ok es → (length (okeys es) < length es)%nat →
  is_Some (fill_entry k v es).
Proof.
  induction 1 as [|e es He _ IH]; simpl; [lia|].
  rewrite okeys_cons. destruct (Z.eqb_spec (flag e) NONE) as [Hf|Hf]; [by eexists|].
  destruct He as [He|[He _]]; [done|]. rewrite decide_True by done. simpl.
  intros Hlen. destruct IH as [es' ->]; [lia|]. by eexists.
Qed.

Lemma fill_entry_Some k v es es' :
  k ∉ okeys es → fill_entry k v es = Some es' →
  length es' = length es
  ∧ okeys es' ≡ₚ k :: okeys es
  ∧ (Forall entry_ok es → Forall entry_ok es')
  ∧ find_entry k es' = Some v
  ∧ ∀ k', k' ≠ k → find_entry k' es' = find_entry k' es.
Proof.
  revert es'. induction es as [|e es IH]; simpl; intros es' Hk Hu; [done|].
  rewrite okeys_cons in Hk.
  destruct (Z.eqb_spec (flag e) NONE) as [Hf|Hf].
  - injection Hu as <-. split; [done|]. rewrite !okeys_cons. cbn [flag key].
    destruct (decide (HASVAL = HASVAL)) as [_|]; [|done].
    destruct (decide (flag e = HASVAL)) as [Hc|_]; [rewrite Hf in Hc; discriminate Hc|].
    split; [done|]. split.
    + intros Hall. apply Forall_cons in Hall as [_ Hall]. constructor; [|done].
      right. split; [done|]. by eexists.
    + assert (matches k (mkEntry HASVAL k (Some v)) = true) as Hm1
        by (by apply matches_true).
      cbn [find_entry]. rewrite Hm1. split; [done|]. intros k' Hk'.
      assert (matches k' (mkEntry HASVAL k (Some v)) = false) as ->
        by (apply matches_false; simpl; intros [_ ?]; congruence).
      assert (matches k' e = false) as ->
        by (apply matches_false; rewrite Hf; intros [? _]; discriminate).
      done.
  - destruct (fill_entry k v es) as [es1|] eqn:Hu1; [|done].
    injection Hu as <-.
    assert (k ∉ okeys es) as Hk1.
    { destruct (decide _); [|done]. by apply not_elem_of_cons in Hk as [_ Hk]. }
    destruct (IH es1 Hk1 eq_refl) as (Hl & Hp & Hok & Hfind & Hother).
    simpl. split; [by rewrite Hl|]. rewrite !okeys_cons. split.
    { destruct (decide _); [|done]. rewrite Hp. apply Permutation_swap. }
    split.
    + intros Hall. apply Forall_cons in Hall as [He Hall]. constructor; [done|by apply Hok].
    + assert (matches k e = false) as ->.
      { apply matches_false. intros [Hfe Hke].
        rewrite decide_True in Hk by done. apply Hk. rewrite Hke. by left. }
      split; [done|]. intros k' Hk'. by rewrite Hother.
Qed.

(** *** The loop of Remove: the first matching entry is emptied *)

Lemma remove_entry_None k es : remove_entry k es = None ↔ k ∉ okeys es.
Proof.
  induction es as [|e es IH]; simpl.
  - split; [intros _ ?%elem_of_nil; done|done].
  - rewrite okeys_cons. destruct (matches k e) eqn:Hm.
    + apply matches_true in Hm as [Hf <-]. rewrite decide_True by done.
      split; [done|]. intros Hk. exfalso. apply Hk. by left.
    + rewrite fmap_None, IH. apply matches_false in Hm.
      destruct (decide _) as [Hf|]; [|done]. rewrite not_elem_of_cons.
      split; [|tauto]. intros Hk. split; [|done]. intros ->. by apply Hm.
Qed.

Lemma remove_entry_Some k es es' :
  remove_entry k es = Some es' →
  length es' = length es
  ∧ okeys es ≡ₚ k :: okeys es'
  ∧ (Forall entry_ok es → Forall entry_ok es')
  ∧ ∀ k', k' ≠ k → find_entry k' es' = find_entry k' es.
Proof.
  revert es'. induction es as [|e es IH]; simpl; intros es' Hu; [done|].
  destruct (matches k e) eqn:Hm.
  - injection Hu as <-. apply matches_true in Hm as [Hf Hk].
    split; [done|]. rewrite !okeys_cons. cbn [flag key].
    destruct (decide (flag e = HASVAL)) as [_|]; [|done].
    destruct (decide (NONE = HASVAL)) as [Hc|_]; [discriminate Hc|].
    rewrite Hk. split; [done|]. split.
    + intros Hall. apply Forall_cons in Hall as [_ Hall]. constructor; [|done].
      by left.
    + intros k' Hk'. cbn [find_entry]. by repeat no_match.
  - destruct (remove_entry k es) as [es1|] eqn:Hu1; [|done].
    injection Hu as <-. destruct (IH es1 eq_refl) as (Hl & Hp & Hok & Hother).
    simpl. split; [by rewrite Hl|]. rewrite !okeys_cons. split.
    { destruct (decide _); [|done]. rewrite Hp. apply Permutation_swap. }
    split.
    + intros Hall. apply Forall_cons in Hall as [He Hall]. constructor; [done|by apply Hok].
    + intros k' Hk'. by rewrite Hother.
Qed.

(** *** Buckets in the table *)

Lemma HashKey_range t k :
  0 ≤ globalDepth t → 0 ≤ HashKey hash t k < 2 ^ globalDepth t.
Proof.
  intros Hgd. unfold HashKey.
  replace (Z.shiftl 1 (globalDepth t) - 1) with (Z.ones (globalDepth t))
    by (unfold Z.ones; lia).
  rewrite Z.land_ones by done. apply Z.mod_pos_bound. lia.
Qed.

Lemma bucket_ok_mono t t' b :
  maxBucketSize t' = maxBucketSize t → globalDepth t ≤ globalDepth t' →
  bucket_ok t b → bucket_ok t' b.
Proof.
  intros Hmx Hgd (H1 & H2 & H3 & H4 & H5 & H6). unfold bucket_ok.
  rewrite Hmx. repeat split; try done; lia.
Qed.

Lemma table_ok_set_bucket t r b0 b' :
  table_ok t → heap t !! r = Some b0 → bucket_ok t b' → table_ok (set_bucket t r b').
Proof.
  intros (Hmx & Hgd & Hlen & Hptr & Hnum & Hall) Hr Hb'.
  unfold table_ok, set_bucket; simpl. rewrite length_insert.
  repeat split; try done. by apply Forall_insert.
Qed.

Lemma table_ok_bucket t index r b :
  table_ok t → table t !! Z.to_nat index = Some r → heap t !! r = Some b →
  bucket_ok t b.
Proof.
  intros (_ & _ & _ & _ & _ & Hall) _ Hb. by apply (Forall_lookup_1 _ _ _ _ Hall Hb).
Qed.

(** A directory slot of a well-formed table always leads to a bucket. *)
Lemma table_ok_bucket_at t index :
  table_ok t → 0 ≤ index < 2 ^ globalDepth t →
  ∃ r b, table t !! Z.to_nat index = Some r ∧ heap t !! r = Some b
         ∧ bucket_at t index = Some b.
Proof.
  intros (Hmx & Hgd & Hlen & Hptr & Hnum & Hall) Hi.
  destruct (lookup_lt_is_Some_2 (table t) (Z.to_nat index)) as [r Hr]; [lia|].
  pose proof (Forall_lookup_1 _ _ _ _ Hptr Hr) as Hlt. simpl in Hlt.
  destruct (lookup_lt_is_Some_2 (heap t) r Hlt) as [b Hb].
  exists r, b. split; [done|]. split; [done|].
  unfold bucket_at. rewrite Hr. simpl. done.
Qed.

Lemma Find_set_bucket_same t r b0 b' k :
  table t !! Z.to_nat (HashKey hash t k) = Some r → heap t !! r = Some b0 →
  Find hash (set_bucket t r b') k = find_entry k (entries b').
Proof.
  intros Hr Hb. unfold Find, bucket_at, HashKey in *. simpl. rewrite Hr. simpl.
  rewrite list_lookup_insert_eq; [done|]. by apply lookup_lt_Some in Hb.
Qed.

Lemma Find_at t r b k :
  table t !! Z.to_nat (HashKey hash t k) = Some r → heap t !! r = Some b →
  Find hash t k = find_entry k (entries b).
Proof. intros Hr Hb. unfold Find, bucket_at. rewrite Hr. simpl. by rewrite Hb. Qed.

Lemma Find_set_bucket_other t r b0 b' k :
  heap t !! r = Some b0 →
  (table t !! Z.to_nat (HashKey hash t k) = Some r →
     find_entry k (entries b') = find_entry k (entries b0)) →
  Find hash (set_bucket t r b') k = Find hash t k.
Proof.
  intros Hb Hsame.
  destruct (table t !! Z.to_nat (HashKey hash t k)) as [r'|] eqn:Hr'.
  - destruct (decide (r' = r)) as [->|Hne].
    + rewrite (Find_set_bucket_same t r b0) by done.
      rewrite (Find_at t r b0) by done. by apply Hsame.
    + unfold Find, bucket_at, HashKey in *. simpl. rewrite Hr'. simpl.
      by rewrite list_lookup_insert_ne by done.
  - unfold Find, bucket_at, HashKey in *. simpl. by rewrite Hr'.
Qed.

(** *** Insert that needs no split, and Remove *)

Lemma Insert_update t k v r b es :
  table t !! Z.to_nat (HashKey hash t k) = Some r → heap t !! r = Some b →
  update_entry k v (entries b) = Some es →
  ∀ rounds, Insert hash rounds t k v
            = Some (set_bucket t r (mkBucket es (localDepth b) (bucketMaxSize b) (size b))).
Proof.
  intros Hr Hb Hu rounds. unfold Insert. rewrite Hr. simpl. rewrite Hb. simpl.
  by rewrite Hu.
Qed.

Lemma Insert_fill t k v r b es :
  table t !! Z.to_nat (HashKey hash t k) = Some r → heap t !! r = Some b →
  update_entry k v (entries b) = None → size b ≠ bucketMaxSize b →
  fill_entry k v (entries b) = Some es →
  ∀ rounds, Insert hash rounds t k v
            = Some (set_bucket t r (mkBucket es (localDepth b) (bucketMaxSize b) (size b + 1))).
Proof.
  intros Hr Hb Hu Hsz Hf rounds. unfold Insert. rewrite Hr. simpl. rewrite Hb. simpl.
  rewrite Hu.
  assert (split_loop hash rounds k t (HashKey hash t k) = Some (t, HashKey hash t k)) as ->.
  { destruct rounds; simpl; unfold bucket_at; rewrite Hr; simpl; rewrite Hb; simpl;
      by rewrite (proj2 (Z.eqb_neq _ _)) by done. }
  simpl. rewrite Hr. simpl. rewrite Hb. simpl. by rewrite Hf.
Qed.

Lemma bucket_has_room t b :
  bucket_ok t b → size b ≠ bucketMaxSize b → 0 < maxBucketSize t →
  (length (okeys (entries b)) < length (entries b))%nat.
Proof.
  intros (H1 & H2 & _ & H4 & _) Hne Hmx.
  pose proof (length_okeys_le (entries b)). lia.
Qed.

Lemma Insert_no_split_spec t k v b rounds :
  table_ok t → bucket_at t (HashKey hash t k) = Some b →
  is_Some (Find hash t k) ∨ size b < bucketMaxSize b →
  ∃ t', Insert hash rounds t k v = Some t'
        ∧ Find hash t' k = Some v
        ∧ (∀ k', k' ≠ k → Find hash t' k' = Find hash t k')
        ∧ table t' = table t
        ∧ GetGlobalDepth t' = GetGlobalDepth t
        ∧ GetNumBuckets t' = GetNumBuckets t
        ∧ table_ok t'.
Proof.
  intros Hok Hb Hcase.
  assert (0 ≤ globalDepth t) as Hgd by apply Hok.
  destruct (table_ok_bucket_at t (HashKey hash t k) Hok (HashKey_range t k Hgd))
    as (r & b' & Hr & Hhb & Hb').
  assert (b' = b) as -> by congruence.
  pose proof (table_ok_bucket t _ r b Hok Hr Hhb) as Hbok.
  destruct (update_entry k v (entries b)) as [es|] eqn:Hu.
  - destruct (update_entry_Some k v _ es Hu) as (Hl & Hk & Hent & Hfind & Hother).
    eexists. split; [by apply (Insert_update t k v r b es)|].
    split; [by rewrite (Find_set_bucket_same t r b)|].
    split; [intros k' Hk'; apply (Find_set_bucket_other t r b); [done|];
            intros _; by apply Hother|].
    do 3 (split; [done|]). apply (table_ok_set_bucket t r b); [done..|].
    destruct Hbok as (H1 & H2 & H3 & H4 & H5 & H6). unfold bucket_ok; simpl.
    rewrite Hl, Hk. repeat split; first [done | lia | by apply Hent].
  - apply update_entry_None in Hu as Hnotin.
    destruct Hcase as [[v0 Hv0]|Hroom].
    { rewrite (Find_at t r b) in Hv0 by done.
      apply find_entry_Some_in in Hv0. done. }
    assert (size b ≠ bucketMaxSize b) as Hne by lia.
    destruct (fill_entry_is_Some k v (entries b)) as [es Hf].
    { apply Hbok. }
    { apply (bucket_has_room t); [done..|apply Hok]. }
    destruct (fill_entry_Some k v _ es Hnotin Hf) as (Hl & Hp & Hent & Hfind & Hother).
    eexists. split; [by apply (Insert_fill t k v r b es)|].
    split; [by rewrite (Find_set_bucket_same t r b)|].
    split; [intros k' Hk'; apply (Find_set_bucket_other t r b); [done|];
            intros _; by apply Hother|].
    do 3 (split; [done|]). apply (table_ok_set_bucket t r b); [done..|].
    destruct Hbok as (H1 & H2 & H3 & H4 & H5 & H6). unfold bucket_ok; simpl.
    rewrite Hl, Hp. simpl.
    repeat split; first [done | lia | by apply Hent | by apply NoDup_cons].
Qed.

Lemma Remove_spec t k :
  table_ok t →
  ((Remove hash t k).1 = true ↔ is_Some (Find hash t k))
  ∧ Find hash (Remove hash t k).2 k = None
  ∧ (∀ k', k' ≠ k → Find hash (Remove hash t k).2 k' = Find hash t k')
  ∧ ((Remove hash t k).1 = false → (Remove hash t k).2 = t)
  ∧ table (Remove hash t k).2 = table t
  ∧ GetGlobalDepth (Remove hash t k).2 = GetGlobalDepth t
  ∧ GetNumBuckets (Remove hash t k).2 = GetNumBuckets t
  ∧ table_ok (Remove hash t k).2.
Proof.
  intros Hok.
  assert (0 ≤ globalDepth t) as Hgd by apply Hok.
  destruct (table_ok_bucket_at t (HashKey hash t k) Hok (HashKey_range t k Hgd))
    as (r & b & Hr & Hhb & Hb).
  pose proof (table_ok_bucket t _ r b Hok Hr Hhb) as Hbok.
  unfold Remove. rewrite Hr, Hhb.
  destruct (remove_entry k (entries b)) as [es|] eqn:Hrem; simpl.
  - destruct (remove_entry_Some k _ es Hrem) as (Hl & Hp & Hent & Hother).
    destruct Hbok as (H1 & H2 & H3 & H4 & H5 & H6).
    assert (k ∉ okeys es) as Hnotin.
    { rewrite Hp in H5. by apply NoDup_cons in H5 as [? _]. }
    split.
    { split; [|done]. intros _. rewrite (Find_at t r b) by done.
      apply find_entry_in; [done|]. rewrite Hp. by left. }
    split; [rewrite (Find_set_bucket_same t r b) by done; by apply find_entry_notin|].
    split; [intros k' Hk'; apply (Find_set_bucket_other t r b); [done|];
            intros _; by apply Hother|].
    split; [done|]. do 3 (split; [done|]).
    apply (table_ok_set_bucket t r b); [done..|]. unfold bucket_ok; simpl.
    rewrite Hl. rewrite Hp in H4, H5. simpl in H4.
    apply NoDup_cons in H5 as [_ H5].
    repeat split; first [done | lia | by apply Hent].
  - apply remove_entry_None in Hrem.
    split.
    { split; [done|]. intros [v0 Hv0]. rewrite (Find_at t r b) in Hv0 by done.
      apply find_entry_Some_in in Hv0. done. }
    split; [rewrite (Find_at t r b) by done; by apply find_entry_notin|].
    done.
Qed.

(** *** The split of a bucket *)

Lemma lxor_pow2_range index ld gd :
  0 ≤ index < 2 ^ gd → 0 ≤ ld < gd → 0 ≤ Z.lxor index (Z.shiftl 1 ld) < 2 ^ gd.
Proof.
  intros Hi Hld. rewrite Z.shiftl_1_l.
  assert (0 < 2 ^ ld) as Hp by (apply Z.pow_pos_nonneg; lia).
  assert (0 ≤ Z.lxor index (2 ^ ld)) as Hnn by (apply Z.lxor_nonneg; lia).
  split; [done|].
  destruct (decide (Z.lxor index (2 ^ ld) = 0)) as [->|Hne]; [lia|].
  apply Z.log2_lt_pow2; [lia|].
  pose proof (Z.log2_lxor index (2 ^ ld) ltac:(lia) ltac:(lia)) as Hlog.
  rewrite Z.log2_pow2 in Hlog by lia.
  assert (Z.log2 index < gd).
  { destruct (decide (index = 0)) as [->|Hi0]; [simpl; lia|].
    apply Z.log2_lt_pow2; lia. }
  lia.
Qed.

Lemma lxor_pow2_neq index ld : 0 ≤ ld → Z.lxor index (Z.shiftl 1 ld) ≠ index.
Proof.
  intros Hld Heq. rewrite Z.shiftl_1_l in Heq.
  assert (0 < 2 ^ ld) as Hp by (apply Z.pow_pos_nonneg; lia).
  apply (f_equal (Z.lxor index)) in Heq.
  rewrite <- Z.lxor_assoc, Z.lxor_nilpotent, Z.lxor_0_l in Heq. lia.
Qed.

Lemma okeys_insert es (p : nat) e0 e1 :
  es !! p = Some e0 →
  okeys (<[p := e1]> es) = okeys (take p es) ++ okeys [e1] ++ okeys (drop (S p) es)
  ∧ okeys es = okeys (take p es) ++ okeys [e0] ++ okeys (drop (S p) es).
Proof.
  intros Hp. split.
  - rewrite insert_take_drop by (by apply lookup_lt_Some in Hp).
    rewrite okeys_app. f_equal. apply (okeys_app [e1]).
  - rewrite <- (take_drop_middle es p e0 Hp) at 1.
    rewrite okeys_app. f_equal. apply (okeys_app [e0]).
Qed.

Lemma okeys_fill es (p : nat) e0 k x :
  es !! p = Some e0 → flag e0 = NONE →
  okeys (<[p := mkEntry HASVAL k x]> es) ≡ₚ k :: okeys es.
Proof.
  intros Hp Hf. destruct (okeys_insert es p e0 (mkEntry HASVAL k x) Hp) as [-> ->].
  rewrite !(okeys_cons _ []). cbn [flag key].
  destruct (decide (HASVAL = HASVAL)) as [_|]; [|done].
  destruct (decide (flag e0 = HASVAL)) as [Hc|_]; [rewrite Hf in Hc; discriminate Hc|].
  simpl. by rewrite Permutation_middle.
Qed.

Lemma okeys_clear es (p : nat) e0 x :
  es !! p = Some e0 → flag e0 = HASVAL →
  okeys es ≡ₚ key e0 :: okeys (<[p := mkEntry NONE (key e0) x]> es).
Proof.
  intros Hp Hf. destruct (okeys_insert es p e0 (mkEntry NONE (key e0) x) Hp) as [-> ->].
  rewrite !(okeys_cons _ []). cbn [flag key].
  destruct (decide (NONE = HASVAL)) as [Hc|_]; [discriminate Hc|].
  destruct (decide (flag e0 = HASVAL)) as [_|]; [|done].
  simpl. by rewrite Permutation_middle.
Qed.

Lemma same_but_refl r0 r1 t : same_but r0 r1 t t.
Proof. by repeat split. Qed.

Lemma same_but_trans r0 r1 t1 t2 t3 :
  same_but r0 r1 t1 t2 → same_but r0 r1 t2 t3 → same_but r0 r1 t1 t3.
Proof.
  intros (A1 & A2 & A3 & A4 & A5 & A6) (B1 & B2 & B3 & B4 & B5 & B6).
  repeat split; try congruence. intros r Hr0 Hr1. rewrite B6 by done. by apply A6.
Qed.

Lemma split_pair_same_but r0 r1 t t' K b0 b1 :
  same_but r0 r1 t t' → split_pair t K b0 b1 → split_pair t' K b0 b1.
Proof.
  intros (A1 & A2 & A3 & A4 & A5 & A6) (H0 & H1 & Hp & Hs).
  split; [|split; [|split]]; try done.
  - apply (bucket_ok_mono t); [done|lia|done].
  - apply (bucket_ok_mono t); [done|lia|done].
Qed.

(** One round of the redistribution keeps the pair of buckets well
    formed, whether it moves the entry or leaves it. *)
Lemma redistribute_step_spec indexSt0 ld r0 r1 t (j : nat) b0 b1 K :
  r0 ≠ r1 → heap t !! r0 = Some b0 → heap t !! r1 = Some b1 →
  NoDup K → split_pair t K b0 b1 →
  (j < length (entries b0))%nat → size b1 ≤ Z.of_nat j →
  ∃ t' b0' b1',
    redistribute_step hash indexSt0 ld r0 r1 t j = Some t'
    ∧ same_but r0 r1 t t'
    ∧ heap t' !! r0 = Some b0' ∧ heap t' !! r1 = Some b1'
    ∧ split_pair t K b0' b1'
    ∧ length (entries b0') = length (entries b0)
    ∧ size b1' ≤ Z.of_nat (S j).
Proof.
  intros Hne Hb0 Hb1 HK (Hok0 & Hok1 & Hperm & Hspare) Hj Hsz.
  destruct (lookup_lt_is_Some_2 (entries b0) j Hj) as [e He].
  unfold redistribute_step. rewrite Hb0. simpl. rewrite He. simpl.
  destruct (Z.eqb_spec (flag e) NONE) as [Hf|Hf].
  { exists t, b0, b1. split; [done|]. split; [apply same_but_refl|].
    do 2 (split; [done|]). split; [done|]. split; [done|lia]. }
  destruct (_ =? _).
  { exists t, b0, b1. split; [done|]. split; [apply same_but_refl|].
    do 2 (split; [done|]). split; [done|]. split; [done|lia]. }
  rewrite Hb1. simpl.
  rewrite list_lookup_insert_ne by done. rewrite Hb0. simpl.
  destruct Hok0 as (A1 & A2 & A3 & A4 & A5 & A6).
  destruct Hok1 as (B1 & B2 & B3 & B4 & B5 & B6).
  assert (flag e = HASVAL ∧ is_Some (value e)) as [Hfe Hve].
  { pose proof (Forall_lookup_1 _ _ _ _ A3 He) as [Hc|Hc]; [done|done]. }
  assert (Z.to_nat (size b1) < length (entries b1))%nat as Hpos by lia.
  destruct (lookup_lt_is_Some_2 (entries b1) _ Hpos) as [e1 He1].
  assert (flag e1 = NONE) as Hf1 by (apply (Hspare _ _ He1); lia).
  pose proof (okeys_fill (entries b1) _ e1 (key e) (value e) He1 Hf1) as Hfill.
  pose proof (okeys_clear (entries b0) j e (value e) He Hfe) as Hclear.
  assert (okeys (<[j := mkEntry NONE (key e) (value e)]> (entries b0))
          ++ okeys (<[Z.to_nat (size b1) := mkEntry HASVAL (key e) (value e)]> (entries b1))
          ≡ₚ K) as Hperm'.
  { rewrite Hfill, <- Hperm, Hclear. simpl. symmetry. apply Permutation_middle. }
  pose proof HK as HK'. rewrite <- Hperm' in HK'. apply NoDup_app in HK' as (Hnd0 & _ & Hnd1).
  eexists _, _, _. split; [reflexivity|]. split.
  { repeat split; simpl; try done.
    - by rewrite !length_insert.
    - intros r Hr0 Hr1. by rewrite !list_lookup_insert_ne by done. }
  split.
  { simpl. rewrite list_lookup_insert_eq; [done|].
    rewrite length_insert. by apply lookup_lt_Some in Hb0. }
  split.
  { simpl. rewrite list_lookup_insert_ne by done.
    rewrite list_lookup_insert_eq; [done|]. by apply lookup_lt_Some in Hb1. }
  split; [|split; [simpl; by rewrite length_insert | simpl; lia]].
  split; [|split; [|split]].
  - unfold bucket_ok; simpl. rewrite length_insert.
    repeat split; try done; try lia.
    + apply Forall_insert; [done|]. by left.
    + rewrite Hclear in A4. simpl in A4. lia.
  - unfold bucket_ok; simpl. rewrite length_insert.
    repeat split; try done; try lia.
    + apply Forall_insert; [done|]. by right.
    + rewrite Hfill. simpl. lia.
  - done.
  - simpl. intros p e' Hp Hge.
    rewrite list_lookup_insert_ne in Hp by lia. apply (Hspare _ _ Hp). lia.
Qed.

Lemma redistribute_spec indexSt0 ld r0 r1 K (n j : nat) t b0 b1 :
  r0 ≠ r1 → heap t !! r0 = Some b0 → heap t !! r1 = Some b1 →
  NoDup K → split_pair t K b0 b1 →
  (j + n ≤ length (entries b0))%nat → size b1 ≤ Z.of_nat j →
  ∃ t' b0' b1',
    redistribute hash indexSt0 ld r0 r1 (seq j n) t = Some t'
    ∧ same_but r0 r1 t t'
    ∧ heap t' !! r0 = Some b0' ∧ heap t' !! r1 = Some b1'
    ∧ split_pair t K b0' b1'.
Proof.
  intros Hne. revert j t b0 b1.
  induction n as [|n IH]; intros j t b0 b1 Hb0 Hb1 HK Hpair Hjn Hsz; simpl.
  - exists t, b0, b1. split; [done|]. split; [apply same_but_refl|]. done.
  - destruct (redistribute_step_spec indexSt0 ld r0 r1 t j b0 b1 K)
      as (t1 & b0' & b1' & -> & Hsame & Hb0' & Hb1' & Hpair' & Hlen & Hsz');
      [done..|lia|done|].
    simpl.
    destruct (IH (S j) t1 b0' b1') as (t2 & b0'' & b1'' & -> & Hsame2 & Hb0'' & Hb1'' & Hpair'');
      [done|done|done|by apply (split_pair_same_but r0 r1 t)|lia|done|].
    exists t2, b0'', b1''. split; [done|].
    split; [by apply (same_but_trans r0 r1 t t1)|].
    do 2 (split; [done|]).
    destruct Hsame as (S1 & S2 & S3 & S4 & S5 & S6).
    destruct Hpair'' as (H0 & H1 & Hp & Hs).
    split; [|split; [|split]]; try done.
    + apply (bucket_ok_mono t1); [done|lia|done].
    + apply (bucket_ok_mono t1); [done|lia|done].
Qed.

Tactic Notation "pcbn" :=
  cbn [entries size localDepth bucketMaxSize maxBucketSize globalDepth numBuckets
       table heap set_bucket].
Tactic Notation "pcbn" "in" hyp_list(Hs) :=
  cbn [entries size localDepth bucketMaxSize maxBucketSize globalDepth numBuckets
       table heap set_bucket] in Hs.

Lemma split_spec t index r0 b0 :
  table_ok t → 0 ≤ index < 2 ^ globalDepth t →
  table t !! Z.to_nat index = Some r0 → heap t !! r0 = Some b0 →
  ∃ t' b0' b1',
    split hash t index b0 = Some t'
    ∧ table_ok t'
    ∧ maxBucketSize t' = maxBucketSize t
    ∧ globalDepth t ≤ globalDepth t' ≤ globalDepth t + 1
    ∧ heap t' !! r0 = Some b0' ∧ heap t' !! length (heap t) = Some b1'
    ∧ okeys (entries b0') ++ okeys (entries b1') ≡ₚ okeys (entries b0)
    ∧ (∀ i, 0 ≤ i < 2 ^ globalDepth t' → i `mod` 2 ^ globalDepth t = index →
         table t' !! Z.to_nat i = Some r0
         ∨ table t' !! Z.to_nat i = Some (length (heap t))).
Proof.
  intros Hok Hi Hr0 Hb0.
  pose proof Hok as (Hmx & Hgd & Hlen & Hptr & Hnum & Hall).
  pose proof (Forall_lookup_1 _ _ _ _ Hall Hb0) as Hb0ok.
  pose proof Hb0ok as (A1 & A2 & A3 & A4 & A5 & A6).
  assert (0 < 2 ^ globalDepth t) as Hpow by (apply Z.pow_pos_nonneg; lia).
  unfold split. cbv zeta.
  set (t1 := if localDepth b0 =? globalDepth t then _ else t).
  assert (maxBucketSize t1 = maxBucketSize t ∧ heap t1 = heap t
          ∧ numBuckets t1 = numBuckets t
          ∧ globalDepth t ≤ globalDepth t1 ≤ globalDepth t + 1
          ∧ localDepth b0 < globalDepth t1
          ∧ Z.of_nat (length (table t1)) = 2 ^ globalDepth t1
          ∧ Forall (λ r, r < length (heap t))%nat (table t1)
          ∧ (∀ i, 0 ≤ i < 2 ^ globalDepth t1 → i `mod` 2 ^ globalDepth t = index →
               table t1 !! Z.to_nat i = Some r0))
    as (T1 & T2 & T3 & T4 & T5 & T6 & T7 & T8).
  { unfold t1. destruct (Z.eqb_spec (localDepth b0) (globalDepth t)) as [Heq|Hneq]; simpl.
    - assert (2 ^ (globalDepth t + 1) = 2 * 2 ^ globalDepth t) as ->
        by (rewrite Z.pow_add_r by lia; lia).
      do 3 (split; [done|]). split; [lia|]. split; [lia|].
      rewrite length_app.
      split; [lia|]. split; [by apply Forall_app|].
      intros i Hir Him. destruct (decide (i < 2 ^ globalDepth t)) as [Hlow|Hhigh].
      + rewrite Z.mod_small in Him by lia. subst i.
        by rewrite lookup_app_l by lia.
      + assert (i `mod` 2 ^ globalDepth t = i - 2 ^ globalDepth t) as Hm.
        { symmetry. apply (Z.mod_unique i _ 1); lia. }
        rewrite lookup_app_r by lia.
        replace (Z.to_nat i - length (table t))%nat with (Z.to_nat index) by lia.
        done.
    - do 3 (split; [done|]). split; [lia|]. split; [lia|].
      split; [done|]. split; [done|].
      intros i Hir Him. rewrite Z.mod_small in Him by lia. by subst i. }
  clearbody t1.
  assert (0 < 2 ^ globalDepth t1) as Hpow1 by (apply Z.pow_pos_nonneg; lia).
  assert (2 ^ globalDepth t ≤ 2 ^ globalDepth t1) as Hpowle
    by (apply Z.pow_le_mono_r; lia).
  pose proof (lxor_pow2_range index (localDepth b0) (globalDepth t1)
                ltac:(lia) ltac:(lia)) as Hst1.
  pose proof (lxor_pow2_neq index (localDepth b0) ltac:(lia)) as Hst1ne.
  set (indexSt1 := Z.lxor index (Z.shiftl 1 (localDepth b0))) in *.
  assert (r0 < length (heap t))%nat as Hr0lt by (by apply lookup_lt_Some in Hb0).
  assert (table t1 !! Z.to_nat index = Some r0) as Hr0'.
  { apply T8; [lia|]. apply Z.mod_small. lia. }
  cbn [table heap maxBucketSize globalDepth numBuckets].
  rewrite list_lookup_insert_ne by lia. rewrite Hr0'. cbn [mbind option_bind].
  rewrite T2. rewrite (lookup_app_l (heap t)) by lia. rewrite Hb0.
  cbn [mbind option_bind set_bucket table heap maxBucketSize globalDepth numBuckets].
  rewrite list_lookup_insert_eq by lia. cbn [mbind option_bind].
  rewrite list_lookup_insert_ne by lia.
  rewrite lookup_app_r by lia. rewrite Nat.sub_diag.
  cbn [lookup list_lookup mbind option_bind].
  cbn [entries localDepth bucketMaxSize size new_Bucket].
  match goal with |- context [redistribute _ _ _ _ _ _ ?s] => set (t4 := s) end.
  set (b0p := mkBucket (entries b0) (localDepth b0 + 1) (bucketMaxSize b0) (size b0)).
  set (b1p := @mkBucket V (replicate (Z.to_nat (maxBucketSize t1)) (mkEntry 0 0 None))
                        (localDepth b0 + 1) (maxBucketSize t1) 0).
  assert (okeys (replicate (Z.to_nat (maxBucketSize t1)) (@mkEntry V 0 0 None)) = []) as Hnil.
  { induction (Z.to_nat (maxBucketSize t1)) as [|n IH]; [done|].
    cbn [replicate]. rewrite okeys_cons. cbn [flag].
    destruct (decide (0 = HASVAL)) as [Hc|_]; [discriminate Hc|exact IH]. }
  destruct (redistribute_spec index (localDepth b0 + 1) r0 (length (heap t))
              (okeys (entries b0)) (length (entries b0)) 0 t4 b0p b1p)
    as (t5 & b0' & b1' & Hred & Hsame & Hb0' & Hb1' & Hpair).
  { lia. }
  { unfold t4. cbn [heap set_bucket]. rewrite list_lookup_insert_ne by lia.
    rewrite list_lookup_insert_eq; [done|]. rewrite length_app. simpl. lia. }
  { unfold t4. cbn [heap set_bucket]. rewrite list_lookup_insert_eq; [done|].
    rewrite length_insert, length_app. simpl. lia. }
  { done. }
  { split; [|split; [|split]].
    - unfold bucket_ok, t4, b0p. pcbn. rewrite T1. repeat split; try done; lia.
    - unfold bucket_ok, t4, b1p. pcbn. rewrite Hnil, length_replicate, T1.
      repeat split; try done; try lia; [|constructor].
      apply Forall_replicate. by left.
    - unfold b1p. pcbn. rewrite Hnil. by rewrite app_nil_r.
    - unfold b1p. pcbn. intros p e Hp _. apply lookup_replicate in Hp as [-> _]. done. }
  { unfold b0p. pcbn. lia. }
  { unfold b1p. pcbn. lia. }
  unfold b0p in Hred. cbn [entries] in Hred. rewrite Hred. cbn [mbind option_bind].
  destruct Hsame as (S1 & S2 & S3 & S4 & S5 & S6).
  destruct Hpair as (P0 & P1 & Pperm & _).
  unfold t4 in S1, S2, S3, S4, S5, S6. pcbn in S1 S2 S3 S4 S5.
  rewrite length_insert, length_insert, length_app in S5. simpl in S5.
  exists (mkEHT (maxBucketSize t5) (globalDepth t5) (numBuckets t5 + 1) (table t5) (heap t5)),
         b0', b1'.
  split; [done|]. split.
  { unfold table_ok. pcbn. rewrite S1, S2, S3, S4, S5.
    split; [lia|]. split; [lia|]. rewrite length_insert. split; [done|].
    split; [|split; [lia|]].
    - apply Forall_insert; [|lia]. eapply Forall_impl; [exact T7|]. simpl. intros; lia.
    - apply Forall_lookup. intros r b Hb.
      destruct (decide (r = r0)) as [->|Hn0]; [|destruct (decide (r = length (heap t))) as [->|Hn1]].
      + rewrite Hb0' in Hb. injection Hb as <-.
        apply (bucket_ok_mono t4); [unfold t4; pcbn; lia | unfold t4; pcbn; lia | exact P0].
      + rewrite Hb1' in Hb. injection Hb as <-.
        apply (bucket_ok_mono t4); [unfold t4; pcbn; lia | unfold t4; pcbn; lia | exact P1].
      + rewrite S6 in Hb by done. pcbn in Hb.
        rewrite !list_lookup_insert_ne in Hb by done.
        assert (r < length (heap t))%nat as Hlt.
        { apply lookup_lt_Some in Hb. rewrite length_app in Hb. simpl in Hb. lia. }
        rewrite lookup_app_l in Hb by done.
        apply (bucket_ok_mono t); [pcbn; lia | pcbn; lia | exact (Forall_lookup_1 _ _ _ _ Hall Hb)]. }
  pcbn. split; [lia|]. split; [lia|]. do 2 (split; [done|]). split; [done|].
  rewrite S1, S3. intros i Hir Him.
  destruct (decide (i = indexSt1)) as [->|Hni].
  - right. apply list_lookup_insert_eq. lia.
  - left. rewrite list_lookup_insert_ne by lia. by apply T8.
Qed.

(** *** The split loop and Insert *)

Lemma HashKey_mod t k :
  0 ≤ globalDepth t → HashKey hash t k = hash k `mod` 2 ^ globalDepth t.
Proof.
  intros Hgd. unfold HashKey.
  replace (Z.shiftl 1 (globalDepth t) - 1) with (Z.ones (globalDepth t))
    by (unfold Z.ones; lia).
  by rewrite Z.land_ones.
Qed.

Lemma HashKey_deeper t t' k :
  0 ≤ globalDepth t → globalDepth t ≤ globalDepth t' ≤ globalDepth t + 1 →
  HashKey hash t' k `mod` 2 ^ globalDepth t = HashKey hash t k.
Proof.
  intros Hgd Hgd'. rewrite !HashKey_mod by lia.
  assert (0 < 2 ^ globalDepth t) as Hpow by (apply Z.pow_pos_nonneg; lia).
  destruct (decide (globalDepth t' = globalDepth t)) as [->|Hne].
  - apply Z.mod_mod. lia.
  - replace (globalDepth t') with (globalDepth t + 1) by lia.
    rewrite Z.pow_add_r by lia. change (2 ^ 1) with 2.
    rewrite Z.rem_mul_r by lia.
    rewrite Z.mul_comm, Z.mod_add by lia. apply Z.mod_mod. lia.
Qed.

Lemma split_loop_spec rounds k t r0 b0 t' index' :
  table_ok t →
  table t !! Z.to_nat (HashKey hash t k) = Some r0 → heap t !! r0 = Some b0 →
  k ∉ okeys (entries b0) →
  split_loop hash rounds k t (HashKey hash t k) = Some (t', index') →
  table_ok t'
  ∧ index' = HashKey hash t' k
  ∧ maxBucketSize t' = maxBucketSize t
  ∧ globalDepth t ≤ globalDepth t'
  ∧ numBuckets t ≤ numBuckets t'
  ∧ ∃ r b, table t' !! Z.to_nat index' = Some r ∧ heap t' !! r = Some b
           ∧ size b ≠ bucketMaxSize b ∧ k ∉ okeys (entries b).
Proof.
  revert t r0 b0. induction rounds as [|n IH]; intros t r0 b0 Hok Hr0 Hb0 Hk;
    simpl; unfold bucket_at; rewrite Hr0; simpl; rewrite Hb0; simpl.
  - destruct (Z.eqb_spec (size b0) (bucketMaxSize b0)) as [Hfull|Hroom]; [done|].
    intros [= <- <-]. do 2 (split; [done|]). split; [done|]. split; [lia|]. split; [lia|].
    by exists r0, b0.
  - destruct (Z.eqb_spec (size b0) (bucketMaxSize b0)) as [Hfull|Hroom].
    2:{ intros [= <- <-]. do 2 (split; [done|]). split; [done|]. split; [lia|].
        split; [lia|]. by exists r0, b0. }
    assert (0 ≤ globalDepth t) as Hgd by apply Hok.
    destruct (split_spec t (HashKey hash t k) r0 b0 Hok (HashKey_range t k Hgd) Hr0 Hb0)
      as (t1 & b0' & b1' & -> & Hok1 & Hmx1 & Hgd1 & Hb0' & Hb1' & Hperm & Hslots).
    simpl.
    assert (0 ≤ globalDepth t1) as Hgd1' by lia.
    assert ((k ∉ okeys (entries b0')) ∧ (k ∉ okeys (entries b1'))) as [Hk0 Hk1].
    { rewrite <- Hperm in Hk. by apply not_elem_of_app in Hk. }
    assert (numBuckets t ≤ numBuckets t1) as Hnb.
    { destruct Hok as (_ & _ & _ & _ & Hn & _), Hok1 as (_ & _ & _ & _ & Hn1 & _).
      apply lookup_lt_Some in Hb1'. lia. }
    destruct (Hslots (HashKey hash t1 k) (HashKey_range t1 k Hgd1')
                (HashKey_deeper t t1 k Hgd Hgd1)) as [Hs|Hs].
    + intros Hloop.
      destruct (IH t1 r0 b0' Hok1 Hs Hb0' Hk0 Hloop) as (H1 & H2 & H3 & H4 & H5 & H6).
      split; [done|]. split; [done|]. split; [congruence|]. split; [lia|]. split; [lia|]. done.
    + intros Hloop.
      destruct (IH t1 _ b1' Hok1 Hs Hb1' Hk1 Hloop) as (H1 & H2 & H3 & H4 & H5 & H6).
      split; [done|]. split; [done|]. split; [congruence|]. split; [lia|]. split; [lia|]. done.
Qed.

Lemma Insert_spec rounds t k v t' :
  table_ok t → Insert hash rounds t k v = Some t' →
  table_ok t'
  ∧ Find hash t' k = Some v
  ∧ maxBucketSize t' = maxBucketSize t
  ∧ globalDepth t ≤ globalDepth t'
  ∧ numBuckets t ≤ numBuckets t'.
Proof.
  intros Hok Hins.
  assert (0 ≤ globalDepth t) as Hgd by apply Hok.
  destruct (table_ok_bucket_at t (HashKey hash t k) Hok (HashKey_range t k Hgd))
    as (r0 & b0 & Hr0 & Hb0 & Hat).
  destruct (update_entry k v (entries b0)) as [es|] eqn:Hu.
  - destruct (Insert_no_split_spec t k v b0 rounds Hok Hat) as (t1 & Hi1 & Hf & _ & Ht & Hg & Hn & Hok1).
    { left. rewrite (Find_at t r0 b0) by done. apply find_entry_in.
      - apply (table_ok_bucket t _ r0 b0 Hok Hr0 Hb0).
      - apply (update_entry_Some k v _ es) in Hu as (_ & Hke & _ & Hfe & _).
        rewrite <- Hke. by apply (find_entry_Some_in k v). }
    rewrite Hi1 in Hins. injection Hins as <-.
    unfold GetGlobalDepth, GetNumBuckets in *. split; [done|]. split; [done|].
    rewrite (Insert_update t k v r0 b0 es Hr0 Hb0 Hu rounds) in Hi1. injection Hi1 as <-.
    simpl. split; [done|]. split; lia.
  - apply update_entry_None in Hu as Hnotin.
    unfold Insert in Hins. rewrite Hr0 in Hins. simpl in Hins. rewrite Hb0 in Hins.
    simpl in Hins. rewrite (proj2 (update_entry_None k v _) Hnotin) in Hins.
    destruct (split_loop hash rounds k t (HashKey hash t k)) as [[t1 index1]|] eqn:Hloop;
      [|done].
    destruct (split_loop_spec rounds k t r0 b0 t1 index1 Hok Hr0 Hb0 Hnotin Hloop)
      as (Hok1 & -> & Hmx1 & Hgd1 & Hnb1 & r & b & Hr & Hb & Hroom & Hkb).
    simpl in Hins. rewrite Hr in Hins. simpl in Hins. rewrite Hb in Hins. simpl in Hins.
    pose proof (table_ok_bucket t1 _ r b Hok1 Hr Hb) as Hbok.
    destruct (fill_entry_is_Some k v (entries b)) as [es Hf].
    { apply Hbok. }
    { apply (bucket_has_room t1); [done..|apply Hok1]. }
    rewrite Hf in Hins. injection Hins as <-.
    destruct (fill_entry_Some k v _ es Hkb Hf) as (Hl & Hp & Hent & Hfind & Hother).
    split.
    { apply (table_ok_set_bucket t1 r b); [done..|].
      destruct Hbok as (H1 & H2 & H3 & H4 & H5 & H6). unfold bucket_ok; simpl.
      rewrite Hl, Hp. simpl.
      repeat split; first [done | lia | by apply Hent | by apply NoDup_cons]. }
    split; [by rewrite (Find_set_bucket_same t1 r b)|].
    simpl. split; [done|]. split; lia.
Qed.

Lemma table_ok_init sz : 0 < sz → table_ok (@init V sz).
Proof.
  intros Hsz. unfold table_ok, init; simpl. split; [done|]. split; [done|].
  split; [done|]. split; [repeat constructor|]. split; [done|].
  constructor; [|constructor]. unfold bucket_ok, new_Bucket; simpl.
  assert (okeys (replicate (Z.to_nat sz) (@mkEntry V 0 0 None)) = []) as Hnil.
  { induction (Z.to_nat sz) as [|n IH]; [done|].
    cbn [replicate]. rewrite okeys_cons. cbn [flag].
    destruct (decide (0 = HASVAL)) as [Hc|_]; [discriminate Hc|exact IH]. }
  rewrite Hnil, length_replicate.
  repeat split; try done; [|constructor]. apply Forall_replicate. by left.
Qed.

Lemma run_table_ok rounds ops t t' :
  table_ok t → run hash rounds ops t = Some t' → table_ok t'.
Proof.
  revert t. induction ops as [|[k v|k] ops IH]; intros t Hok; simpl.
  - by intros [= <-].
  - destruct (Insert hash rounds t k v) as [t1|] eqn:Hi; [|done]. simpl.
    apply IH. by apply (Insert_spec rounds t k v t1).
  - apply IH. by apply Remove_spec.
Qed.

(** X18: Insert that needs no split.  When the key is in the table
    already, or the bucket of its directory slot has a free entry,
    Insert ends without running the split loop: the directory, the
    depths and the number of buckets are as before, Find of the key
    returns the new value, and Find of every other key returns what it
    returned before. *)
Theorem X18_Insert_without_split t k v b rounds :
  table_ok t → bucket_at t (HashKey hash t k) = Some b →
  is_Some (Find hash t k) ∨ size b < bucketMaxSize b →
  ∃ t', Insert hash rounds t k v = Some t'
        ∧ Find hash t' k = Some v
        ∧ (∀ k', k' ≠ k → Find hash t' k' = Find hash t k')
        ∧ table t' = table t
        ∧ GetGlobalDepth t' = GetGlobalDepth t
        ∧ GetNumBuckets t' = GetNumBuckets t
        ∧ table_ok t'.
Proof. apply Insert_no_split_spec. Qed.

(** X19: Remove on a well-formed table returns true exactly when Find
    finds the key; afterwards Find of the key returns false and Find of
    every other key returns what it returned before; when the key is
    not there the table is left as it is.  Remove never shrinks the
    directory nor merges buckets: the depths and the number of buckets
    stay. *)
Theorem X19_Remove_then_Find t k :
  table_ok t →
  ((Remove hash t k).1 = true ↔ is_Some (Find hash t k))
  ∧ Find hash (Remove hash t k).2 k = None
  ∧ (∀ k', k' ≠ k → Find hash (Remove hash t k).2 k' = Find hash t k')
  ∧ ((Remove hash t k).1 = false → (Remove hash t k).2 = t)
  ∧ table (Remove hash t k).2 = table t
  ∧ GetGlobalDepth (Remove hash t k).2 = GetGlobalDepth t
  ∧ GetNumBuckets (Remove hash t k).2 = GetNumBuckets t
  ∧ table_ok (Remove hash t k).2.
Proof. apply Remove_spec. Qed.

(** X20: a key that Insert has stored is found.  On a well-formed
    table, when Insert returns (its split loop ends within the rounds
    given), Find of the key returns the value inserted, whether the key
    was updated in place, stored in a free entry, or stored after the
    bucket was split and the directory doubled; the table is well formed
    again, and the depth of the directory and the number of buckets have
    not gone down. *)
Theorem X20_Insert_then_Find rounds t k v t' :
  table_ok t → Insert hash rounds t k v = Some t' →
  Find hash t' k = Some v
  ∧ table_ok t'
  ∧ GetGlobalDepth t ≤ GetGlobalDepth t'
  ∧ GetNumBuckets t ≤ GetNumBuckets t'.
Proof.
  intros Hok Hins.
  destruct (Insert_spec rounds t k v t' Hok Hins) as (H1 & H2 & _ & H4 & H5). done.
Qed.

(** X21: what every run keeps.  After any sequence of Insert and Remove
    calls on a new table with buckets of [sz] entries, [sz] at least 1:
    the directory has [2 ^ GetGlobalDepth] slots, every slot refers to a
    bucket, GetNumBuckets is the number of buckets made, and for every
    slot GetLocalDepth is between 0 and GetGlobalDepth; every bucket has
    [sz] entries, of which its size field counts the occupied ones, and
    holds no key twice. *)
Theorem X21_runs_keep_table_well_formed rounds ops sz t :
  0 < sz → run hash rounds ops (init sz) = Some t →
  table_ok t
  ∧ Z.of_nat (length (table t)) = 2 ^ GetGlobalDepth t
  ∧ GetNumBuckets t = Z.of_nat (length (heap t))
  ∧ ∀ bucket_id, 0 ≤ bucket_id < 2 ^ GetGlobalDepth t →
      is_Some (bucket_at t bucket_id)
      ∧ 0 ≤ GetLocalDepth t bucket_id ≤ GetGlobalDepth t.
Proof.
  intros Hsz Hrun.
  pose proof (run_table_ok rounds ops _ t (table_ok_init sz Hsz) Hrun) as Hok.
  split; [done|]. pose proof Hok as (Hmx & Hgd & Hlen & Hptr & Hnum & Hall).
  do 2 (split; [done|]). intros i Hi.
  destruct (table_ok_bucket_at t i Hok Hi) as (r & b & Hr & Hb & Hat).
  split; [by eexists|]. unfold GetLocalDepth, GetGlobalDepth in *.
  destruct (Z.leb_spec (Z.of_nat (length (table t))) i); [lia|].
  rewrite Hat. apply (table_ok_bucket t i r b Hok Hr Hb).
Qed.
End Table.

(** *** The theorems on tables with the identity hash *)

(** X18 on the new table of bucket size 2: key 5 goes into the free
    entry of the only bucket. *)
Lemma X18_witness :
  ∃ t', Insert Scenarios.identity_hash 0 (init 2) 5 (50 : Z) = Some t'
        ∧ Find Scenarios.identity_hash t' 5 = Some 50
        ∧ table t' = [0%nat].
Proof.
  destruct (X18_Insert_without_split Scenarios.identity_hash (init 2) 5 (50 : Z)
              (new_Bucket 0 2 0) 0)
    as (t' & Hi & Hf & _ & Ht & _).
  - apply table_ok_init. lia.
  - reflexivity.
  - right. vm_compute. reflexivity.
  - exists t'. split; [exact Hi|]. split; [exact Hf | exact Ht].
Defined.

(** The table of bucket size 2 that holds the keys 0 and 4. *)
Lemma table_04 :
  ∃ t, run Scenarios.identity_hash 8 [OpInsert 0 (100 : Z); OpInsert 4 104] (init 2) = Some t
       ∧ table_ok t.
Proof.
  destruct (run Scenarios.identity_hash 8 [OpInsert 0 (100 : Z); OpInsert 4 104] (init 2))
    as [t|] eqn:Hrun; [|vm_compute in Hrun; discriminate Hrun].
  exists t. split; [reflexivity|].
  apply (run_table_ok Scenarios.identity_hash 8 [OpInsert 0 (100 : Z); OpInsert 4 104]
           (init 2) t); [|exact Hrun].
  apply table_ok_init. lia.
Defined.

(** X19 on the table with the keys 0 and 4: Remove of 4 returns true
    and 4 is not found any more, while 0 still is. *)
Lemma X19_witness :
  ∃ t, run Scenarios.identity_hash 8 [OpInsert 0 (100 : Z); OpInsert 4 104] (init 2) = Some t
       ∧ (Remove Scenarios.identity_hash t 4).1 = true
       ∧ Find Scenarios.identity_hash (Remove Scenarios.identity_hash t 4).2 4 = None
       ∧ Find Scenarios.identity_hash (Remove Scenarios.identity_hash t 4).2 0
         = Find Scenarios.identity_hash t 0.
Proof.
  destruct table_04 as (t & Hrun & Hok). exists t. split; [exact Hrun|].
  destruct (X19_Remove_then_Find Scenarios.identity_hash t 4 Hok)
    as (Hiff & Hnone & Hother & _).
  split; [|split; [exact Hnone|apply Hother; discriminate]].
  apply Hiff. vm_compute in Hrun. injection Hrun as <-. vm_compute. by eexists.
Defined.

(** X20 on the same table, whose only bucket is full: Insert of 8
    splits it and doubles the directory until 4 and 8 come apart, and 8
    is found. *)
Lemma X20_witness :
  ∃ t t', run Scenarios.identity_hash 8 [OpInsert 0 (100 : Z); OpInsert 4 104] (init 2) = Some t
          ∧ Insert Scenarios.identity_hash 8 t 8 108 = Some t'
          ∧ Find Scenarios.identity_hash t' 8 = Some 108
          ∧ GetGlobalDepth t = 0 ∧ GetGlobalDepth t' = 3.
Proof.
  destruct table_04 as (t & Hrun & Hok).
  destruct (Insert Scenarios.identity_hash 8 t 8 108) as [t'|] eqn:Hins.
  2:{ vm_compute in Hrun. injection Hrun as <-. vm_compute in Hins. discriminate Hins. }
  exists t, t'. split; [exact Hrun|]. split; [exact Hins|].
  destruct (X20_Insert_then_Find Scenarios.identity_hash 8 t 8 108 t' Hok Hins) as (Hf & _).
  split; [exact Hf|].
  vm_compute in Hrun. injection Hrun as <-. vm_compute in Hins. injection Hins as <-.
  split; reflexivity.
Defined.

(** X21 on the run of the six inserts. *)
Lemma X21_witness :
  ∃ t, run Scenarios.identity_hash 8 Scenarios.six_inserts (init 2) = Some t
       ∧ table_ok t
       ∧ GetNumBuckets t = 5 ∧ length (table t) = 8%nat.
Proof.
  destruct (run Scenarios.identity_hash 8 Scenarios.six_inserts (init 2))
    as [t|] eqn:Hrun; [|vm_compute in Hrun; discriminate Hrun].
  exists t. split; [reflexivity|].
  destruct (X21_runs_keep_table_well_formed Scenarios.identity_hash 8
              Scenarios.six_inserts 2 t) as (Hok & _); [lia|exact Hrun|].
  split; [exact Hok|].
  vm_compute in Hrun. injection Hrun as <-. split; reflexivity.
Defined.
End EHTLookup.
(** ** Buffer pool manager: frames, pins and the disk *)

Module BPMPool.
Import BPM.
Section Pool.
Context {Data : Type}.
Variable zero : Data.
Variable hash : Z → Z.
Variable rounds : nat.
Implicit Types (m : @BufferPoolManager Data) (page : @Page Data) (f : nat).

(** *** The choice of a frame *)

Lemma LRU_Victim_last (r : LRU.LRUReplacer nat) f :
  LRU.wf r → last (LRU.used r) = Some f →
  LRU.Victim r = (Some f, LRU.mkLRU (LRU.mp r ∖ {[f]}) (removelast (LRU.used r)))
  ∧ LRU.Size r ≠ 0%nat.
Proof.
  intros Hwf Hlast. pose proof (LRUFacts.wf_size r Hwf) as Hsize.
  destruct Hwf as [Hnd Hin].
  assert (f ∈ LRU.used r) as Hf.
  { apply LRUFacts.last_removelast in Hlast. rewrite Hlast.
    apply elem_of_app. right. by apply list_elem_of_singleton. }
  split.
  - unfold LRU.Victim. rewrite Hlast.
    destruct (decide (LRU.mp r = ∅)) as [He|_]; [|done].
    apply Hin in Hf. rewrite He in Hf. by apply not_elem_of_empty in Hf.
  - rewrite Hsize. destruct (LRU.used r); [by apply elem_of_nil in Hf|done].
Qed.

(** X22: the choice of the frame for a page that is not resident.  The
    front of the free list is taken when the free list is not empty,
    and the replacer is then left alone; with an empty free list the
    frame is the victim of the replacer, the one that was unpinned the
    longest ago; and with no frame in either, GetFreePage returns the
    null pointer, and so do FetchPage (of a page that is not resident)
    and NewPage, which leave the pool, the page table and the disk
    manager as they are: NewPage allocates no page id. *)
Theorem X22_choice_of_the_frame m :
  LRU.wf (replacer_ m) →
  (∀ f fl, free_list_ m = f :: fl → GetFreePage m = (Some f, set_free_list m fl))
  ∧ (∀ f, free_list_ m = [] → last (LRU.used (replacer_ m)) = Some f →
       GetFreePage m
       = (Some f, set_replacer m (LRU.mkLRU (LRU.mp (replacer_ m) ∖ {[f]})
                                            (removelast (LRU.used (replacer_ m))))))
  ∧ (free_list_ m = [] → LRU.used (replacer_ m) = [] →
       GetFreePage m = (None, m)
       ∧ NewPage zero hash rounds m = Some (None, m)
       ∧ ∀ page_id, lookup_frame hash m page_id = None →
                    FetchPage zero hash rounds m page_id = Some (None, m)).
Proof.
  intros Hwf. split; [|split].
  - intros f fl Hfl. unfold GetFreePage. by rewrite Hfl.
  - intros f Hfl Hlast. unfold GetFreePage. rewrite Hfl.
    destruct (LRU_Victim_last _ f Hwf Hlast) as [Hv Hs].
    rewrite (proj2 (Nat.eqb_neq _ _) Hs). by rewrite Hv.
  - intros Hfl Hused.
    assert (GetFreePage m = (None, m)) as Hg.
    { unfold GetFreePage. rewrite Hfl.
      rewrite (LRUFacts.wf_size _ Hwf), Hused. done. }
    split; [done|]. split.
    + unfold NewPage. by rewrite Hg.
    + intros page_id Hl. unfold FetchPage. by rewrite Hl, Hg.
Qed.

(** *** Pins *)

Lemma not_elem_of_Erase (r : LRU.LRUReplacer nat) f : f ∉ LRU.mp (LRU.Erase f r).2.
Proof.
  unfold LRU.Erase. destruct (decide (f ∈ LRU.mp r)); simpl; [|done].
  apply not_elem_of_difference. right. by apply elem_of_singleton.
Qed.

(** X23: FetchPage of a resident page pins it, and UnpinPage releases
    the pin.  When the page table maps [page_id] to the frame [f],
    FetchPage returns [f] with the pin count one higher, takes the frame
    out of the replacer, and touches neither the disk manager, the page
    table nor the free list; UnpinPage with a clean flag then returns
    true and leaves every frame as it was before the fetch, and when
    the pin count is back at 0 the frame is the replacer's most recently
    used entry. *)
Theorem X23_FetchPage_then_UnpinPage m page_id f page :
  lookup_frame hash m page_id = Some f → pages_ m !! f = Some page →
  0 ≤ pin_count_ page →
  ∃ m1 m2,
    FetchPage zero hash rounds m page_id = Some (Some f, m1)
    ∧ pages_ m1
      = <[f := mkPage (data_ page) (page_id_ page) (pin_count_ page + 1) (is_dirty_ page)]>
          (pages_ m)
    ∧ (f ∉ LRU.mp (replacer_ m1))
    ∧ disk_manager_ m1 = disk_manager_ m
    ∧ page_table_ m1 = page_table_ m
    ∧ free_list_ m1 = free_list_ m
    ∧ UnpinPage hash m1 page_id false = (true, m2)
    ∧ pages_ m2 = pages_ m
    ∧ disk_manager_ m2 = disk_manager_ m
    ∧ page_table_ m2 = page_table_ m
    ∧ (pin_count_ page = 0 → ∃ l, LRU.used (replacer_ m2) = f :: l)
    ∧ (0 < pin_count_ page → replacer_ m2 = replacer_ m1).
Proof.
  intros Hl Hp Hpin.
  assert (f < length (pages_ m))%nat as Hlt by (by apply lookup_lt_Some in Hp).
  set (page1 := mkPage (data_ page) (page_id_ page) (pin_count_ page + 1) (is_dirty_ page)).
  set (m1 := set_replacer (set_pages m (<[f := page1]> (pages_ m)))
               (LRU.Erase f (replacer_ m)).2).
  assert (FetchPage zero hash rounds m page_id = Some (Some f, m1)) as Hfetch.
  { unfold FetchPage. by rewrite Hl, Hp. }
  assert (<[f := page]> (<[f := page1]> (<[f := page1]> (pages_ m))) = pages_ m) as Hpages.
  { rewrite !list_insert_insert_eq. by apply list_insert_id. }
  assert (UnpinPage hash m1 page_id false
          = (true, if pin_count_ page =? 0
                   then set_replacer (set_pages m1 (pages_ m)) (LRU.Insert f (replacer_ m1))
                   else set_pages m1 (pages_ m))) as Hunpin.
  { unfold UnpinPage, lookup_frame. unfold lookup_frame in Hl.
    change (page_table_ m1) with (page_table_ m). rewrite Hl.
    change (pages_ m1) with (<[f := page1]> (pages_ m)).
    rewrite list_lookup_insert_eq by done. cbn [data_ page_id_ pin_count_ is_dirty_ page1].
    destruct (Z.leb_spec (pin_count_ page + 1) 0) as [Hc|_]; [lia|].
    replace (pin_count_ page + 1 - 1) with (pin_count_ page) by lia.
    rewrite orb_false_r. unfold set_pages at 1 2 3 4. cbn [pages_ pool_size_ page_table_ replacer_ free_list_ disk_manager_].
    replace (mkPage (data_ page) (page_id_ page) (pin_count_ page) (is_dirty_ page))
      with page by (by destruct page).
    fold page1.
    destruct (pin_count_ page =? 0); f_equal; unfold set_pages, set_replacer;
      cbn [pages_ pool_size_ page_table_ replacer_ free_list_ disk_manager_];
      by rewrite ?Hpages. }
  exists m1. eexists. split; [exact Hfetch|].
  split; [done|]. split; [apply not_elem_of_Erase|]. do 3 (split; [done|]).
  split; [exact Hunpin|].
  destruct (Z.eqb_spec (pin_count_ page) 0) as [Hz|Hnz]; simpl.
  - split; [done|]. do 2 (split; [done|]). split; [|lia]. intros _. by eexists.
  - split; [done|]. do 2 (split; [done|]). split; [lia|done].
Qed.

(** *** Frames that change hands *)

Lemma GetFreePage_frame m f m0 :
  GetFreePage m = (Some f, m0) →
  pool_size_ m0 = pool_size_ m ∧ pages_ m0 = pages_ m
  ∧ page_table_ m0 = page_table_ m ∧ disk_manager_ m0 = disk_manager_ m.
Proof.
  unfold GetFreePage. destruct (free_list_ m) as [|f' fl].
  - destruct (_ =? _)%nat; [done|].
    destruct (LRU.Victim (replacer_ m)) as [v r]. by intros [= _ <-].
  - by intros [= _ <-].
Qed.

Lemma FlushPage_frame m page_id :
  pool_size_ (FlushPage hash m page_id).2 = pool_size_ m
  ∧ page_table_ (FlushPage hash m page_id).2 = page_table_ m
  ∧ replacer_ (FlushPage hash m page_id).2 = replacer_ m
  ∧ free_list_ (FlushPage hash m page_id).2 = free_list_ m
  ∧ length (pages_ (FlushPage hash m page_id).2) = length (pages_ m).
Proof.
  unfold FlushPage. destruct (lookup_frame hash m page_id) as [f|]; [|done].
  destruct (pages_ m !! f) as [page|]; [|done].
  destruct (_ =? _); [done|]. simpl. by rewrite length_insert.
Qed.

Lemma FlushPage_disk m page_id :
  next_page_id (disk_manager_ (FlushPage hash m page_id).2) = next_page_id (disk_manager_ m)
  ∧ deallocated (disk_manager_ (FlushPage hash m page_id).2) = deallocated (disk_manager_ m).
Proof.
  unfold FlushPage. destruct (lookup_frame hash m page_id) as [f|]; [|done].
  destruct (pages_ m !! f) as [page|]; [|done].
  by destruct (_ =? _).
Qed.

(** What remap makes of the pool: the frame's former page, when dirty
    and found by the page table, is written to the disk; the page table
    then maps the new page id to the frame. *)
Lemma remap_spec m f page_id m' :
  EHTInv.table_ok (page_table_ m) → remap hash rounds m f page_id = Some m' →
  ∃ page,
    pages_ m !! f = Some page
    ∧ lookup_frame hash m' page_id = Some f
    ∧ EHTInv.table_ok (page_table_ m')
    ∧ pool_size_ m' = pool_size_ m
    ∧ replacer_ m' = replacer_ m
    ∧ free_list_ m' = free_list_ m
    ∧ length (pages_ m') = length (pages_ m)
    ∧ pages_ m' = pages_ (if is_dirty_ page then (FlushPage hash m (page_id_ page)).2 else m)
    ∧ disk_manager_ m'
      = disk_manager_ (if is_dirty_ page then (FlushPage hash m (page_id_ page)).2 else m).
Proof.
  intros Hok. unfold remap. destruct (pages_ m !! f) as [page|] eqn:Hp; [|done]. simpl.
  set (m1 := if is_dirty_ page then (FlushPage hash m (page_id_ page)).2 else m).
  assert (pool_size_ m1 = pool_size_ m ∧ page_table_ m1 = page_table_ m
          ∧ replacer_ m1 = replacer_ m ∧ free_list_ m1 = free_list_ m
          ∧ length (pages_ m1) = length (pages_ m)) as (F1 & F2 & F3 & F4 & F5).
  { unfold m1. destruct (is_dirty_ page); [apply FlushPage_frame|done]. }
  rewrite F2.
  destruct (EHT.Insert hash rounds (EHT.Remove hash (page_table_ m) (page_id_ page)).2
              page_id f) as [t2|] eqn:Hins; [|done].
  simpl. intros [= <-]. exists page. split; [done|].
  destruct (EHTLookup.Insert_spec hash rounds
              (EHT.Remove hash (page_table_ m) (page_id_ page)).2 page_id f t2)
    as (Hok2 & Hfind & _);
    [apply (EHTLookup.Remove_spec hash _ _ Hok)|exact Hins|].
  split; [exact Hfind|]. simpl. split; [exact Hok2|]. by repeat split.
Qed.

(** X24: a page that NewPage has created is resident.  When NewPage
    returns a frame, the page id is the one the disk manager hands out
    next; the frame holds a zeroed page of this id, clean and pinned
    once; the page table maps the id to the frame, and FetchPage of the
    id returns the same frame, now pinned twice. *)
Theorem X24_NewPage_then_FetchPage m f page_id m1 :
  EHTInv.table_ok (page_table_ m) →
  NewPage zero hash rounds m = Some (Some (f, page_id), m1) →
  page_id = next_page_id (disk_manager_ m)
  ∧ next_page_id (disk_manager_ m1) = page_id + 1
  ∧ pages_ m1 !! f = Some (mkPage zero page_id 1 false)
  ∧ lookup_frame hash m1 page_id = Some f
  ∧ ∃ m2, FetchPage zero hash rounds m1 page_id = Some (Some f, m2)
          ∧ pages_ m2 !! f = Some (mkPage zero page_id 2 false).
Proof.
  intros Hok. unfold NewPage.
  destruct (GetFreePage m) as [[f0|] m0] eqn:Hg; [|done].
  destruct (GetFreePage_frame m f0 m0 Hg) as (G1 & G2 & G3 & G4).
  cbn [AllocatePage].
  match goal with |- context [remap hash rounds ?s f0 ?id] =>
    destruct (remap hash rounds s f0 id) as [m2|] eqn:Hr; [|done] end.
  simpl. intros [= <- <- <-].
  match type of Hr with remap _ _ ?s _ ?id = _ =>
    assert (EHTInv.table_ok (page_table_ s)) as Hok0 by (simpl; by rewrite G3);
    destruct (remap_spec s f0 id m2 Hok0 Hr)
      as (page & Hp & Hl & Hok2 & R1 & R2 & R3 & R4 & R5 & R6)
  end.
  simpl in Hp, R4.
  assert (f0 < length (pages_ m2))%nat as Hlt.
  { rewrite R4. by apply lookup_lt_Some in Hp. }
  split; [by rewrite G4|]. split.
  { simpl. rewrite R6. destruct (is_dirty_ page); [|simpl; by rewrite G4].
    rewrite (proj1 (FlushPage_disk _ _)). simpl. by rewrite G4. }
  split; [simpl; by apply list_lookup_insert_eq|].
  split; [exact Hl|].
  unfold FetchPage. unfold lookup_frame in *. simpl. rewrite Hl.
  rewrite list_lookup_insert_eq by done. simpl.
  eexists. split; [reflexivity|]. simpl.
  apply list_lookup_insert_eq. by rewrite length_insert.
Qed.

(** X25: DeletePage of a resident page.  While the page is pinned
    DeletePage returns false and changes nothing: the page stays in its
    frame and the disk manager is not told.  When it is not pinned,
    DeletePage returns true, the page table no longer finds the page,
    the frame is reset (invalid page id, clean, zeroed), taken out of
    the replacer and put at the back of the free list, and the disk
    manager is told to deallocate the page. *)
Theorem X25_DeletePage_of_resident_page m page_id f page :
  EHTInv.table_ok (page_table_ m) →
  lookup_frame hash m page_id = Some f → pages_ m !! f = Some page →
  (0 < pin_count_ page → DeletePage zero hash m page_id = (false, m))
  ∧ (pin_count_ page ≤ 0 →
       ∃ m', DeletePage zero hash m page_id = (true, m')
             ∧ lookup_frame hash m' page_id = None
             ∧ pages_ m' = <[f := mkPage zero INVALID_PAGE_ID (pin_count_ page) false]> (pages_ m)
             ∧ free_list_ m' = free_list_ m ++ [f]
             ∧ (f ∉ LRU.mp (replacer_ m'))
             ∧ deallocated (disk_manager_ m') = page_id :: deallocated (disk_manager_ m)
             ∧ contents (disk_manager_ m') = contents (disk_manager_ m)).
Proof.
  intros Hok Hl Hp. unfold DeletePage. rewrite Hl, Hp. split.
  - intros Hpin. by rewrite (proj2 (Z.ltb_lt _ _)) by done.
  - intros Hpin. rewrite (proj2 (Z.ltb_ge _ _)) by done.
    eexists. split; [reflexivity|]. simpl.
    split; [unfold lookup_frame; simpl; apply (EHTLookup.Remove_spec hash _ _ Hok)|].
    split; [done|]. split; [done|]. split; [apply not_elem_of_Erase|]. done.
Qed.

(** X26: a dirty victim is written back.  FetchPage brings in a page
    that is not resident and takes the frame [f], which holds a dirty
    page.  When the page table still maps the id of that page to [f],
    its content is on the disk afterwards, under its id; when the page
    table has lost that entry, FlushPage fails unnoticed and the disk
    keeps what it had.  In both cases the frame then holds what the
    disk had for the new page, clean and pinned once. *)
Theorem X26_dirty_victim_is_written_back m page_id f m0 page res m' :
  EHTInv.table_ok (page_table_ m) →
  lookup_frame hash m page_id = None →
  GetFreePage m = (Some f, m0) →
  pages_ m !! f = Some page → is_dirty_ page = true → page_id_ page ≠ INVALID_PAGE_ID →
  FetchPage zero hash rounds m page_id = Some (res, m') →
  res = Some f
  ∧ lookup_frame hash m' page_id = Some f
  ∧ pages_ m' !! f = Some (mkPage (ReadPage zero (disk_manager_ m) page_id) page_id 1 false)
  ∧ (lookup_frame hash m (page_id_ page) = Some f →
       contents (disk_manager_ m') !! page_id_ page = Some (data_ page))
  ∧ (lookup_frame hash m (page_id_ page) = None →
       disk_manager_ m' = disk_manager_ m).
Proof.
  intros Hok Hl Hg Hp Hd Hid. unfold FetchPage. rewrite Hl, Hg.
  destruct (GetFreePage_frame m f m0 Hg) as (G1 & G2 & G3 & G4).
  destruct (remap hash rounds m0 f page_id) as [m2|] eqn:Hr; [|done].
  simpl. intros [= <- <-].
  destruct (remap_spec m0 f page_id m2 ltac:(by rewrite G3) Hr)
    as (page' & Hp' & Hl2 & Hok2 & R1 & R2 & R3 & R4 & R5 & R6).
  rewrite G2, Hp in Hp'. injection Hp' as <-. rewrite Hd in R5, R6.
  assert (f < length (pages_ m2))%nat as Hlt.
  { rewrite R4, G2. by apply lookup_lt_Some in Hp. }
  assert (page_id ≠ page_id_ page ∨ lookup_frame hash m (page_id_ page) = None) as Hdiff.
  { destruct (decide (page_id = page_id_ page)) as [->|]; [by right|by left]. }
  assert (lookup_frame hash m0 (page_id_ page) = lookup_frame hash m (page_id_ page)) as Hlm
    by (unfold lookup_frame; by rewrite G3).
  split; [done|]. split; [exact Hl2|].
  unfold FlushPage in R6. rewrite Hlm in R6.
  destruct (lookup_frame hash m (page_id_ page)) as [f'|] eqn:Hlold.
  - rewrite G2 in R6.
    assert (page_id ≠ page_id_ page) as Hne by (destruct Hdiff as [?|?]; done).
    split.
    { simpl. rewrite list_lookup_insert_eq by done. do 2 f_equal.
      rewrite R6. destruct (pages_ m !! f') as [page'|]; [|simpl; by rewrite G4].
      destruct (_ =? _); simpl; rewrite G4; [done|].
      unfold ReadPage, WritePage. simpl. by rewrite lookup_insert_ne. }
    split; [|done]. intros [= ->]. simpl. rewrite R6, Hp.
    rewrite (proj2 (Z.eqb_neq _ _)) by done. simpl. rewrite G4. apply lookup_insert_eq.
  - simpl in R6. split.
    { simpl. rewrite list_lookup_insert_eq by done. by rewrite R6, G4. }
    split; [done|]. intros _. simpl. by rewrite R6, G4.
Qed.

(** *** FlushAllPages *)

Lemma flush_frames_spec (n : nat) m :
  let m' := foldl flush_frame m (seq 0 n) in
  pool_size_ m' = pool_size_ m
  ∧ page_table_ m' = page_table_ m
  ∧ replacer_ m' = replacer_ m
  ∧ free_list_ m' = free_list_ m
  ∧ next_page_id (disk_manager_ m') = next_page_id (disk_manager_ m)
  ∧ deallocated (disk_manager_ m') = deallocated (disk_manager_ m)
  ∧ (∀ (i : nat) page, pages_ m !! i = Some page →
       pages_ m' !! i
       = Some (if bool_decide (i < n)%nat && (pin_count_ page =? 0) && is_dirty_ page
               then mkPage (data_ page) (page_id_ page) (pin_count_ page) false
               else page))
  ∧ (∀ (i : nat), pages_ m !! i = None → pages_ m' !! i = None)
  ∧ (∀ id,
       (∀ (i : nat) page, (i < n)%nat → pages_ m !! i = Some page →
          pin_count_ page = 0 → is_dirty_ page = true → page_id_ page ≠ id) →
       contents (disk_manager_ m') !! id = contents (disk_manager_ m) !! id)
  ∧ (∀ (i : nat) page, (i < n)%nat → pages_ m !! i = Some page →
       pin_count_ page = 0 → is_dirty_ page = true →
       (∀ (j : nat) page', (i < j < n)%nat → pages_ m !! j = Some page' →
          pin_count_ page' = 0 → is_dirty_ page' = true →
          page_id_ page' ≠ page_id_ page) →
       contents (disk_manager_ m') !! page_id_ page = Some (data_ page)).
Proof.
  induction n as [|n IH].
  - cbn [seq foldl]. do 6 (split; [done|]). split.
    { intros i page Hp. rewrite Hp. case_bool_decide; [lia|done]. }
    split; [done|]. split; [done|]. intros i page Hi. lia.
  - rewrite seq_S, foldl_app. cbn [foldl Nat.add].
    set (mn := foldl flush_frame m (seq 0 n)) in *. cbv zeta in IH.
    destruct IH as (I1 & I2 & I3 & I4 & I5 & I6 & Ipages & Inone & Iout & Iin).
    cbv zeta. unfold flush_frame at 1 2 3 4 5 6 7 8 9 10.
    destruct (pages_ m !! n) as [pn|] eqn:Hpn.
    2:{ rewrite (Inone n Hpn). do 6 (split; [done|]). split.
        { intros i page Hp. rewrite (Ipages i page Hp).
          assert (i ≠ n) by congruence.
          repeat case_bool_decide; first [lia | done]. }
        split; [done|]. split.
        { intros id Hid. apply Iout. intros i page Hi. apply (Hid i page). lia. }
        intros i page Hi Hp Hpin Hd Huniq.
        assert (i ≠ n) by congruence.
        apply (Iin i page); [lia|done..|]. intros j page' Hj. apply (Huniq j page'). lia. }
    rewrite (Ipages n pn Hpn). case_bool_decide; [lia|]. cbn [andb].
    destruct ((pin_count_ pn =? 0) && is_dirty_ pn) eqn:Hflush.
    2:{ do 6 (split; [done|]). split.
        { intros i page Hp. rewrite (Ipages i page Hp).
          destruct (decide (i = n)) as [->|Hne].
          - assert (page = pn) as -> by congruence.
            repeat case_bool_decide; try lia. cbn [andb]. by rewrite Hflush.
          - repeat case_bool_decide; first [lia | done]. }
        split; [done|]. split.
        { intros id Hid. apply Iout. intros i page Hi. apply (Hid i page). lia. }
        intros i page Hi Hp Hpin Hd Huniq.
        destruct (decide (i = n)) as [->|Hne].
        - assert (page = pn) as -> by congruence.
          rewrite Hpin, Hd in Hflush. done.
        - apply (Iin i page); [lia|done..|]. intros j page' Hj. apply (Huniq j page'). lia. }
    apply andb_true_iff in Hflush as [Hpin0 Hdirty]. apply Z.eqb_eq in Hpin0.
    cbn [pool_size_ pages_ page_table_ replacer_ free_list_ disk_manager_
         set_pages set_disk next_page_id deallocated contents WritePage].
    do 6 (split; [done|]). split.
    { intros i page Hp. destruct (decide (i = n)) as [->|Hne].
      - assert (page = pn) as -> by congruence.
        rewrite list_lookup_insert_eq.
        + repeat case_bool_decide; try lia. cbn [andb].
          by rewrite Hpin0, Hdirty.
        + apply lookup_lt_is_Some. rewrite (Ipages n pn Hpn). by eexists.
      - rewrite list_lookup_insert_ne by done. rewrite (Ipages i page Hp).
        repeat case_bool_decide; first [lia | done]. }
    split.
    { intros i Hi. destruct (decide (i = n)) as [->|Hne]; [congruence|].
      rewrite list_lookup_insert_ne by done. by apply Inone. }
    split.
    { intros id Hid. rewrite lookup_insert_ne.
      - apply Iout. intros i page Hi. apply Hid. lia.
      - apply (Hid n pn); [lia|done..]. }
    intros i page Hi Hp Hpin Hd Huniq.
    destruct (decide (i = n)) as [->|Hne].
    + assert (page = pn) as -> by congruence. apply lookup_insert_eq.
    + rewrite lookup_insert_ne.
      * apply (Iin i page); [lia|done..|]. intros j page' Hj. apply (Huniq j page'). lia.
      * apply (Huniq n pn); [lia|done..].
Qed.

(** X27: FlushAllPages writes the unpinned dirty pages and no others.
    In a pool of at most 65535 frames (the loop counter is a 16-bit
    one), every frame keeps its page id, its content and its pin count;
    the dirty flag of a frame is cleared exactly when its pin count is
    0, so a pinned dirty page stays dirty and is not written; the disk
    then holds the content of an unpinned dirty page under its id (when
    no later unpinned dirty frame has the same id), and what the disk
    has under the ids of no such page is unchanged.  The page table,
    the replacer and the free list are not touched. *)
Theorem X27_FlushAllPages_writes_unpinned_dirty_pages m :
  Z.of_nat (pool_size_ m) ≤ 65535 → pool_size_ m = length (pages_ m) →
  let m' := FlushAllPages m in
  (∀ (i : nat) page, pages_ m !! i = Some page →
     pages_ m' !! i
     = Some (if (pin_count_ page =? 0) && is_dirty_ page
             then mkPage (data_ page) (page_id_ page) (pin_count_ page) false
             else page))
  ∧ length (pages_ m') = length (pages_ m)
  ∧ page_table_ m' = page_table_ m
  ∧ replacer_ m' = replacer_ m
  ∧ free_list_ m' = free_list_ m
  ∧ (∀ id,
       (∀ (i : nat) page, pages_ m !! i = Some page →
          pin_count_ page = 0 → is_dirty_ page = true → page_id_ page ≠ id) →
       contents (disk_manager_ m') !! id = contents (disk_manager_ m) !! id)
  ∧ (∀ (i : nat) page, pages_ m !! i = Some page →
       pin_count_ page = 0 → is_dirty_ page = true →
       (∀ (j : nat) page', (i < j)%nat → pages_ m !! j = Some page' →
          pin_count_ page' = 0 → is_dirty_ page' = true →
          page_id_ page' ≠ page_id_ page) →
       contents (disk_manager_ m') !! page_id_ page = Some (data_ page)).
Proof.
  intros _ Hsize m'. unfold m', FlushAllPages.
  destruct (flush_frames_spec (pool_size_ m) m)
    as (I1 & I2 & I3 & I4 & I5 & I6 & Ipages & Inone & Iout & Iin).
  cbv zeta in *. split.
  { intros i page Hp. rewrite (Ipages i page Hp).
    case_bool_decide as Hlt; [done|]. apply lookup_lt_Some in Hp. lia. }
  split.
  { set (l' := pages_ (foldl flush_frame m (seq 0 (pool_size_ m)))) in *.
    destruct (Nat.lt_trichotomy (length l') (length (pages_ m))) as [Hlt|[Heq|Hlt]];
      [exfalso|done|exfalso].
    - destruct (lookup_lt_is_Some_2 _ _ Hlt) as [x Hx].
      pose proof (Ipages _ x Hx) as Hx'.
      apply lookup_lt_Some in Hx'. lia.
    - destruct (lookup_lt_is_Some_2 _ _ Hlt) as [x Hx].
      rewrite Inone in Hx; [done|]. by apply lookup_ge_None_2. }
  do 3 (split; [done|]). split.
  { intros id Hid. apply Iout. intros i page _. apply (Hid i page). }
  intros i page Hp Hpin Hd Huniq. apply (Iin i page); [|done..|].
  - rewrite Hsize. by apply lookup_lt_Some in Hp.
  - intros j page' Hj. apply (Huniq j page'). lia.
Qed.

(** *** The page table stays well formed *)

Lemma table_ok_init_pool n sz d :
  0 < sz → EHTInv.table_ok (page_table_ (init zero n sz d)).
Proof. intros Hsz. by apply EHTLookup.table_ok_init. Qed.

Lemma table_ok_NewPage m res m' :
  EHTInv.table_ok (page_table_ m) → NewPage zero hash rounds m = Some (res, m') →
  EHTInv.table_ok (page_table_ m').
Proof.
  intros Hok. unfold NewPage.
  destruct (GetFreePage m) as [[f0|] m0] eqn:Hg.
  2:{ intros [= _ <-]. unfold GetFreePage in Hg.
      destruct (free_list_ m); [|done].
      destruct (_ =? _)%nat; [by injection Hg as <-|].
      destruct (LRU.Victim (replacer_ m)). by injection Hg as _ <-. }
  destruct (GetFreePage_frame m f0 m0 Hg) as (G1 & G2 & G3 & G4).
  cbn [AllocatePage].
  match goal with |- context [remap hash rounds ?s f0 ?id] =>
    destruct (remap hash rounds s f0 id) as [m2|] eqn:Hr; [|done] end.
  simpl. intros [= _ <-].
  match type of Hr with remap _ _ ?s _ ?id = _ =>
    assert (EHTInv.table_ok (page_table_ s)) as Hok0 by (simpl; by rewrite G3);
    destruct (remap_spec s f0 id m2 Hok0 Hr) as (page & _ & _ & Hok2 & _)
  end.
  exact Hok2.
Qed.

Lemma page_table_UnpinPage m page_id dirty :
  page_table_ (UnpinPage hash m page_id dirty).2 = page_table_ m.
Proof.
  unfold UnpinPage. destruct (lookup_frame hash m page_id); [|done].
  destruct (pages_ m !! _); [|done]. cbn [pin_count_].
  destruct (_ <=? _); [done|]. by destruct (_ =? _).
Qed.
End Pool.

(** The sample pools have a well-formed page table. *)
Lemma table_ok_small_pool m :
  Scenarios.small_pool = Some m → EHTInv.table_ok (page_table_ m).
Proof.
  unfold Scenarios.small_pool.
  destruct (NewPage 0 Scenarios.identity_hash 8 _) as [[r1 m1]|] eqn:H1; [|done].
  cbn [mbind option_bind snd].
  destruct (NewPage 0 Scenarios.identity_hash 8 m1) as [[r2 m2]|] eqn:H2; [|done].
  cbn [mbind option_bind snd]. intros [= <-].
  eapply table_ok_NewPage; [|exact H2].
  eapply table_ok_NewPage; [|exact H1].
  by apply table_ok_init_pool.
Qed.

Lemma table_ok_small_pool_unpinned m :
  Samples.small_pool_unpinned = Some m → EHTInv.table_ok (page_table_ m).
Proof.
  unfold Samples.small_pool_unpinned.
  destruct Scenarios.small_pool as [m0|] eqn:H0; [|done].
  cbn [mbind option_bind]. intros [= <-].
  rewrite page_table_UnpinPage. by apply table_ok_small_pool.
Qed.

Lemma table_ok_one_dirty_frame m :
  Samples.one_dirty_frame = Some m → EHTInv.table_ok (page_table_ m).
Proof.
  unfold Samples.one_dirty_frame.
  destruct (NewPage 0 Scenarios.identity_hash 8 _) as [[r1 m1]|] eqn:H1; [|done].
  cbn [mbind option_bind snd]. intros [= <-].
  rewrite page_table_UnpinPage.
  eapply table_ok_NewPage; [|exact H1]. by apply table_ok_init_pool.
Qed.

(** X22 on the pool of one frame whose page is pinned: NewPage and
    FetchPage of page 7 return the null pointer. *)
Lemma X22_witness :
  ∃ m, Samples.one_pinned_frame = Some m
       ∧ LRU.wf (replacer_ m)
       ∧ NewPage 0 Scenarios.identity_hash 8 m = Some (None, m)
       ∧ FetchPage 0 Scenarios.identity_hash 8 m 7 = Some (None, m).
Proof.
  destruct Samples.one_pinned_frame as [m|] eqn:Hm; [|by vm_compute in Hm].
  vm_compute in Hm. injection Hm as Hm.
  assert (LRU.wf (replacer_ m)) as Hwf by (subst m; apply LRUFacts.wf_empty).
  destruct (X22_choice_of_the_frame 0 Scenarios.identity_hash 8 m Hwf) as (_ & _ & H).
  destruct H as (_ & Hnew & Hfetch); [by subst m..|].
  exists m. split; [done|]. split; [exact Hwf|]. split; [exact Hnew|].
  apply Hfetch. subst m. vm_compute. reflexivity.
Defined.

(** X23 on the pool with the pages 0 and 1: page 0 is fetched and
    unpinned. *)
Lemma X23_witness :
  ∃ m m1 m2,
    Scenarios.small_pool = Some m
    ∧ lookup_frame Scenarios.identity_hash m 0 = Some 0%nat
    ∧ pages_ m !! 0%nat = Some (mkPage 0 0 1 false)
    ∧ FetchPage 0 Scenarios.identity_hash 8 m 0 = Some (Some 0%nat, m1)
    ∧ pages_ m1 !! 0%nat = Some (mkPage 0 0 2 false)
    ∧ UnpinPage Scenarios.identity_hash m1 0 false = (true, m2)
    ∧ pages_ m2 = pages_ m.
Proof.
  destruct Scenarios.small_pool as [m|] eqn:Hm; [|by vm_compute in Hm].
  vm_compute in Hm. injection Hm as Hm.
  assert (lookup_frame Scenarios.identity_hash m 0 = Some 0%nat) as Hl
    by (subst m; vm_compute; reflexivity).
  assert (pages_ m !! 0%nat = Some (mkPage 0 0 1 false)) as Hp by (by subst m).
  destruct (X23_FetchPage_then_UnpinPage 0 Scenarios.identity_hash 8 m 0 0%nat
              (mkPage 0 0 1 false) Hl Hp)
    as (m1 & m2 & Hf & Hp1 & _ & _ & _ & _ & Hu & Hp2 & _); [simpl; lia|].
  exists m, m1, m2. split; [done|]. split; [exact Hl|]. split; [exact Hp|].
  split; [exact Hf|]. split; [|by split].
  rewrite Hp1. subst m. reflexivity.
Defined.

(** X24 on the fresh pool of three frames: NewPage creates page 0 in
    frame 0. *)
Lemma X24_witness :
  ∃ m1 m2,
    NewPage 0 Scenarios.identity_hash 8 (init 0 3 2 (mkDisk ∅ 0 []))
    = Some (Some (0%nat, 0), m1)
    ∧ lookup_frame Scenarios.identity_hash m1 0 = Some 0%nat
    ∧ FetchPage 0 Scenarios.identity_hash 8 m1 0 = Some (Some 0%nat, m2)
    ∧ pages_ m2 !! 0%nat = Some (mkPage 0 0 2 false).
Proof.
  destruct (NewPage 0 Scenarios.identity_hash 8 (init 0 3 2 (mkDisk ∅ 0 [])))
    as [[[[f id]|] m1]|] eqn:Hn; try (by vm_compute in Hn).
  assert (f = 0%nat ∧ id = 0) as [-> ->].
  { vm_compute in Hn. by injection Hn as <- <- _. }
  destruct (X24_NewPage_then_FetchPage 0 Scenarios.identity_hash 8
              (init 0 3 2 (mkDisk ∅ 0 [])) 0%nat 0 m1)
    as (_ & _ & _ & Hl & m2 & Hf & Hp2);
    [by apply table_ok_init_pool|exact Hn|].
  exists m1, m2. by repeat split.
Defined.

(** X25 on the pool with the pages 0 and 1: page 1 is pinned and cannot
    be deleted; page 0, unpinned, can. *)
Lemma X25_witness :
  ∃ m m',
    Samples.small_pool_unpinned = Some m
    ∧ DeletePage 0 Scenarios.identity_hash m 1 = (false, m)
    ∧ DeletePage 0 Scenarios.identity_hash m 0 = (true, m')
    ∧ lookup_frame Scenarios.identity_hash m' 0 = None
    ∧ free_list_ m' = [2; 0]%nat.
Proof.
  destruct Samples.small_pool_unpinned as [m|] eqn:Hm; [|by vm_compute in Hm].
  pose proof (table_ok_small_pool_unpinned m Hm) as Hok.
  vm_compute in Hm. injection Hm as Hm.
  destruct (X25_DeletePage_of_resident_page 0 Scenarios.identity_hash m 1 1%nat
              (mkPage 0 1 1 false) Hok) as [Hpinned _];
    [subst m; vm_compute; reflexivity|by subst m|].
  destruct (X25_DeletePage_of_resident_page 0 Scenarios.identity_hash m 0 0%nat
              (mkPage 0 0 0 false) Hok) as [_ Hdel];
    [subst m; vm_compute; reflexivity|by subst m|].
  destruct Hdel as (m' & Hd & Hl & _ & Hfl & _); [simpl; lia|].
  exists m, m'. split; [done|]. split; [apply Hpinned; simpl; lia|].
  split; [exact Hd|]. split; [exact Hl|]. rewrite Hfl. by subst m.
Defined.

(** X26 on the pool of one frame with the dirty page 0: FetchPage of
    page 7 takes the frame and page 0 is on the disk afterwards. *)
Lemma X26_witness :
  ∃ m m',
    Samples.one_dirty_frame = Some m
    ∧ contents (disk_manager_ m) !! 0 = None
    ∧ FetchPage 0 Scenarios.identity_hash 8 m 7 = Some (Some 0%nat, m')
    ∧ contents (disk_manager_ m') !! 0 = Some 0
    ∧ pages_ m' !! 0%nat = Some (mkPage 0 7 1 false).
Proof.
  destruct Samples.one_dirty_frame as [m|] eqn:Hm; [|by vm_compute in Hm].
  pose proof (table_ok_one_dirty_frame m Hm) as Hok.
  vm_compute in Hm. injection Hm as Hm.
  destruct (FetchPage 0 Scenarios.identity_hash 8 m 7) as [[res m']|] eqn:Hf;
    [|by subst m; vm_compute in Hf].
  destruct (X26_dirty_victim_is_written_back 0 Scenarios.identity_hash 8 m 7 0%nat
              (GetFreePage m).2 (mkPage 0 0 0 true) res m' Hok)
    as (-> & _ & Hp & Hw & _);
    [subst m; vm_compute; reflexivity|subst m; vm_compute; reflexivity
    |by subst m|done|done|exact Hf|].
  exists m, m'. split; [done|]. split; [by subst m|]. split; [done|].
  split; [apply Hw; subst m; vm_compute; reflexivity|].
  rewrite Hp. by subst m.
Defined.

(** X27 on the pool of one frame with the dirty page 0: FlushAllPages
    writes it and clears the flag. *)
Lemma X27_witness :
  ∃ m,
    Samples.one_dirty_frame = Some m
    ∧ pages_ m !! 0%nat = Some (mkPage 0 0 0 true)
    ∧ pages_ (FlushAllPages m) !! 0%nat = Some (mkPage 0 0 0 false)
    ∧ contents (disk_manager_ (FlushAllPages m)) !! 0 = Some 0.
Proof.
  destruct Samples.one_dirty_frame as [m|] eqn:Hm; [|by vm_compute in Hm].
  vm_compute in Hm. injection Hm as Hm.
  assert (pages_ m !! 0%nat = Some (mkPage 0 0 0 true)) as Hp by (by subst m).
  destruct (X27_FlushAllPages_writes_unpinned_dirty_pages m)
    as (Hpages & _ & _ & _ & _ & _ & Hdisk);
    [subst m; simpl; lia|by subst m|].
  exists m. split; [done|]. split; [exact Hp|]. split.
  - by rewrite (Hpages 0%nat _ Hp).
  - apply (Hdisk 0%nat _ Hp); [done..|].
    intros j page' Hj Hpj. subst m. destruct j; [lia|done].
Defined.
End BPMPool.
(** ** B+ tree: trees of one leaf, and the iterator *)

Module BTreeRootLeaf.
Import BTreePage BTree BTreePageInv BTreeInv BTreeExec BTreeSplit BTreeQuiet.

(** *** Lookup after Insert and after RemoveAndDeleteRecord *)

Lemma Leaf_Lookup_Leaf_Insert p key value k :
  sorted_leaf p → 0 ≤ GetSize p → Leaf_Lookup p key = None →
  Leaf_Lookup (Leaf_Insert key value p) k
  = if decide (k = key) then Some value else Leaf_Lookup p k.
Proof.
  intros Hs Hsz Hnone.
  pose proof (PageFacts.sorted_Leaf_Insert key value p Hs Hsz Hnone) as Hs'.
  assert (0 ≤ GetSize (Leaf_Insert key value p)) as Hsz'
    by (rewrite PageFacts.size_Leaf_Insert; lia).
  destruct (decide (k = key)) as [->|Hk].
  - apply PageFacts.Leaf_Lookup_Some; [done..|].
    apply PageFacts.elem_of_items_Leaf_Insert; [done..|]. by left.
  - apply PageFacts.Leaf_Lookup_ext; [done..|]. intros v.
    rewrite PageFacts.elem_of_items_Leaf_Insert by done.
    split; [intros [[= ? ?]|?]; [done|done] | by right].
Qed.

Lemma size_RemoveAndDeleteRecord_nonneg p key :
  sorted_leaf p → 0 ≤ GetSize p → 0 ≤ GetSize (RemoveAndDeleteRecord key p).
Proof.
  intros Hs Hsz. destruct (Leaf_Lookup p key) as [v|] eqn:Hl.
  - rewrite (PageFacts.size_RemoveAndDeleteRecord_present p key v Hl).
    destruct (PageFacts.KeyIndex_spec p key Hs Hsz) as (Hr & _).
    destruct (PageFacts.Leaf_Lookup_index p key v Hl). lia.
  - by rewrite RemoveAndDeleteRecord_absent.
Qed.

Lemma Leaf_Lookup_RemoveAndDeleteRecord p key k :
  sorted_leaf p → 0 ≤ GetSize p →
  Leaf_Lookup (RemoveAndDeleteRecord key p) k
  = if decide (k = key) then None else Leaf_Lookup p k.
Proof.
  intros Hs Hsz.
  pose proof (PageFacts.sorted_RemoveAndDeleteRecord p key Hs Hsz) as Hs'.
  pose proof (size_RemoveAndDeleteRecord_nonneg p key Hs Hsz) as Hsz'.
  destruct (decide (k = key)) as [->|Hk].
  - apply PageFacts.Leaf_Lookup_None; [done..|]. unfold keys.
    rewrite list_elem_of_fmap. intros (x & Hx1 & Hx).
    apply PageFacts.elem_of_items_RemoveAndDeleteRecord in Hx; [|done..].
    destruct Hx as [_ Hx]. congruence.
  - apply PageFacts.Leaf_Lookup_ext; [done..|]. intros v.
    rewrite PageFacts.elem_of_items_RemoveAndDeleteRecord by done. simpl.
    split; [tauto|]. intros Hx. split; [done|congruence].
Qed.

Lemma header_RemoveAndDeleteRecord key p :
  let p' := RemoveAndDeleteRecord key p in
  page_type_ p' = page_type_ p ∧ parent_page_id_ p' = parent_page_id_ p
  ∧ page_id_ p' = page_id_ p ∧ next_page_id_ p' = next_page_id_ p
  ∧ max_size_ p' = max_size_ p.
Proof. cbv zeta. unfold RemoveAndDeleteRecord. by destruct (_ || _). Qed.

(** A freshly initialised leaf is empty. *)
Lemma Leaf_Init_empty leaf_max id parent q :
  let p := Leaf_Init leaf_max id parent q in
  sorted_leaf p ∧ GetSize p = 0 ∧ IsLeafPage p = true
  ∧ ∀ k, Leaf_Lookup p k = None.
Proof.
  cbv zeta. split; [|by repeat split].
  intros i j Hi Hij Hj. unfold GetSize in Hj. simpl in Hj. lia.
Qed.

(** *** The state after the descent *)

Lemma kept_same_but_page_set s s' : same_but_page_set s s' → kept s s'.
Proof.
  intros (E1 & E2 & E3 & E4 & E5 & E6). split; [by repeat split|].
  split; [by rewrite E6|]. exists []. split; [by rewrite app_nil_r|].
  intros ? Hid. by apply elem_of_nil in Hid.
Qed.

(** *** What RemovePagesInTransaction hands to DeletePage *)

Lemma release_pages_spec ids s :
  ∃ s', release_pages ids s = Some (tt, s') ∧ kept s s'
        ∧ (∀ id, id ∈ deleted_pages s → id ∈ deleted_pages s')
        ∧ (∀ id, id ∈ ids → id ∈ deleted_page_set (txn s) → id ∈ deleted_pages s').
Proof.
  revert s. induction ids as [|id0 ids IH]; intros s.
  - exists s. split; [done|]. split; [apply kept_refl|]. split; [done|].
    intros id Hid. by apply elem_of_nil in Hid.
  - destruct (quiet_release_page id0 s) as (sa & Ha & Ka).
    destruct (IH sa) as (s' & Hrun & K & Hmono & Hdel).
    exists s'. split.
    { cbn [release_pages]. unfold bind at 1. by rewrite Ha. }
    split; [by eapply kept_trans|].
    assert (∀ id, id ∈ deleted_pages s → id ∈ deleted_pages sa) as Hmono_a.
    { intros id Hid. destruct Ka as (_ & _ & l & -> & _).
      apply elem_of_app. by left. }
    split; [intros id Hid; by apply Hmono, Hmono_a|].
    intros id Hid Hin.
    assert (id ∈ deleted_pages sa
            ∨ (id ≠ id0 ∧ id ∈ deleted_page_set (txn sa))) as Hcases.
    { revert Ha. unfold release_page, bind, get_txn, DeletePage, set_txn, ret.
      destruct (decide (id0 ∈ deleted_page_set (txn s))) as [Hin0|Hnin0].
      - intros [= <-]. cbn [deleted_pages txn deleted_page_set].
        destruct (decide (id = id0)) as [->|Hne].
        + left. apply elem_of_app. right. by apply list_elem_of_singleton.
        + right. split; [done|]. apply elem_of_difference. split; [done|].
          by rewrite elem_of_singleton.
      - intros [= <-]. right. split; [congruence|done]. }
    destruct Hcases as [Hd|[Hne Hd]]; [by apply Hmono|].
    apply Hdel; [|done]. apply elem_of_cons in Hid as [?|?]; done.
Qed.

Lemma RemovePagesInTransaction_spec s :
  ∃ s', RemovePagesInTransaction true INVALID_PAGE_ID s = Some (tt, s') ∧ kept s s'
        ∧ (∀ id, id ∈ page_set (txn s) → id ∈ deleted_page_set (txn s) →
                 id ∈ deleted_pages s').
Proof.
  destruct (release_pages_spec (page_set (txn s)) s) as (s1 & Hrun & K & _ & Hdel).
  unfold RemovePagesInTransaction. unfold bind at 1. unfold get_txn at 1.
  unfold bind at 1. rewrite Hrun.
  eexists. split; [reflexivity|]. split; [|exact Hdel].
  eapply kept_trans; [exact K|]. cbn [fst snd].
  split; [by repeat split|]. split; [done|].
  exists []. split; [by rewrite app_nil_r|]. intros ? Hid. by apply elem_of_nil in Hid.
Qed.

Section Tree.
Variable leaf_max_size : Z.
Variable internal_max_size : Z.
Variable GetMinSize : BPlusTreePage → Z.
Variable IsSafe : OpType → BPlusTreePage → bool.

Lemma ConcurrentFetchPage_first id op transaction s p :
  pages s !! id = Some p →
  ∃ s1, ConcurrentFetchPage IsSafe id op INVALID_PAGE_ID transaction s = Some (p, s1)
        ∧ same_but_page_set s s1
        ∧ page_set (txn s1)
          = if transaction then page_set (txn s) ++ [id] else page_set (txn s).
Proof.
  intros Hp. unfold ConcurrentFetchPage, bind, FetchPage. rewrite Hp.
  change (0 <? INVALID_PAGE_ID) with false. cbn [andb]. unfold ret.
  destruct transaction.
  - unfold AddIntoPageSet, bind, get_txn, set_txn.
    eexists. split; [reflexivity|]. by repeat split.
  - exists s. by repeat split.
Qed.

Lemma FindLeafPage_root_leaf depth key leftMost op transaction s p :
  root_page_id_ s ≠ INVALID_PAGE_ID → pages s !! root_page_id_ s = Some p →
  IsLeafPage p = true →
  ∃ s1, FindLeafPage IsSafe depth key leftMost op transaction s
        = Some (Some (root_page_id_ s), s1)
        ∧ same_but_page_set s s1
        ∧ page_set (txn s1)
          = if transaction then page_set (txn s) ++ [root_page_id_ s]
            else page_set (txn s).
Proof.
  intros Hroot Hp Hleaf.
  destruct (ConcurrentFetchPage_first (root_page_id_ s) op transaction s p Hp)
    as (s1 & Hc & Hsame & Hps).
  exists s1. split; [|done].
  unfold FindLeafPage. eapply step_run; [reflexivity|]. norm.
  rewrite (proj2 (Z.eqb_neq _ _) Hroot).
  eapply step_run; [exact Hc|]. norm.
  rewrite (BTreeRuns.FindLeafPage_loop_at_leaf IsSafe depth key leftMost op
             transaction p (root_page_id_ s) Hleaf).
  reflexivity.
Qed.

Lemma GetValue_empty depth key transaction s :
  root_page_id_ s = INVALID_PAGE_ID →
  GetValue IsSafe depth key transaction s = Some (None, s).
Proof.
  intros Hroot. unfold GetValue, FindLeafPage, bind, get_root. by rewrite Hroot.
Qed.

Lemma GetValue_root_leaf depth key transaction s p :
  root_page_id_ s ≠ INVALID_PAGE_ID → pages s !! root_page_id_ s = Some p →
  IsLeafPage p = true → GetPageId p = root_page_id_ s →
  ∃ s2, GetValue IsSafe depth key transaction s = Some (Leaf_Lookup p key, s2)
        ∧ kept s s2.
Proof.
  intros Hroot Hp Hleaf Hid.
  destruct (FindLeafPage_root_leaf depth key false READ transaction s p Hroot Hp Hleaf)
    as (s1 & Hfind & Hsame & _).
  destruct (quiet_RemovePagesInTransaction transaction (GetPageId p)
              ltac:(right; by rewrite Hid) s1) as (s2 & Hrel & K2).
  exists s2. split.
  - unfold GetValue. eapply step_run; [exact Hfind|]. norm.
    eapply step_run.
    { apply FetchPage_eq. destruct Hsame as (_ & -> & _). exact Hp. }
    norm. eapply step_run; [exact Hrel|]. reflexivity.
  - eapply kept_trans; [|exact K2]. by apply kept_same_but_page_set.
Qed.

(** Insert into a root leaf that has room. *)
Lemma Insert_root_leaf depth key value s p :
  root_page_id_ s ≠ INVALID_PAGE_ID → pages s !! root_page_id_ s = Some p →
  IsLeafPage p = true → GetSize p < GetMaxSize p → Leaf_Lookup p key = None →
  ∃ s', Insert leaf_max_size internal_max_size IsSafe depth key value true s
        = Some (true, s')
        ∧ root_page_id_ s' = root_page_id_ s
        ∧ pages s' = <[root_page_id_ s := Leaf_Insert key value p]> (pages s)
        ∧ next_page_id s' = next_page_id s.
Proof.
  intros Hroot Hp Hleaf Hroom Hnone.
  destruct (FindLeafPage_root_leaf depth key false INSERT true s p Hroot Hp Hleaf)
    as (s1 & Hfind & (E1 & E2 & E3 & _) & _).
  assert (pages s1 !! root_page_id_ s = Some p) as Hp1 by (by rewrite E2).
  set (sm := mkTree (root_page_id_ s1)
                    (<[root_page_id_ s := Leaf_Insert key value p]> (pages s1))
                    (next_page_id s1) (header_record s1) (deleted_pages s1) (txn s1)).
  destruct (RemovePagesInTransaction_true sm) as (s2 & Hrel & K2 & _).
  exists s2. split.
  - unfold Insert. eapply step_run; [reflexivity|]. norm.
    rewrite (proj2 (Z.eqb_neq _ _) Hroot). unfold InsertIntoLeaf.
    eapply step_run; [exact Hfind|]. norm.
    eapply step_run; [by apply FetchPage_eq|]. norm.
    rewrite Hnone. norm.
    eapply step_run; [by apply modify_eq|]. norm.
    eapply step_run.
    { apply FetchPage_eq. simpl. by rewrite lookup_insert_eq. }
    norm.
    replace (GetMaxSize (Leaf_Insert key value p) <? GetSize (Leaf_Insert key value p))
      with false
      by (symmetry; apply Z.ltb_ge; rewrite PageFacts.size_Leaf_Insert;
          change (GetMaxSize (Leaf_Insert key value p)) with (GetMaxSize p); lia).
    norm. eapply step_run; [exact Hrel|]. reflexivity.
  - destruct K2 as ((F1 & F2 & F3 & _) & _).
    rewrite F1, F2, F3. unfold sm. simpl. by rewrite E1, E2, E3.
Qed.

(** Insert into the empty tree. *)
Lemma Insert_empty depth key value transaction s :
  root_page_id_ s = INVALID_PAGE_ID →
  ∃ s', Insert leaf_max_size internal_max_size IsSafe depth key value transaction s
        = Some (true, s')
        ∧ root_page_id_ s' = next_page_id s
        ∧ pages s'
          = <[next_page_id s :=
                Leaf_Insert key value
                  (Leaf_Init leaf_max_size (next_page_id s) INVALID_PAGE_ID zero_page)]>
              (pages s)
        ∧ next_page_id s' = next_page_id s + 1.
Proof.
  intros Hroot. unfold Insert, bind at 1, get_root. rewrite Hroot.
  change (INVALID_PAGE_ID =? INVALID_PAGE_ID) with true. cbv iota.
  unfold StartNewTree, bind, NewPage, modify, set_root, UpdateRootPageId, ret.
  proj. rewrite lookup_insert_eq. proj. rewrite lookup_insert_eq. proj.
  eexists. split; [reflexivity|]. proj.
  split; [done|]. split; [|done]. by rewrite !insert_insert_eq.
Qed.

(** X28: Insert, run with a transaction, then GetValue, in a tree of at
    most one page.  On an empty tree GetValue finds nothing and Insert
    starts a tree: the page id handed out next becomes the root, a leaf
    that holds the pair alone.  On a tree whose root is a leaf with
    room, Insert of a key that is not there returns true and puts the
    pair into the root in key order, without a new page.  In both cases
    GetValue afterwards (with or without a transaction) returns the
    value for the key and, for every other key, what it returned before
    the insert. *)
Theorem X28_Insert_then_GetValue depth key value s :
  (root_page_id_ s = INVALID_PAGE_ID → next_page_id s ≠ INVALID_PAGE_ID →
     (∀ k tr, GetValue IsSafe depth k tr s = Some (None, s))
     ∧ ∃ s1,
         Insert leaf_max_size internal_max_size IsSafe depth key value true s
         = Some (true, s1)
         ∧ root_page_id_ s1 = next_page_id s
         ∧ next_page_id s1 = next_page_id s + 1
         ∧ pages s1
           = <[next_page_id s :=
                 Leaf_Insert key value
                   (Leaf_Init leaf_max_size (next_page_id s) INVALID_PAGE_ID zero_page)]>
               (pages s)
         ∧ ∀ k tr, ∃ s2,
             GetValue IsSafe depth k tr s1
             = Some (if decide (k = key) then Some value else None, s2))
  ∧ (∀ p, root_page_id_ s ≠ INVALID_PAGE_ID → pages s !! root_page_id_ s = Some p →
       IsLeafPage p = true → GetPageId p = root_page_id_ s →
       sorted_leaf p → 0 ≤ GetSize p < GetMaxSize p →
       Leaf_Lookup p key = None →
       ∃ s1,
         Insert leaf_max_size internal_max_size IsSafe depth key value true s
         = Some (true, s1)
         ∧ root_page_id_ s1 = root_page_id_ s
         ∧ next_page_id s1 = next_page_id s
         ∧ pages s1 = <[root_page_id_ s := Leaf_Insert key value p]> (pages s)
         ∧ ∀ k tr, ∃ s2 s3,
             GetValue IsSafe depth k tr s = Some (Leaf_Lookup p k, s2)
             ∧ GetValue IsSafe depth k tr s1
               = Some (if decide (k = key) then Some value else Leaf_Lookup p k, s3)).
Proof.
  split.
  - intros Hroot Hnext. split; [intros k tr; by apply GetValue_empty|].
    destruct (Insert_empty depth key value true s Hroot)
      as (s1 & Hins & R1 & R2 & R3).
    exists s1. split; [exact Hins|]. split; [exact R1|]. split; [exact R3|].
    split; [exact R2|]. intros k tr.
    set (p0 := Leaf_Init leaf_max_size (next_page_id s) INVALID_PAGE_ID zero_page) in *.
    destruct (Leaf_Init_empty leaf_max_size (next_page_id s) INVALID_PAGE_ID zero_page)
      as (Hs0 & Hsz0 & Hleaf0 & Hnone0). fold p0 in Hs0, Hsz0, Hleaf0, Hnone0.
    destruct (GetValue_root_leaf depth k tr s1 (Leaf_Insert key value p0))
      as (s2 & Hget & _).
    + by rewrite R1.
    + by rewrite R1, R2, lookup_insert_eq.
    + exact Hleaf0.
    + by rewrite R1.
    + exists s2. rewrite Hget.
      rewrite Leaf_Lookup_Leaf_Insert; [|done|lia|done]. by rewrite Hnone0.
  - intros p Hroot Hp Hleaf Hid Hs [Hsz Hroom] Hnone.
    destruct (Insert_root_leaf depth key value s p Hroot Hp Hleaf Hroom Hnone)
      as (s1 & Hins & R1 & R2 & R3).
    exists s1. split; [exact Hins|]. split; [exact R1|]. split; [exact R3|].
    split; [exact R2|]. intros k tr.
    destruct (GetValue_root_leaf depth k tr s p Hroot Hp Hleaf Hid) as (s2 & Hget & _).
    destruct (GetValue_root_leaf depth k tr s1 (Leaf_Insert key value p))
      as (s3 & Hget1 & _).
    + by rewrite R1.
    + by rewrite R1, R2, lookup_insert_eq.
    + exact Hleaf.
    + by rewrite R1.
    + exists s2, s3. split; [exact Hget|]. rewrite Hget1.
      by rewrite Leaf_Lookup_Leaf_Insert.
Qed.

(** *** Remove in a tree of one leaf *)

Lemma AdjustRoot_leaf node s p :
  pages s !! node = Some p → IsLeafPage p = true → IsRootPage p = true →
  ∃ s3, CoalesceOrRedistribute GetMinSize IsSafe 0 LeafPage node true s = Some (true, s3)
        ∧ root_page_id_ s3 = INVALID_PAGE_ID
        ∧ pages s3 = pages s
        ∧ next_page_id s3 = next_page_id s
        ∧ page_set (txn s3) = page_set (txn s)
        ∧ GetPageId p ∈ deleted_page_set (txn s3).
Proof.
  intros Hp Hleaf Hroot.
  rewrite <- (bind_ret_r (CoalesceOrRedistribute _ _ _ _ _ _)).
  rewrite (BTreeRuns.CoalesceOrRedistribute_at_root GetMinSize IsSafe 0 LeafPage node
             true ret s p Hp Hroot).
  rewrite bind_ret_r.
  unfold AdjustRoot, bind, FetchPage. rewrite Hp, Hleaf.
  unfold set_root, UpdateRootPageId, ret, AddIntoDeletedPageSet, bind, get_txn, set_txn.
  eexists. split; [reflexivity|]. proj. do 4 (split; [done|]).
  apply elem_of_union. left. by apply elem_of_singleton.
Qed.

Lemma CoalesceOrRedistribute_height height N node transaction s p :
  pages s !! node = Some p → IsRootPage p = true →
  CoalesceOrRedistribute GetMinSize IsSafe height N node transaction s
  = CoalesceOrRedistribute GetMinSize IsSafe 0 LeafPage node transaction s.
Proof.
  intros Hp Hroot.
  rewrite <- (bind_ret_r (CoalesceOrRedistribute _ _ height _ _ _)).
  rewrite <- (bind_ret_r (CoalesceOrRedistribute _ _ 0 _ _ _)).
  by rewrite !(BTreeRuns.CoalesceOrRedistribute_at_root GetMinSize IsSafe _ _ node
                 transaction ret s p Hp Hroot).
Qed.

(** X29: Remove, run with a transaction, in a tree whose root is a
    leaf.  When the leaf keeps at least GetMinSize entries, the key is
    taken out of the root, which stays the root, and GetValue afterwards
    (with or without a transaction) finds every other key as before and
    the removed key no more.  When the leaf falls below GetMinSize,
    AdjustRoot gives the root up whatever it still holds: the tree is
    empty afterwards (GetValue finds no key at all), and the root page
    is handed to DeletePage. *)
Theorem X29_Remove_at_root_leaf depth key s p :
  root_page_id_ s ≠ INVALID_PAGE_ID → pages s !! root_page_id_ s = Some p →
  IsLeafPage p = true → IsRootPage p = true → GetPageId p = root_page_id_ s →
  sorted_leaf p → 0 ≤ GetSize p →
  let p' := RemoveAndDeleteRecord key p in
  (GetMinSize p' ≤ GetSize p' →
     ∃ s',
       Remove GetMinSize IsSafe depth key true s = Some (tt, s')
       ∧ root_page_id_ s' = root_page_id_ s
       ∧ pages s' = <[root_page_id_ s := p']> (pages s)
       ∧ ∀ k tr, ∃ s2,
           GetValue IsSafe depth k tr s'
           = Some (if decide (k = key) then None else Leaf_Lookup p k, s2))
  ∧ (GetSize p' < GetMinSize p' →
       ∃ s',
         Remove GetMinSize IsSafe depth key true s = Some (tt, s')
         ∧ root_page_id_ s' = INVALID_PAGE_ID
         ∧ pages s' = <[root_page_id_ s := p']> (pages s)
         ∧ root_page_id_ s ∈ deleted_pages s'
         ∧ ∀ k tr, GetValue IsSafe depth k tr s' = Some (None, s')).
Proof.
  intros Hroot Hp Hleaf Hisroot Hid Hs Hsz p'.
  destruct (header_RemoveAndDeleteRecord key p) as (T1 & T2 & T3 & T4 & T5).
  fold p' in T1, T2, T3, T4, T5.
  assert (IsLeafPage p' = true) as Hleaf'.
  { unfold IsLeafPage in *. by rewrite T1. }
  assert (IsRootPage p' = true) as Hisroot'.
  { unfold IsRootPage in *. by rewrite T2. }
  assert (GetPageId p' = root_page_id_ s) as Hid'.
  { unfold GetPageId in *. by rewrite T3. }
  assert (∃ s1 sm,
            FindLeafPage IsSafe depth key false DELETE true s
            = Some (Some (root_page_id_ s), s1)
            ∧ modify (root_page_id_ s) (RemoveAndDeleteRecord key) s1 = Some (tt, sm)
            ∧ root_page_id_ sm = root_page_id_ s
            ∧ pages sm = <[root_page_id_ s := p']> (pages s)
            ∧ page_set (txn sm) = page_set (txn s) ++ [root_page_id_ s])
    as (s1 & sm & Hfind & Hmod & M1 & M2 & M3).
  { destruct (FindLeafPage_root_leaf depth key false DELETE true s p Hroot Hp Hleaf)
      as (s1 & Hfind & (E1 & E2 & E3 & _) & Hps).
    exists s1. eexists. split; [exact Hfind|]. split.
    { apply modify_eq. rewrite E2. exact Hp. }
    proj. by rewrite E1, E2. }
  assert (pages sm !! root_page_id_ s = Some p') as Hpm
    by (rewrite M2; apply lookup_insert_eq).
  split.
  - intros Hmin.
    destruct (RemovePagesInTransaction_true sm) as (s2 & Hrel & K2 & _).
    destruct K2 as ((F1 & F2 & _) & _).
    exists s2. split.
    { unfold Remove. eapply step_run; [reflexivity|]. norm.
      rewrite (proj2 (Z.eqb_neq _ _) Hroot).
      eapply step_run; [exact Hfind|]. norm.
      eapply step_run; [exact Hmod|]. norm.
      eapply step_run; [by apply FetchPage_eq|].
      norm. fold p'.
      replace (GetSize p' <? GetMinSize p') with false
        by (symmetry; apply Z.ltb_ge; lia).
      norm. exact Hrel. }
    split; [by rewrite F1|]. split; [by rewrite F2|].
    intros k tr.
    destruct (GetValue_root_leaf depth k tr s2 p') as (s3 & Hget & _).
    + by rewrite F1, M1.
    + by rewrite F1, F2, M1.
    + exact Hleaf'.
    + by rewrite F1, M1.
    + exists s3. rewrite Hget. unfold p'.
      by rewrite Leaf_Lookup_RemoveAndDeleteRecord.
  - intros Hmin.
    destruct (AdjustRoot_leaf (root_page_id_ s) sm p' Hpm Hleaf' Hisroot')
      as (s3 & Hcor & A1 & A2 & A3 & A4 & A5).
    rewrite <- (CoalesceOrRedistribute_height depth LeafPage _ true sm p' Hpm Hisroot')
      in Hcor.
    destruct (RemovePagesInTransaction_spec s3) as (s' & Hrel & K & Hdel).
    destruct K as ((F1 & F2 & _) & _).
    exists s'. split.
    { unfold Remove. eapply step_run; [reflexivity|]. norm.
      rewrite (proj2 (Z.eqb_neq _ _) Hroot).
      eapply step_run; [exact Hfind|]. norm.
      eapply step_run; [exact Hmod|]. norm.
      eapply step_run; [by apply FetchPage_eq|].
      norm. fold p'.
      replace (GetSize p' <? GetMinSize p') with true
        by (symmetry; apply Z.ltb_lt; lia).
      norm. eapply step_run; [exact Hcor|]. norm. exact Hrel. }
    assert (root_page_id_ s' = INVALID_PAGE_ID) as Hempty by (by rewrite F1).
    split; [exact Hempty|]. split; [by rewrite F2, A2|]. split.
    { apply Hdel.
      - rewrite A4, M3. apply elem_of_app. right. by apply list_elem_of_singleton.
      - by rewrite Hid' in A5. }
    intros k tr. by apply GetValue_empty.
Qed.

(** *** The iterator *)

Lemma visit_more n it s r :
  visit n it s = Some r → ∀ n', (n ≤ n')%nat → visit n' it s = Some r.
Proof.
  revert it s r. induction n as [|n IH]; intros it s r Hv n' Hle.
  - destruct n'; simpl in *; by destruct (isEnd it).
  - destruct n' as [|n']; [lia|]. simpl in *.
    destruct (isEnd it); [done|].
    unfold bind in *. destruct (deref it s) as [[x s1]|]; [|done].
    destruct (next it s1) as [[it' s2]|]; [|done].
    destruct (visit n it' s2) as [[xs s3]|] eqn:Hrest; [|done].
    rewrite (IH _ _ _ Hrest n') by lia. done.
Qed.

Lemma drop_items p i :
  0 ≤ i < GetSize p →
  drop (Z.to_nat i) (items p) = GetItem p i :: drop (Z.to_nat (i + 1)) (items p).
Proof.
  intros Hi. replace (Z.to_nat (i + 1)) with (S (Z.to_nat i)) by lia.
  unfold GetSize in Hi.
  rewrite (drop_S (items p) (GetItem p i) (Z.to_nat i)); [done|].
  rewrite PageFacts.lookup_items by lia. unfold GetItem. do 2 f_equal. lia.
Qed.

Lemma visit_S n i id s p :
  pages s !! id = Some p →
  visit (S n) (mkIter i (Some id)) s
  = match next (mkIter i (Some id)) s with
    | Some (it', s') =>
        match visit n it' s' with
        | Some (xs, s'') => Some (GetItem p i :: xs, s'')
        | None => None
        end
    | None => None
    end.
Proof.
  intros Hp. cbn [visit isEnd leaf_]. unfold bind at 1.
  unfold deref. cbn [leaf_ index_]. unfold bind at 1, FetchPage at 1. rewrite Hp.
  unfold ret at 1. unfold bind at 1.
  destruct (next (mkIter i (Some id)) s) as [[it' s']|]; [|done].
  unfold bind. by destruct (visit n it' s') as [[xs s'']|].
Qed.

(** The iterator inside one leaf: the slots from [i] on are read, and
    the loop goes on at [after], the place the increment leads to from
    the last slot. *)
Lemma visit_leaf s id p (m : nat) : ∀ i n after rest,
  pages s !! id = Some p → 0 ≤ i → GetSize p - i = Z.of_nat (S m) →
  next (mkIter (GetSize p - 1) (Some id)) s = Some (after, s) →
  visit n after s = Some (rest, s) →
  visit (S (m + n)) (mkIter i (Some id)) s
  = Some (drop (Z.to_nat i) (items p) ++ rest, s).
Proof.
  induction m as [|m IH]; intros i n after rest Hp Hi Hm Hnext Hrest.
  - assert (i = GetSize p - 1) as -> by lia.
    rewrite drop_items by lia.
    replace (GetSize p - 1 + 1) with (GetSize p) by lia.
    rewrite drop_ge by (rewrite PageFacts.length_items; unfold GetSize; lia).
    rewrite (visit_S _ _ _ _ p Hp), Hnext. cbn [Nat.add]. by rewrite Hrest.
  - rewrite drop_items by lia.
    rewrite (visit_S _ _ _ _ p Hp).
    assert (next (mkIter i (Some id)) s = Some (mkIter (i + 1) (Some id), s)) as ->.
    { unfold next. cbn [leaf_ index_]. unfold bind, FetchPage. rewrite Hp.
      destruct (Z.leb_spec (GetSize p) (i + 1)) as [Hle|_]; [lia|done]. }
    change (S m + n)%nat with (S (m + n)).
    rewrite (IH (i + 1) n after rest Hp); [done|lia|lia|done|done].
Qed.

Lemma visit_leaf_list s ps : ∀ p id i,
  leaf_list s id (p :: ps) → 0 ≤ i < GetSize p →
  Forall (λ q, 0 < GetSize q) ps →
  visit (length (drop (Z.to_nat i) (items p) ++ concat (items <$> ps)))
        (mkIter i (Some id)) s
  = Some (drop (Z.to_nat i) (items p) ++ concat (items <$> ps), s).
Proof.
  induction ps as [|q ps IH]; intros p id i (Hid & Hp & Hrest) Hi Hpos.
  - cbn [leaf_list] in Hrest. cbn [fmap list_fmap concat].
    assert (length (drop (Z.to_nat i) (items p) ++ [])
            = S (Z.to_nat (GetSize p - i - 1) + 0)) as ->.
    { rewrite length_app, length_drop, PageFacts.length_items.
      unfold GetSize in *. simpl. lia. }
    apply (visit_leaf s id p _ i 0%nat (mkIter (GetSize p) None) []); [done|lia|lia| |done].
    unfold next. cbn [leaf_ index_]. unfold bind, FetchPage. rewrite Hp.
    destruct (Z.leb_spec (GetSize p) (GetSize p - 1 + 1)) as [_|Hlt]; [|lia].
    rewrite Hrest. change (INVALID_PAGE_ID =? INVALID_PAGE_ID) with true.
    unfold ret. do 3 f_equal. lia.
  - apply Forall_cons in Hpos as [Hq Hpos].
    pose proof Hrest as (Hnid & Hpq & _).
    specialize (IH q (GetNextPageId p) 0 Hrest ltac:(lia) Hpos).
    change (Z.to_nat 0) with 0%nat in IH. rewrite drop_0 in IH.
    cbn [fmap list_fmap concat].
    change (list_fmap _ _ items ps) with (items <$> ps).
    assert (length (drop (Z.to_nat i) (items p) ++ items q ++ concat (items <$> ps))
            = S (Z.to_nat (GetSize p - i - 1)
                 + length (items q ++ concat (items <$> ps)))) as ->.
    { rewrite length_app, length_drop, PageFacts.length_items.
      unfold GetSize in *. lia. }
    apply (visit_leaf s id p _ i _ (mkIter 0 (Some (GetNextPageId p)))); [done|lia|lia| |done].
    unfold next. cbn [leaf_ index_]. unfold bind at 1, FetchPage at 1. rewrite Hp.
    destruct (Z.leb_spec (GetSize p) (GetSize p - 1 + 1)) as [_|Hlt]; [|lia].
    rewrite (proj2 (Z.eqb_neq _ _) Hnid).
    unfold bind, FetchPage. by rewrite Hpq.
Qed.

(** X30: the iterator walks the leaf chain.  From slot [i] of a leaf,
    the loop that reads the pair under the iterator and increments it
    until isEnd reads the valid slots of the leaf from [i] on, then all
    valid slots of each leaf that follows in the chain, in order, and
    is at its end after the last leaf; it changes nothing.  The leaves
    that follow must not be empty. *)
Theorem X30_iterator_walks_the_leaf_chain s id p ps i n :
  leaf_list s id (p :: ps) → 0 ≤ i < GetSize p →
  Forall (λ q, 0 < GetSize q) ps →
  (length (drop (Z.to_nat i) (items p) ++ concat (items <$> ps)) ≤ n)%nat →
  visit n (mkIter i (Some id)) s
  = Some (drop (Z.to_nat i) (items p) ++ concat (items <$> ps), s).
Proof.
  intros Hchain Hi Hpos Hn.
  apply (visit_more _ _ _ _ (visit_leaf_list s ps p id i Hchain Hi Hpos) n Hn).
Qed.
End Tree.

(** X28 on the tree whose root leaf holds the keys 1, 3 and 5: key 4
    is inserted and found, and key 3 is found as before. *)
Lemma X28_witness :
  ∃ s1 s2 s3,
    Insert 4 4 (λ _ _, true) 1 4 40 true Samples.one_leaf_tree = Some (true, s1)
    ∧ GetValue (λ _ _, true) 1 4 true s1 = Some (Some 40, s2)
    ∧ GetValue (λ _ _, true) 1 3 true s1 = Some (Some 30, s3).
Proof.
  destruct (X28_Insert_then_GetValue 4 4 (λ _ _, true) 1%nat 4 40
              Samples.one_leaf_tree) as [_ H].
  destruct (H Samples.leaf_135) as (s1 & Hins & _ & _ & _ & Hget);
    [done|reflexivity|reflexivity|reflexivity|apply PageFacts.sorted_leaf_135
    |unfold GetSize, GetMaxSize; simpl; lia|reflexivity|].
  destruct (Hget 4 true) as (_ & s2 & _ & H4).
  destruct (Hget 3 true) as (_ & s3 & _ & H3).
  exists s1, s2, s3. split; [exact Hins|]. split; [exact H4|exact H3].
Defined.

(** X29 with a minimum size of 1: in the tree whose root leaf holds the
    keys 1, 3 and 5, Remove of key 3 leaves the root in place; in the
    tree whose root leaf holds key 7 alone, Remove of key 7 empties the
    tree and page 1 is handed to DeletePage. *)
Lemma X29_witness :
  ∃ s1 s2 s3,
    Remove (λ _, 1) (λ _ _, true) 1 3 true Samples.one_leaf_tree = Some (tt, s1)
    ∧ root_page_id_ s1 = 1
    ∧ GetValue (λ _ _, true) 1 3 true s1 = Some (None, s2)
    ∧ Remove (λ _, 1) (λ _ _, true) 1 7 true Samples.one_key_tree = Some (tt, s3)
    ∧ root_page_id_ s3 = INVALID_PAGE_ID
    ∧ 1 ∈ deleted_pages s3.
Proof.
  destruct (X29_Remove_at_root_leaf (λ _, 1) (λ _ _, true) 1%nat 3
              Samples.one_leaf_tree Samples.leaf_135) as [H _];
    [done|reflexivity|reflexivity|reflexivity|reflexivity
    |apply PageFacts.sorted_leaf_135|unfold GetSize; simpl; lia|].
  destruct (H ltac:(vm_compute; discriminate)) as (s1 & Hrem & Hroot & _ & Hget).
  destruct (Hget 3 true) as (s2 & H3).
  destruct (X29_Remove_at_root_leaf (λ _, 1) (λ _ _, true) 1%nat 7
              Samples.one_key_tree
              (mkPage LEAF_PAGE 1 4 INVALID_PAGE_ID 1 INVALID_PAGE_ID [(7, 70)]))
    as [_ H'];
    [done|reflexivity|reflexivity|reflexivity|reflexivity
    | |unfold GetSize; simpl; lia|].
  { intros i j Hi Hij Hj. unfold GetSize in Hj. simpl in Hj. lia. }
  destruct (H' ltac:(vm_compute; reflexivity)) as (s3 & Hrem' & Hroot' & _ & Hdel & _).
  exists s1, s2, s3. split; [exact Hrem|]. split; [exact Hroot|].
  split; [exact H3|]. split; [exact Hrem'|]. split; [exact Hroot'|exact Hdel].
Defined.

(** X30 on the chain of the leaves 1 and 2: from slot 1 of the first
    leaf the iterator reads the pairs of the keys 3, 5, 7 and 9. *)
Lemma X30_witness :
  visit 10 (mkIter 1 (Some 1)) Samples.two_leaves
  = Some ([(3, 30); (5, 50); (7, 70); (9, 90)], Samples.two_leaves).
Proof.
  apply (X30_iterator_walks_the_leaf_chain Samples.two_leaves 1
           (mkPage LEAF_PAGE 3 4 3 1 2 [(1, 10); (3, 30); (5, 50)])
           [mkPage LEAF_PAGE 2 4 3 2 INVALID_PAGE_ID [(7, 70); (9, 90)]] 1 10%nat).
  - cbn [leaf_list]. repeat split; done.
  - unfold GetSize; simpl; lia.
  - repeat constructor.
  - simpl. lia.
Defined.
End BTreeRootLeaf.
